(** * multi-scrobbler: the source polling loop and the YouTube Music
      recent-window reconciliation

    A shallow embedding of
    - [AbstractSource.startPolling] and [recentlyPlayedTrackIsValid]
      (backend/sources/AbstractSource.js),
    - [buildTrackString] and [playObjDataMatch] (backend/utils.js),
    - [YTMusicSource.formatPlayObj], [recentlyPlayedTrackIsValid] and
      [getRecentlyPlayed] (backend/sources/YTMusicSource.ts),
    together with the properties the specification states about them. *)

From Stdlib Require Import ZArith List String Ascii Bool Lia DecimalString.
Import ListNotations.
Local Open Scope string_scope.
Local Open Scope list_scope.
Local Open Scope Z_scope.

Set Implicit Arguments.
Set Default Proof Using "Type".

(** ** Instants

    A dayjs instant is its [valueOf()]: milliseconds since the epoch. *)

Definition Dayjs := Z.

(** [d.unix()] is [Math.floor(d.valueOf() / 1000)]. *)
Definition unix (d : Dayjs) : Z := d / 1000.

(** [d.startOf('minute')]; the local offset from UTC is a whole number of
    minutes, so truncation happens on the epoch value. *)
Definition startOfMinute (d : Dayjs) : Dayjs := d - d mod 60000.

(** [d.add(n, 's')]. *)
Definition addSeconds (n : Z) (d : Dayjs) : Dayjs := d + n * 1000.

(** ** Play objects (core/Atomic.ts)

    Every field of [PlayData] and [PlayMeta] is optional in the source;
    [None] is JavaScript's [undefined].  [sourceId] is not declared by
    [PlayMeta] but is admitted by its index signature and read by
    [playObjDataMatch]. *)

Record PlayData := mkPlayData {
  artists      : option (list string);
  albumArtists : option (list string);
  album        : option string;
  track        : option string;
  duration     : option Z;
  playDate     : option Dayjs;
  listenedFor  : option Z
}.

Record PlayMeta := mkPlayMeta {
  source        : option string;
  trackId       : option string;
  sourceId      : option string;
  newFromSource : option bool;
  nowPlaying    : option bool;
  comment       : option string;
  historical    : option bool
}.

Record PlayObject := mkPlay {
  data : PlayData;
  meta : PlayMeta
}.

(** [{...m, newFromSource: v}] *)
Definition withNewFromSource (v : bool) (m : PlayMeta) : PlayMeta :=
  {| source := source m; trackId := trackId m; sourceId := sourceId m;
     newFromSource := Some v; nowPlaying := nowPlaying m;
     comment := comment m; historical := historical m |}.

(** [{...d, playDate: t}] *)
Definition withPlayDate (t : Dayjs) (d : PlayData) : PlayData :=
  {| artists := artists d; albumArtists := albumArtists d; album := album d;
     track := track d; duration := duration d; playDate := Some t;
     listenedFor := listenedFor d |}.

(** ** JavaScript odds and ends *)

(** What a [throw] carries: a [TypeError] raised by the runtime (a property
    read on [undefined]) or an error raised by an external collaborator. *)
Inductive JsError :=
| TypeError (msg : string)
| Thrown (what : string).

(** [x === y] on [string | undefined]. *)
Definition strictEq (x y : option string) : bool :=
  match x, y with
  | Some a, Some b => String.eqb a b
  | None, None => true
  | _, _ => false
  end.

Definition isDefined {A} (x : option A) : bool :=
  match x with Some _ => true | None => false end.

(** [arr.includes(x)] on an array of strings. *)
Definition includes (arr : list string) (x : string) : bool :=
  existsb (String.eqb x) arr.

(** Truthiness of a [boolean | undefined]. *)
Definition truthy (b : option bool) : bool :=
  match b with Some true => true | _ => false end.

(** A template literal's rendering of a [string | undefined]. *)
Definition render (s : option string) : string :=
  match s with Some x => x | None => "undefined" end.

(** A template literal's rendering of an integral number. *)
Definition renderNumber (z : Z) : string := NilZero.string_of_int (Z.to_int z).

(** [arr.map((x, index) => f x index)] *)
Fixpoint mapFrom {A B} (i : Z) (f : A -> Z -> B) (l : list A) : list B :=
  match l with
  | [] => []
  | x :: l' => f x i :: mapFrom (i + 1) f l'
  end.

Definition mapIndexed {A B} (f : A -> Z -> B) (l : list A) : list B :=
  mapFrom 0 f l.

(** ** backend/utils.js *)

Module Utils.

Section BuildTrackString.

(** [t => t.local().format()]: the rendering of an instant depends on the
    host's time zone, so it stays a parameter. *)
Variable formatTime : Dayjs -> string.

(** [buildTrackString(playObj)] with its default options
    ([include = ['time', 'artist', 'track']]).  [artists.join] and
    [playDate.local()] throw on [undefined]. *)
Definition buildTrackString (playObj : PlayObject) : JsError + string :=
  match artists (data playObj) with
  | None => inl (TypeError "Cannot read properties of undefined (reading 'join')")
  | Some a =>
      let str := String.concat " / " a in
      let str :=
        if String.eqb str "" then render (track (data playObj))
        else (str ++ " - " ++ render (track (data playObj)))%string in
      match playDate (data playObj) with
      | None => inl (TypeError "Cannot read properties of undefined (reading 'local')")
      | Some t => inr (str ++ " @ " ++ formatTime t)%string
      end
  end.

End BuildTrackString.

(** [playObjDataMatch(a, b)] *)
Definition playObjDataMatch (a b : PlayObject) : bool :=
  let aArtists := match artists (data a) with Some l => l | None => [] end in
  let bArtists := match artists (data b) with Some l => l | None => [] end in
  let aSource := source (meta a) in
  let aSourceId := sourceId (meta a) in
  let bSource := source (meta b) in
  let bSourceId := sourceId (meta b) in
  let compareData :=
    if negb (strictEq (track (data a)) (track (data b))) then false
    else if negb (strictEq (album (data a)) (album (data b))) then false
    else if negb (Nat.eqb (List.length aArtists) (List.length bArtists)) then false
    else if negb (forallb (includes bArtists) aArtists)
            && forallb (includes aArtists) bArtists
    then false
    else true in
  if strictEq aSource bSource && isDefined aSourceId && isDefined bSourceId
  then if negb (strictEq aSourceId bSourceId) then false else compareData
  else compareData.

(** [longestString(strings)] *)
Definition longestString (strings : list string) : Z :=
  fold_left
    (fun acc curr =>
       if acc <? Z.of_nat (String.length curr)
       then Z.of_nat (String.length curr)
       else acc)
    strings 0.

(** [str.slice(0, end)]: a negative [end] counts from the end of the
    string, and the result never runs past it. *)
Definition sliceTo (end_ : Z) (str : string) : string :=
  let len := Z.of_nat (String.length str) in
  let e := if end_ <? 0 then Z.max (len + end_) 0 else Z.min end_ len in
  String.substring 0 (Z.to_nat e) str.

(** [truncateStringToLength(length, truncStr = '...')(str)] *)
Definition truncateStringToLength (length : Z) (truncStr : option string)
    (str : string) : string :=
  let truncStr := match truncStr with Some t => t | None => "..." end in
  if length <? Z.of_nat (String.length str)
  then (sliceTo length str ++ truncStr)%string
  else str.

(** [truncateStringArrToLength(length, truncStr = '...')(strings)] *)
Definition truncateStringArrToLength (length : Z) (truncStr : option string)
    (strings : list string) : list string :=
  let truncStr := match truncStr with Some t => t | None => "..." end in
  let truncater := truncateStringToLength length (Some truncStr) in
  map truncater strings.

(** A JavaScript [Set] is the list of its elements in insertion order;
    [eqb] is the equality [has] and [add] use. *)
Section Sets.

Variable A : Type.
Variable eqb : A -> A -> bool.

(** [set.has(x)] *)
Definition has (set : list A) (x : A) : bool := existsb (eqb x) set.

(** [set.add(x)] *)
Definition add (set : list A) (x : A) : list A :=
  if has set x then set else set ++ [x].

(** [setIntersection(setA, setB)] *)
Definition setIntersection (setA setB : list A) : list A :=
  fold_left
    (fun _intersection elem =>
       if has setA elem then add _intersection elem else _intersection)
    setB [].

End Sets.

(** The three properties [isValidConfigStructure] looks at; only whether
    they are [undefined] matters. *)
Record ConfigStructure (V : Type) := mkConfigStructure {
  cs_type : option V;
  cs_name : option V;
  cs_data : option V
}.

(** The [required] argument, as it is destructured
    ([{name = false, type = false, data = true}]). *)
Record Required := mkRequired {
  req_name : option bool;
  req_type : option bool;
  req_data : option bool
}.

(** What [isValidConfigStructure] returns: [true] or the array of errors. *)
Inductive Validation :=
| IsValid
| Errors (errs : list string).

(** [isValidConfigStructure(obj, required = {})] *)
Definition isValidConfigStructure {V} (obj : ConfigStructure V)
    (required : option Required) : Validation :=
  let required :=
    match required with
    | Some r => r
    | None => {| req_name := None; req_type := None; req_data := None |}
    end in
  let name := match req_name required with Some b => b | None => false end in
  let type := match req_type required with Some b => b | None => false end in
  let data := match req_data required with Some b => b | None => true end in
  let errs := [] in
  let errs :=
    if negb (isDefined (cs_type obj)) && type
    then errs ++ ["'type' must be defined"] else errs in
  let errs :=
    if negb (isDefined (cs_name obj)) && name
    then errs ++ ["'name' must be defined"] else errs in
  let errs :=
    if negb (isDefined (cs_data obj)) && data
    then errs ++ ["'data' must be defined"] else errs in
  if 0 <? Z.of_nat (List.length errs) then Errors errs else IsValid.

End Utils.

(** ** Effects

    The code logs, sleeps, calls the scrobble clients, mutates fields of
    [this] and throws.  A computation is a function of the world it runs in
    (the fields of [this] and everything emitted so far, oldest first) that
    returns the new world and either the value or what was thrown. *)

Inductive Level := debug | info | warn | error.

(** The options object handed to [allClients.scrobble]. *)
Record ScrobbleOptions := mkOptions {
  forceRefresh : bool;
  scrobbleFrom : string;
  scrobbleTo   : list string
}.

Inductive Event :=
| Log (level : Level) (msg : string)      (* this.logger.<level>(msg) *)
| LogError (e : JsError)                  (* this.logger.error(e) *)
| Sleep (ms : Z)                          (* await sleep(ms) *)
| Scrobble (playObjs : list PlayObject) (options : ScrobbleOptions).

Record World (T : Type) := mkWorld {
  this : T;
  out  : list Event
}.

Definition M (T A : Type) : Type := World T -> World T * (JsError + A).

Section Monad.

Variable T : Type.

Definition ret {A} (x : A) : M T A := fun w => (w, inr x).

Definition bind {A B} (c : M T A) (k : A -> M T B) : M T B :=
  fun w =>
    match c w with
    | (w', inr x) => k x w'
    | (w', inl e) => (w', inl e)
    end.

Definition throw {A} (e : JsError) : M T A := fun w => (w, inl e).

(** [try { body } catch (e) { handler e }] *)
Definition tryCatch {A} (body : M T A) (handler : JsError -> M T A) : M T A :=
  fun w =>
    match body w with
    | (w', inr x) => (w', inr x)
    | (w', inl e) => handler e w'
    end.

Definition emit (e : Event) : M T unit :=
  fun w => ({| this := this w; out := out w ++ [e] |}, inr tt).

Definition getThis : M T T := fun w => (w, inr (this w)).

Definition modifyThis (f : T -> T) : M T unit :=
  fun w => ({| this := f (this w); out := out w |}, inr tt).

(** The settlement of an awaited promise (or the outcome of a call that
    may throw), supplied from outside. *)
Definition await {A} (r : JsError + A) : M T A :=
  match r with
  | inr x => ret x
  | inl e => throw e
  end.

Definition log (l : Level) (msg : string) : M T unit := emit (Log l msg).

Definition sleep (ms : Z) : M T unit := emit (Sleep ms).

End Monad.

Arguments ret {T A} x.
Arguments throw {T A} e.
Arguments getThis {T}.
Arguments emit {T} e.
Arguments log {T} l msg.
Arguments sleep {T} ms.
Arguments await {T A} r.

Declare Scope js_scope.
Delimit Scope js_scope with js.
Notation "x <- c ;; k" := (bind c (fun x => k))
  (at level 100, c at next level, right associativity) : js_scope.
Notation "c ;; k" := (bind c (fun _ => k))
  (at level 100, right associativity) : js_scope.
Local Open Scope js_scope.

(** ** backend/sources/AbstractSource.js *)

Module AbstractSource.

(** [this.config]: only [interval] is read by the loop. *)
Record Config := mkConfig {
  interval : option Z
}.

(** The fields of the class. *)
Record t := mkSource {
  name             : string;
  type             : string;
  identifier       : string;
  config           : Config;
  clients          : list string;
  canPoll          : bool;
  polling          : bool;
  tracksDiscovered : Z
}.

Definition setPolling (b : bool) (s : t) : t :=
  {| name := name s; type := type s; identifier := identifier s;
     config := config s; clients := clients s; canPoll := canPoll s;
     polling := b; tracksDiscovered := tracksDiscovered s |}.

Definition addTracksDiscovered (n : Z) (s : t) : t :=
  {| name := name s; type := type s; identifier := identifier s;
     config := config s; clients := clients s; canPoll := canPoll s;
     polling := polling s; tracksDiscovered := tracksDiscovered s + n |}.

(** [getRecentlyPlayed] of the base class. *)
Definition getRecentlyPlayed : M t (list PlayObject) := ret [].

(** [recentlyPlayedTrackIsValid] of the base class. *)
Definition recentlyPlayedTrackIsValid (playObj : PlayObject) : bool := true.

(** What the outside supplies to one iteration of the loop: the settlement
    of [this.getRecentlyPlayed({formatted: true})] (subclasses override it),
    the clock, the settlement of [allClients.scrobble(...)], and whether
    [this.polling] was cleared from outside while the iteration was
    suspended. *)
Record Cycle := mkCycle {
  recentlyPlayed : JsError + list PlayObject;
  now            : Dayjs;
  scrobbleResult : JsError + list PlayObject;
  stopRequested  : bool
}.

(** The accumulator of the [reduce]. *)
Record PlayInfo := mkPlayInfo {
  plays             : list PlayObject;
  lastTrackPlayedAt : Dayjs
}.

(** The two locals the [reduce] callback assigns. *)
Record Flags := mkFlags {
  newTracksFound  : bool;
  closeToInterval : bool
}.

(** How a run over finitely many supplied iterations ends: [startPolling]
    returned, or the loop stands at the top of an iteration that was not
    supplied, with these values of its locals. *)
Inductive PollEnd :=
| Done
| Pending (lastTrackPlayedAt : Dayjs) (checkCount : Z).

(** Lines 122-135: the time to sleep, in seconds. *)
Definition sleepTimeOf (cfg : Config) (checkCount : Z) (now lastTrackPlayedAt : Dayjs) : Z :=
  let interval := match interval cfg with Some i => i | None => 30 end in
  let sleepTime := interval in
  if (5 <? checkCount) && (sleepTime <? 600) then
    let lastPlayToNowSecs := Z.abs (unix now - unix lastTrackPlayedAt) in
    let backoffThreshold := Z.min (interval * 10) 600 in
    if backoffThreshold <=? lastPlayToNowSecs
    then Z.min (interval * 5) 300
    else sleepTime
  else sleepTime.

Section Polling.

Variable formatTime : Dayjs -> string.

(** The subclass's [recentlyPlayedTrackIsValid]. *)
Variable isValid : PlayObject -> bool.

(** The callback of [playObjs.reduce] (lines 67-89).  The comparison reads
    the loop's [lastTrackPlayedAt], not the accumulator's. *)
Definition reducer (now lastTrackPlayedAt : Dayjs)
    (st : PlayInfo * Flags) (playObj : PlayObject) : M t (PlayInfo * Flags) :=
  let (acc, fl) := st in
  if isValid playObj then
    match playDate (data playObj) with
    | None => throw (TypeError "Cannot read properties of undefined (reading 'unix')")
    | Some playDate =>
        if unix lastTrackPlayedAt <? unix playDate then
          s <- await (Utils.buildTrackString formatTime playObj) ;;
          log info ("New Track => " ++ s)%string ;;
          let close :=
            if closeToInterval fl then true
            else Z.abs (unix now - unix playDate) <? 5 in
          ret ({| plays := plays acc ++
                    [ {| data := data playObj;
                         meta := withNewFromSource true (meta playObj) |} ];
                  lastTrackPlayedAt := playDate |},
               {| newTracksFound := true; closeToInterval := close |})
        else
          ret ({| plays := plays acc ++ [playObj];
                  lastTrackPlayedAt := AbstractSource.lastTrackPlayedAt acc |}, fl)
    end
  else ret st.

Fixpoint reduce (now lastTrackPlayedAt : Dayjs) (playObjs : list PlayObject)
    (st : PlayInfo * Flags) : M t (PlayInfo * Flags) :=
  match playObjs with
  | [] => ret st
  | playObj :: rest =>
      st' <- reducer now lastTrackPlayedAt st playObj ;;
      reduce now lastTrackPlayedAt rest st'
  end.

(** One iteration of the [while (true)] body after the [polling] test
    (lines 59-139).  An outside [this.polling = false], when the cycle is
    supplied with one, lands during the final sleep. *)
Definition cycle (c : Cycle) (lastTrackPlayedAt : Dayjs) (checkCount : Z)
    : M t (Dayjs * Z) :=
  log debug "Refreshing recently played" ;;
  playObjs <- await (recentlyPlayed c) ;;
  let checkCount := checkCount + 1 in
  let now := now c in
  r <- reduce now lastTrackPlayedAt playObjs
         ({| plays := []; lastTrackPlayedAt := lastTrackPlayedAt |},
          {| newTracksFound := false; closeToInterval := false |}) ;;
  let (playInfo, fl) := r in
  let playObjs := plays playInfo in
  let lastTrackPlayedAt := AbstractSource.lastTrackPlayedAt playInfo in
  (if closeToInterval fl then
     log info "Track is close to polling interval! Delaying scrobble clients refresh by 10 seconds so other clients have time to scrobble first" ;;
     sleep (10 * 1000)
   else ret tt) ;;
  checkCount <-
    (if negb (newTracksFound fl) then
       match rev playObjs with
       | [] => log debug "No new tracks found and no tracks returned from API"
       | newest :: _ =>
           s <- await (Utils.buildTrackString formatTime newest) ;;
           log debug ("No new tracks found. Newest track returned was " ++ s)%string
       end ;;
       ret checkCount
     else ret 0) ;;
  self <- getThis ;;
  emit (Scrobble playObjs
          {| forceRefresh := closeToInterval fl;
             scrobbleFrom := identifier self;
             scrobbleTo := clients self |}) ;;
  scrobbleResult <- await (scrobbleResult c) ;;
  checkCount <-
    (if 0 <? Z.of_nat (List.length scrobbleResult) then
       modifyThis (addTracksDiscovered (Z.of_nat (List.length scrobbleResult))) ;;
       ret 0
     else ret checkCount) ;;
  let sleepTime := sleepTimeOf (config self) checkCount now lastTrackPlayedAt in
  log debug ("Sleeping for " ++ renderNumber sleepTime ++ "s")%string ;;
  sleep (sleepTime * 1000) ;;
  (if stopRequested c then modifyThis (setPolling false) else ret tt) ;;
  ret (lastTrackPlayedAt, checkCount).

(** The [while (true)] loop (lines 54-141), run over the supplied
    iterations. *)
Fixpoint pollLoop (cs : list Cycle) (lastTrackPlayedAt : Dayjs) (checkCount : Z)
    : M t PollEnd :=
  self <- getThis ;;
  if negb (polling self) then
    log info "Stopped polling due to user input" ;;
    ret Done
  else
    match cs with
    | [] => ret (Pending lastTrackPlayedAt checkCount)
    | c :: cs' =>
        r <- cycle c lastTrackPlayedAt checkCount ;;
        pollLoop cs' (fst r) (snd r)
    end.

(** [startPolling(allClients)]; [startedAt] is the [dayjs()] of line 50. *)
Definition startPolling (startedAt : Dayjs) (cs : list Cycle) : M t PollEnd :=
  self <- getThis ;;
  if polling self then ret Done
  else
    log info "Polling started" ;;
    let lastTrackPlayedAt := startedAt in
    let checkCount := 0 in
    tryCatch
      (modifyThis (setPolling true) ;;
       pollLoop cs lastTrackPlayedAt checkCount)
      (fun e =>
         log error "Error occurred while polling" ;;
         emit (LogError e) ;;
         modifyThis (setPolling false) ;;
         ret Done).

(** [poll(allClients)] *)
Definition poll (startedAt : Dayjs) (cs : list Cycle) : M t PollEnd :=
  startPolling startedAt cs.

End Polling.

End AbstractSource.

(** ** backend/sources/YTMusicSource.ts *)

(** The fields of youtubei.js's [MusicResponsiveListItem] that
    [formatPlayObj] reads ([album], [artists] and [authors] reduced to the
    [name]s read from them, [duration] to its [seconds]). *)
Module YTNodes.

Record MusicResponsiveListItem := mkItem {
  id       : option string;
  title    : option string;
  album    : option string;
  artists  : option (list string);
  authors  : option (list string);
  duration : option Z
}.

End YTNodes.

(** utils/PlayComparisonUtils.js is imported by YTMusicSource.ts but is not
    part of the sources at hand: its five functions are the fields of an
    interface, and everything below holds for whatever implements it.
    [ListDiff] is the diff type of [@donedeal0/superdiff]. *)
Record PlayComparisonUtils := mkComparison {
  ListDiff : Type;
  getPlaysDiff : list PlayObject -> list PlayObject -> ListDiff;
  humanReadableDiff : list PlayObject -> list PlayObject -> ListDiff -> string;
  playsAreAddedOnly : list PlayObject -> list PlayObject -> bool * list PlayObject;
  playsAreBumpedOnly : list PlayObject -> list PlayObject -> bool * list PlayObject;
  playsAreSortConsistent : list PlayObject -> list PlayObject -> bool
}.

Module YTMusicSource.

(** [FormatPlayObjectOptions], as [formatPlayObj] destructures it. *)
Record FormatPlayObjectOptions := mkFormatOptions {
  opt_newFromSource : option bool;
  opt_shelf         : option string
}.

(** [static formatPlayObj(obj, options)]; [now] is its [dayjs()]. *)
Definition formatPlayObj (now : Dayjs) (obj : YTNodes.MusicResponsiveListItem)
    (options : FormatPlayObjectOptions) : PlayObject :=
  let newFromSource :=
    match opt_newFromSource options with Some b => b | None => false end in
  let shelf := opt_shelf options in
  let artistsData := YTNodes.artists obj in
  let authorData := YTNodes.authors obj in
  let artists :=
    match artistsData, authorData with
    | Some a, _ => a
    | None, Some a => a
    | None, None => []
    end in
  let albumArtists :=
    match artistsData, authorData with
    | Some _, Some a => a
    | _, _ => []
    end in
  {| data := {| artists := Some artists;
                albumArtists := Some albumArtists;
                album := YTNodes.album obj;
                track := YTNodes.title obj;
                duration := YTNodes.duration obj;
                playDate := if newFromSource then Some (startOfMinute now) else None;
                listenedFor := None |};
     meta := {| source := Some "YTMusic";
                trackId := YTNodes.id obj;
                sourceId := None;
                newFromSource := Some newFromSource;
                nowPlaying := None;
                comment := shelf;
                historical := None |} |}.

(** [recentlyPlayedTrackIsValid = (playObj) => playObj.meta.newFromSource],
    as the [if] of the polling loop reads it. *)
Definition recentlyPlayedTrackIsValid (playObj : PlayObject) : bool :=
  truthy (newFromSource (meta playObj)).

(** The fields [getRecentlyPlayed] reads and writes; [logDiff] is
    [this.config.options?.logDiff]. *)
Record t := mkSource {
  polling        : bool;
  recentlyPlayed : list PlayObject;
  logDiff        : option bool
}.

Definition setRecentlyPlayed (l : list PlayObject) (s : t) : t :=
  {| polling := polling s; recentlyPlayed := l; logDiff := logDiff s |}.

Definition setPolling (b : bool) (s : t) : t :=
  {| polling := b; recentlyPlayed := recentlyPlayed s; logDiff := logDiff s |}.

(** Lines 313-322: the stamp put on the play at position [index]. *)
Definition stamp (now : Dayjs) (x : PlayObject) (index : Z) : PlayObject :=
  {| data := withPlayDate (addSeconds (index + 1) (startOfMinute now)) (data x);
     meta := withNewFromSource true (meta x) |}.

Definition newline : string := String (ascii_of_nat 10) "".

Section GetRecentlyPlayed.

Variable U : PlayComparisonUtils.

(** [getRecentlyPlayed(options)].  [history] is the settlement of
    [this.getLibraryHistory()], already parsed into its list items
    ([ytiHistoryResponseToListItems]); [now] is the clock. *)
Definition getRecentlyPlayed
    (history : JsError + list YTNodes.MusicResponsiveListItem) (now : Dayjs)
    : M t (list PlayObject) :=
  playlistDetail <- await history ;;
  let listPlays :=
    map (fun x => formatPlayObj now x
                    {| opt_newFromSource := Some false; opt_shelf := None |})
        playlistDetail in
  let plays := firstn 20 listPlays in
  self <- getThis ;;
  if negb (polling self) then
    modifyThis (setRecentlyPlayed plays) ;;
    ret plays
  else
    if playsAreSortConsistent U (recentlyPlayed self) plays then ret []
    else
      let bumpResults := playsAreBumpedOnly U (recentlyPlayed self) plays in
      let (newPlays, warnMsg) :=
        if fst bumpResults then (snd bumpResults, None)
        else
          let addResults := playsAreAddedOnly U (recentlyPlayed self) plays in
          if fst addResults then (rev (snd addResults), None)
          else ([], Some "YTM History returned temporally inconsistent order, resetting watched history to new list.") in
      (if isDefined warnMsg
          || ((0 <? Z.of_nat (List.length newPlays)) && truthy (logDiff self))
       then
         let playsDiff := getPlaysDiff U (recentlyPlayed self) plays in
         let humanDiff := humanReadableDiff U (recentlyPlayed self) plays playsDiff in
         let diffMsg :=
           ("Changes from last seen list:" ++ newline ++ "    " ++ humanDiff)%string in
         match warnMsg with
         | Some m => log warn m ;; log warn diffMsg
         | None => log debug diffMsg
         end
       else ret tt) ;;
      modifyThis (setRecentlyPlayed plays) ;;
      ret (mapIndexed (stamp now) newPlays).

End GetRecentlyPlayed.

(** A parsed [YTNodes.MusicShelf]: its [title.text] and its [contents]. *)
Record MusicShelf := mkShelf {
  shelf_title    : string;
  shelf_contents : list YTNodes.MusicResponsiveListItem
}.

(** [ytiHistoryResponseFromShelfToPlays(res)]; [shelves] is
    [page.contents_memo.getType(YTNodes.MusicShelf)] of the parsed
    response. *)
Definition ytiHistoryResponseFromShelfToPlays (now : Dayjs)
    (shelves : list MusicShelf) : list PlayObject :=
  fold_left
    (fun items shelf =>
       fold_left
         (fun items listItem =>
            items ++
            [ formatPlayObj now listItem
                {| opt_newFromSource := None;
                   opt_shelf := Some (shelf_title shelf) |} ])
         (shelf_contents shelf) items)
    shelves [].

Section Upstream.

(** [loggedErrorExtra(e) !== undefined]: whether the error carries an
    [info] to log. *)
Variable hasErrorInfo : JsError -> bool.

(** [getLibraryHistoryPlaylists()]; [history] is the settlement of
    [this.getLibraryHistory()], parsed into its shelves. *)
Definition getLibraryHistoryPlaylists (now : Dayjs)
    (history : JsError + list MusicShelf) : M t (list PlayObject) :=
  tryCatch
    (res <- await history ;;
     ret (ytiHistoryResponseFromShelfToPlays now res))
    (fun e =>
       (if hasErrorInfo e
        then log error "Additional API response details"
        else ret tt) ;;
       throw e).

(** [getUpstreamRecentlyPlayed(options)] *)
Definition getUpstreamRecentlyPlayed (now : Dayjs)
    (history : JsError + list MusicShelf) : M t (list PlayObject) :=
  l <- getLibraryHistoryPlaylists now history ;;
  ret (firstn 100 l).

End Upstream.

End YTMusicSource.

(** ** backend/sources/LastfmSource.ts *)

Module LastfmSource.

(** [recenttracks['@attr']]: only [totalPages] is read. *)
Record RecentTracksAttr := mkAttr {
  totalPages : option string
}.

(** The [recenttracks] member of a [user.getRecentTracks] response. *)
Record RecentTracks (TrackObject : Type) := mkRecentTracks {
  track : option (list TrackObject);
  attr  : option RecentTracksAttr
}.

Record Response (TrackObject : Type) := mkResponse {
  recenttracks : option (RecentTracks TrackObject)
}.

Section Lastfm.

(** The fields of the class and of [MemorySource] stay abstract: the
    functions below read none of them. *)
Variable T : Type.

(** lastfm-node-client's [TrackObject]. *)
Variable TrackObject : Type.

(** [LastfmApiClient.formatPlayObj(x)], which is not part of the sources
    at hand; it may throw. *)
Variable formatPlayObj : TrackObject -> JsError + PlayObject.

(** [plays.sort(sortByOldestPlayDate)]. *)
Variable sort : list PlayObject -> list PlayObject.

(** The rendering of a raw track by [this.logger.debug(x)]. *)
Variable showTrack : TrackObject -> string.

(** [parseInt(total)]; [None] is [NaN]. *)
Variable parseInt : string -> option Z.

(** [{...formatted, data: {...formatted.data, playDate: t}}], the effect of
    [formatted.data.playDate = dayjs()]. *)
Definition datedNow (t : Dayjs) (formatted : PlayObject) : PlayObject :=
  {| data := withPlayDate t (data formatted); meta := meta formatted |}.

(** The callback of [list.reduce] in [getLastfmRecentTrack], and again in
    [getLastfmDateRange]; the array [list] of the source is [tracks] here.
    The metadata objects handed to the logger are not modelled. *)
Definition collect (now : Dayjs) (acc : list PlayObject) (x : TrackObject)
    : M T (list PlayObject) :=
  tryCatch
    (formatted <- await (formatPlayObj x) ;;
     match playDate (data formatted) with
     | None =>
         if truthy (nowPlaying (meta formatted)) then
           ret (acc ++ [datedNow now formatted])
         else
           log warn "Last.fm recently scrobbled track did not contain a timestamp, omitting from time frame check" ;;
           ret acc
     | Some _ => ret (acc ++ [formatted])
     end)
    (fun e =>
       log warn "Failed to format Last.fm recently scrobbled track, omitting from time frame check" ;;
       log debug "Full api response object:" ;;
       log debug (showTrack x) ;;
       ret acc).

Fixpoint collectAll (now : Dayjs) (tracks : list TrackObject) (acc : list PlayObject)
    : M T (list PlayObject) :=
  match tracks with
  | [] => ret acc
  | x :: rest =>
      acc' <- collect now acc x ;;
      collectAll now rest acc'
  end.

(** The end of both functions: sort, then split on [meta.nowPlaying]. *)
Definition splitPlays (plays : list PlayObject) : list PlayObject * list PlayObject :=
  let plays := sort plays in
  let history := filter (fun x => negb (truthy (nowPlaying (meta x)))) plays in
  let now := filter (fun x => truthy (nowPlaying (meta x))) plays in
  (history, now).

(** [getLastfmRecentTrack(options)]; [resp] is the settlement of
    [this.api.callApi(...)]. *)
Definition getLastfmRecentTrack (now : Dayjs)
    (resp : JsError + Response TrackObject)
    : M T (list PlayObject * list PlayObject) :=
  resp <- await resp ;;
  match recenttracks resp with
  | None => throw (TypeError "Cannot read properties of undefined (reading 'track')")
  | Some rt =>
      let tracks := match track rt with Some l => l | None => [] end in
      plays <- collectAll now tracks [] ;;
      ret (splitPlays plays)
  end.

(** [getUpstreamRecentlyPlayed(options)] *)
Definition getUpstreamRecentlyPlayed (now : Dayjs)
    (resp : JsError + Response TrackObject) : M T (list PlayObject) :=
  tryCatch
    (r <- getLastfmRecentTrack now resp ;; ret (fst r))
    (fun e => throw e).

(** [getUpstreamNowPlaying()] *)
Definition getUpstreamNowPlaying (now : Dayjs)
    (resp : JsError + Response TrackObject) : M T (list PlayObject) :=
  tryCatch
    (r <- getLastfmRecentTrack now resp ;; ret (snd r))
    (fun e => throw e).

(** [getRecentlyPlayed(options)]; [processRecentPlays] is inherited from
    [MemorySource], which is not part of the sources at hand. *)
Definition getRecentlyPlayed (processRecentPlays : list PlayObject -> M T unit)
    (now : Dayjs) (resp : JsError + Response TrackObject) : M T (list PlayObject) :=
  tryCatch
    (r <- getLastfmRecentTrack now resp ;;
     processRecentPlays (snd r) ;;
     ret (fst r))
    (fun e => throw e).

(** The [do ... while (page <= totalPages)] loop of [getLastfmDateRange].  [pages p] is the settlement of the request for page
    [p]; the loop is run for at most [fuel] requests, and [None] says that
    it wanted more.  The error object handed to the logger next to the
    message is not modelled. *)
Fixpoint fetchPages (pages : Z -> JsError + Response TrackObject)
    (fuel : nat) (page : Z) (tracks : list TrackObject)
    : M T (option (list TrackObject)) :=
  match fuel with
  | O => ret None
  | S fuel' =>
      r <- tryCatch
             (resp <- await (pages page) ;;
              match recenttracks resp with
              | None =>
                  throw (TypeError "Cannot read properties of undefined (reading 'track')")
              | Some rt =>
                  let pageTracks := match track rt with Some l => l | None => [] end in
                  let total :=
                    match attr rt with
                    | Some a => match totalPages a with Some t => t | None => "1" end
                    | None => "1"
                    end in
                  let totalPages := parseInt total in
                  ret (totalPages, tracks ++ pageTracks, page + 1)
              end)
             (fun e =>
                log error "Error fetching scrobbles:" ;;
                throw e) ;;
      let '(totalPages, tracks, page) := r in
      if match totalPages with Some n => page <=? n | None => false end
      then fetchPages pages fuel' page tracks
      else ret (Some tracks)
  end.

(** [getLastfmDateRange(from, to)]; [format] renders the two instants. *)
Definition getLastfmDateRange (format : Dayjs -> string)
    (pages : Z -> JsError + Response TrackObject) (fuel : nat)
    (now from to : Dayjs)
    : M T (option (list PlayObject * list PlayObject)) :=
  log info ("Fetching scrobbles from " ++ format from ++ " to " ++ format to)%string ;;
  fetched <- fetchPages pages fuel 1 [] ;;
  match fetched with
  | None => ret None
  | Some tracks =>
      plays <- collectAll now tracks [] ;;
      ret (Some (splitPlays plays))
  end.

End Lastfm.

End LastfmSource.

(** ** Vocabulary of the statements *)

(** The artists of a play, as [playObjDataMatch] destructures them
    ([artists = []] by default). *)
Definition artistsOf (p : PlayObject) : list string :=
  match artists (data p) with Some l => l | None => [] end.

(** The guard of utils.js lines 241-242: same source, both ids present,
    ids different. *)
Definition sourceIdsDiffer (a b : PlayObject) : Prop :=
  source (meta a) = source (meta b) /\
  sourceId (meta a) <> None /\ sourceId (meta b) <> None /\
  sourceId (meta a) <> sourceId (meta b).

Section Newness.

Variable isValid : PlayObject -> bool.

(** The tests of AbstractSource.js lines 68 and 70 together: the play is
    counted as new against [lastTrackPlayedAt]. *)
Definition isNew (lastTrackPlayedAt : Dayjs) (p : PlayObject) : bool :=
  isValid p &&
  match playDate (data p) with
  | Some d => unix lastTrackPlayedAt <? unix d
  | None => false
  end.

(** The test of line 75. *)
Definition isClose (now : Dayjs) (p : PlayObject) : bool :=
  match playDate (data p) with
  | Some d => Z.abs (unix now - unix d) <? 5
  | None => false
  end.

(** A play the loop can log and compare without a [TypeError]. *)
Definition wellFormed (p : PlayObject) : Prop :=
  isValid p = true ->
  artists (data p) <> None /\ playDate (data p) <> None.

(** The play as the [reduce] pushes it (lines 79 and 85). *)
Definition pushed (lastTrackPlayedAt : Dayjs) (p : PlayObject) : PlayObject :=
  if isNew lastTrackPlayedAt p
  then {| data := data p; meta := withNewFromSource true (meta p) |}
  else p.

(** The [lastTrackPlayedAt] the [reduce] ends with: the [playDate] of the
    last new play, if any. *)
Fixpoint lastNew (lastTrackPlayedAt : Dayjs) (ps : list PlayObject) (acc : Dayjs) : Dayjs :=
  match ps with
  | [] => acc
  | p :: ps' =>
      lastNew lastTrackPlayedAt ps'
        (if isNew lastTrackPlayedAt p
         then match playDate (data p) with Some d => d | None => acc end
         else acc)
  end.

End Newness.

Section Logs.

Variable formatTime : Dayjs -> string.
Variable isValid : PlayObject -> bool.

(** The text [buildTrackString] yields when it does not throw. *)
Definition trackString (p : PlayObject) : string :=
  match Utils.buildTrackString formatTime p with
  | inr s => s
  | inl _ => ""
  end.

(** The "New Track" lines one [reduce] logs (line 72). *)
Definition newTrackLogs (lastTrackPlayedAt : Dayjs) (ps : list PlayObject) : list Event :=
  map (fun p => Log info ("New Track => " ++ trackString p)%string)
      (filter (isNew isValid lastTrackPlayedAt) ps).

(** The line logged when a cycle finds nothing new (lines 102-106);
    [plays] is what the [reduce] kept. *)
Definition noNewTracksLog (plays : list PlayObject) : Event :=
  match rev plays with
  | [] => Log debug "No new tracks found and no tracks returned from API"
  | newest :: _ =>
      Log debug ("No new tracks found. Newest track returned was "
                 ++ trackString newest)%string
  end.

(** The two events of the close-to-interval delay (lines 97-98). *)
Definition closeDelay : list Event :=
  [ Log info "Track is close to polling interval! Delaying scrobble clients refresh by 10 seconds so other clients have time to scrobble first";
    Sleep 10000 ].

(** Everything a cycle emits before it calls the scrobble clients
    (lines 60-109). *)
Definition beforeDispatch (now lastTrackPlayedAt : Dayjs) (ps : list PlayObject)
    : list Event :=
  Log debug "Refreshing recently played"
  :: newTrackLogs lastTrackPlayedAt ps
  ++ (if existsb (fun p => isNew isValid lastTrackPlayedAt p && isClose now p) ps
      then closeDelay else [])
  ++ (if existsb (isNew isValid lastTrackPlayedAt) ps then []
      else [noNewTracksLog
              (map (pushed isValid lastTrackPlayedAt) (filter isValid ps))]).

End Logs.

(** [q] does not start before [p], when both are valid and dated. *)
Definition notLater (isValid : PlayObject -> bool) (p q : PlayObject) : Prop :=
  isValid p = true -> isValid q = true ->
  forall d e, playDate (data p) = Some d -> playDate (data q) = Some e -> d <= e.

(** The valid plays of a list are in oldest-first order of [playDate]
    ([sortByPlayDate] of utils.js, applied by the adapters). *)
Definition oldestFirst (isValid : PlayObject -> bool) (ps : list PlayObject) : Prop :=
  ForallOrdPairs (notLater isValid) ps.

(** The plays [getRecentlyPlayed] of the YouTube Music source works on:
    the first 20 list items, formatted (lines 275-276). *)
Definition window (now : Dayjs) (items : list YTNodes.MusicResponsiveListItem)
    : list PlayObject :=
  firstn 20
    (map (fun x => YTMusicSource.formatPlayObj now x
                     {| YTMusicSource.opt_newFromSource := Some false;
                        YTMusicSource.opt_shelf := None |})
         items).

(** The text of the diff message (lines 299-302). *)
Definition diffMessage (U : PlayComparisonUtils) (prev cur : list PlayObject) : string :=
  ("Changes from last seen list:" ++ YTMusicSource.newline ++ "    "
   ++ humanReadableDiff U prev cur (getPlaysDiff U prev cur))%string.

(** A cycle in which the fetch returns nothing, the clients accept nothing
    and nobody stops the poller. *)
Definition emptyCycle (c : AbstractSource.Cycle) : Prop :=
  AbstractSource.recentlyPlayed c = inr [] /\
  AbstractSource.scrobbleResult c = inr [] /\
  AbstractSource.stopRequested c = false.

(** A computation keeps the invariant [I] of [this], emits only events
    that satisfy [P], and returns only values that satisfy [Q]. *)
Definition respects {T A} (I : T -> Prop) (P : Event -> Prop) (Q : A -> Prop)
    (c : M T A) : Prop :=
  forall w, I (this w) ->
    I (this (fst (c w))) /\
    (exists evs, out (fst (c w)) = out w ++ evs /\ Forall P evs) /\
    (forall x, snd (c w) = inr x -> Q x).

(** The event is a line of log. *)
Definition isLog (e : Event) : Prop :=
  match e with
  | Log _ _ | LogError _ => True
  | _ => False
  end.

Section LastfmVocabulary.

Variable TrackObject : Type.
Variable formatPlayObj : TrackObject -> JsError + PlayObject.

(** What the [reduce] of the Last.fm source keeps of one raw track: the
    formatted play when it is dated, the play dated with the current
    instant when it is undated but now playing, and nothing otherwise. *)
Definition keptOf (now : Dayjs) (x : TrackObject) : list PlayObject :=
  match formatPlayObj x with
  | inr f =>
      match playDate (data f) with
      | Some _ => [f]
      | None =>
          if truthy (nowPlaying (meta f)) then [LastfmSource.datedNow now f] else []
      end
  | inl _ => []
  end.

(** What that [reduce] logs for one raw track: three lines when the track
    cannot be formatted, one warning when it is undated and not now playing,
    nothing when it is kept. *)
Definition omissionLogs (showTrack : TrackObject -> string) (x : TrackObject)
    : list Event :=
  match formatPlayObj x with
  | inl _ =>
      [Log warn "Failed to format Last.fm recently scrobbled track, omitting from time frame check";
       Log debug "Full api response object:";
       Log debug (showTrack x)]
  | inr f =>
      match playDate (data f), nowPlaying (meta f) with
      | None, Some true => []
      | None, _ =>
          [Log warn "Last.fm recently scrobbled track did not contain a timestamp, omitting from time frame check"]
      | Some _, _ => []
      end
  end.

(** The tracks of the response to a page request, when there are any. *)
Definition pageTracks (r : JsError + LastfmSource.Response TrackObject)
    : list TrackObject :=
  match r with
  | inr resp =>
      match LastfmSource.recenttracks resp with
      | Some rt => match LastfmSource.track rt with Some l => l | None => [] end
      | None => []
      end
  | inl _ => []
  end.

(** The text of [totalPages] in the response to a page request, with its
    default. *)
Definition pageTotal (r : JsError + LastfmSource.Response TrackObject)
    : option string :=
  match r with
  | inr resp =>
      match LastfmSource.recenttracks resp with
      | Some rt =>
          Some match LastfmSource.attr rt with
               | Some a =>
                   match LastfmSource.totalPages a with Some t => t | None => "1" end
               | None => "1"
               end
      | None => None
      end
  | inl _ => None
  end.

(** A play of the history that [getLastfmRecentTrack] and
    [getLastfmDateRange] return for the raw [tracks]: a track that formats
    to a dated play that is not now playing. *)
Definition inHistory (tracks : list TrackObject) (p : PlayObject) : Prop :=
  exists x, In x tracks /\ formatPlayObj x = inr p /\
            playDate (data p) <> None /\ nowPlaying (meta p) <> Some true.

(** A play of their now-playing list: a track that formats to a play that
    is now playing, dated with the current instant when it had no date. *)
Definition inPlaying (now : Dayjs) (tracks : list TrackObject) (q : PlayObject)
    : Prop :=
  exists x f, In x tracks /\ formatPlayObj x = inr f /\
              nowPlaying (meta f) = Some true /\
              q = match playDate (data f) with
                  | Some _ => f
                  | None => LastfmSource.datedNow now f
                  end.

End LastfmVocabulary.

(** The page numbers [k], [k + 1], ..., [k + m - 1]. *)
Fixpoint pagesFrom (k : Z) (m : nat) : list Z :=
  match m with
  | O => []
  | S m' => k :: pagesFrom (k + 1) m'
  end.

(** ** Sample data for the examples *)

Definition play (title : string) (id : option string) (at_ : option Dayjs) : PlayObject :=
  {| data := {| artists := Some ["Artist"]; albumArtists := Some [];
                album := Some "Album"; track := Some title; duration := None;
                playDate := at_; listenedFor := None |};
     meta := {| source := Some "YTMusic"; trackId := id; sourceId := id;
                newFromSource := None; nowPlaying := None; comment := None;
                historical := None |} |}.

Definition item (title tid : string) : YTNodes.MusicResponsiveListItem :=
  {| YTNodes.id := Some tid; YTNodes.title := Some title;
     YTNodes.album := Some "Album"; YTNodes.artists := Some ["Artist"];
     YTNodes.authors := None; YTNodes.duration := None |}.

Definition playBy (title : string) (by_ : list string) : PlayObject :=
  {| data := {| artists := Some by_; albumArtists := Some [];
                album := Some "Album"; track := Some title; duration := None;
                playDate := None; listenedFor := None |};
     meta := {| source := Some "YTMusic"; trackId := None; sourceId := None;
                newFromSource := None; nowPlaying := None; comment := None;
                historical := None |} |}.

Definition sampleSource : AbstractSource.t :=
  {| AbstractSource.name := "test"; AbstractSource.type := "lastfm";
     AbstractSource.identifier := "Lastfm - test";
     AbstractSource.config := {| AbstractSource.interval := Some 30 |};
     AbstractSource.clients := ["maloja"]; AbstractSource.canPoll := true;
     AbstractSource.polling := false; AbstractSource.tracksDiscovered := 0 |}.

Definition sampleFormat (d : Dayjs) : string := renderNumber d.

(** A cycle at instant [t] in which nothing is fetched or accepted. *)
Definition quietCycle (t : Dayjs) : AbstractSource.Cycle :=
  {| AbstractSource.recentlyPlayed := inr [];
     AbstractSource.now := t;
     AbstractSource.scrobbleResult := inr [];
     AbstractSource.stopRequested := false |}.

(** Modelled from the spec: utils/PlayComparisonUtils.js is missing from
    the sources; this is the comparison of section 4.2 of the
    specification, as far as its rules and the scenarios of section 8
    determine it.
    - Plays are identified by the stable key of section 4.2,
      "(trackId or track+artists+album)".
    - Rule 1, sort-consistent: the two windows list the same keys in the
      same order (section 8, "fetch() returns the same list as last
      cycle").  Read with head items removed, the words of rule 1 would
      also cover the windows of scenarios 4, 5 and 6, which section 8
      classifies by rules 2, 3 and 4.
    - Rule 2, bumped-only: the current window is the previous one with one
      or more plays moved to the top, and those plays are returned.
      Section 8 calls a window whose oldest play has moved to the top an
      inconsistent reorder (scenario 6), so a bump is reported only when the
      oldest play of the window keeps its place.
    - Rule 3, added-only: the current window is the previous one with plays
      of unseen keys prepended, and those plays are returned.
    The diff of section 4.2 is informational and is not rendered:
    [humanReadableDiff] is a fixed text. *)
Module SampleComparison.

Fixpoint sameStrings (l m : list string) : bool :=
  match l, m with
  | [], [] => true
  | x :: l', y :: m' => String.eqb x y && sameStrings l' m'
  | _, _ => false
  end.

Definition stableKey (p : PlayObject)
    : string + (option string * list string * option string) :=
  match trackId (meta p) with
  | Some id => inl id
  | None => inr (track (data p), artistsOf p, album (data p))
  end.

Definition sameKey (a b : PlayObject) : bool :=
  match stableKey a, stableKey b with
  | inl x, inl y => String.eqb x y
  | inr (t, ar, al), inr (t', ar', al') =>
      strictEq t t' && sameStrings ar ar' && strictEq al al'
  | _, _ => false
  end.

Fixpoint sameWindow (prev cur : list PlayObject) : bool :=
  match prev, cur with
  | [], [] => true
  | a :: prev', b :: cur' => sameKey a b && sameWindow prev' cur'
  | _, _ => false
  end.

(** [l] without the plays whose key is among those of [gone]. *)
Definition removeKeys (gone l : list PlayObject) : list PlayObject :=
  filter (fun p => negb (existsb (sameKey p) gone)) l.

Definition sameOldest (prev cur : list PlayObject) : bool :=
  match rev prev, rev cur with
  | a :: _, b :: _ => sameKey a b
  | _, _ => false
  end.

Definition bumpedOnly (prev cur : list PlayObject) : bool * list PlayObject :=
  if Nat.eqb (List.length prev) (List.length cur)
     && negb (sameWindow prev cur)
     && sameOldest prev cur
  then
    match find (fun n => sameWindow (removeKeys (firstn n cur) prev) (skipn n cur))
               (seq 1 (List.length cur - 1)) with
    | Some n => (true, firstn n cur)
    | None => (false, [])
    end
  else (false, []).

Definition addedOnly (prev cur : list PlayObject) : bool * list PlayObject :=
  let n := (List.length cur - List.length prev)%nat in
  let added := firstn n cur in
  (negb (Nat.eqb n 0)
   && sameWindow prev (skipn n cur)
   && forallb (fun a => negb (existsb (sameKey a) prev)) added,
   added).

Definition utils : PlayComparisonUtils :=
  {| ListDiff := unit;
     getPlaysDiff := fun _ _ => tt;
     humanReadableDiff := fun _ _ _ => "(diff)";
     playsAreAddedOnly := addedOnly;
     playsAreBumpedOnly := bumpedOnly;
     playsAreSortConsistent := sameWindow |}.

End SampleComparison.


(** Raw Last.fm tracks of the examples: a play as it would be formatted, or
    a track that cannot be formatted. *)
Definition sampleTrackFormat (x : option PlayObject) : JsError + PlayObject :=
  match x with
  | Some p => inr p
  | None => inl (Thrown "Invalid track")
  end.

Definition nowPlayingPlay (title : string) : PlayObject :=
  {| data := data (play title None None);
     meta := {| source := Some "Lastfm"; trackId := None; sourceId := None;
                newFromSource := None; nowPlaying := Some true; comment := None;
                historical := None |} |}.

Definition samplePage (tracks : list (option PlayObject)) (total : string)
    : LastfmSource.Response (option PlayObject) :=
  LastfmSource.mkResponse
    (Some (LastfmSource.mkRecentTracks (Some tracks)
             (Some (LastfmSource.mkAttr (Some total))))).

(** Two pages, and a failing request for any other. *)
Definition samplePages (p : Z) : JsError + LastfmSource.Response (option PlayObject) :=
  if p =? 1 then
    inr (samplePage [Some (play "A" None (Some 1000)); None] "2")
  else if p =? 2 then
    inr (samplePage [Some (nowPlayingPlay "B"); Some (play "C" None None)] "2")
  else inl (Thrown "ECONNRESET").

(** [parseInt] on the totals of the examples. *)
Definition sampleParseInt (s : string) : option Z :=
  if String.eqb s "1" then Some 1
  else if String.eqb s "2" then Some 2
  else if String.eqb s "3" then Some 3
  else None.

(** * Properties *)

Ltac run := unfold bind, ret, throw, log, sleep, emit, getThis, modifyThis, await, tryCatch in *.

(** ** Record validity (C6) *)

(** C6, as the specification has it, fails: the default predicate does not
    look at [playDate]; a play without one is accepted. *)
Lemma default_validity_accepts_undated :
  ~ (forall p, AbstractSource.recentlyPlayedTrackIsValid p = true <->
               playDate (data p) <> None).
Proof.
  intros H.
  destruct (H (play "A" (Some "a") None)) as [H1 _].
  apply H1; reflexivity.
Qed.

(** C6 (amended): the default record-validity predicate accepts every play
    record, and the YouTube Music variant accepts a record if and only if
    its [meta.newFromSource] is [true]. *)
Theorem validity_policies :
  (forall p, AbstractSource.recentlyPlayedTrackIsValid p = true) /\
  (forall p, YTMusicSource.recentlyPlayedTrackIsValid p = true <->
             newFromSource (meta p) = Some true).
Proof.
  split; [reflexivity|].
  intros p. unfold YTMusicSource.recentlyPlayedTrackIsValid, truthy.
  destruct (newFromSource (meta p)) as [[|]|]; split; congruence.
Qed.

(** ** The same-play test (C7) *)

Lemma strictEq_spec (x y : option string) : strictEq x y = true <-> x = y.
Proof.
  destruct x as [a|], y as [b|]; simpl; try (split; congruence).
  rewrite String.eqb_eq. split; congruence.
Qed.

Lemma strictEq_false (x y : option string) : strictEq x y = false <-> x <> y.
Proof.
  rewrite <- strictEq_spec. destruct (strictEq x y); split; congruence.
Qed.

Lemma isDefined_spec {A} (x : option A) : isDefined x = true <-> x <> None.
Proof. destruct x; simpl; split; congruence. Qed.

Lemma includes_spec (arr : list string) (x : string) :
  includes arr x = true <-> In x arr.
Proof.
  unfold includes. rewrite existsb_exists. split.
  - intros [y [Hy He]]. apply String.eqb_eq in He. subst. exact Hy.
  - intros H. exists x. split; [exact H | apply String.eqb_refl].
Qed.

Lemma every_includes_spec (xs ys : list string) :
  forallb (includes ys) xs = true <-> (forall x, In x xs -> In x ys).
Proof.
  rewrite forallb_forall. split; intros H x Hx.
  - apply includes_spec, H, Hx.
  - apply includes_spec, H, Hx.
Qed.

Lemma guard_spec (a b : PlayObject) :
  (strictEq (source (meta a)) (source (meta b))
   && isDefined (sourceId (meta a)) && isDefined (sourceId (meta b))
   && negb (strictEq (sourceId (meta a)) (sourceId (meta b)))) = true
  <-> sourceIdsDiffer a b.
Proof.
  unfold sourceIdsDiffer.
  rewrite !andb_true_iff, negb_true_iff, strictEq_spec, strictEq_false,
    !isDefined_spec.
  tauto.
Qed.

(** What [playObjDataMatch] computes, test by test. *)
Lemma playObjDataMatch_unfold (a b : PlayObject) :
  Utils.playObjDataMatch a b =
  negb (strictEq (source (meta a)) (source (meta b))
        && isDefined (sourceId (meta a)) && isDefined (sourceId (meta b))
        && negb (strictEq (sourceId (meta a)) (sourceId (meta b))))
  && strictEq (track (data a)) (track (data b))
  && strictEq (album (data a)) (album (data b))
  && Nat.eqb (List.length (artistsOf a)) (List.length (artistsOf b))
  && (forallb (includes (artistsOf b)) (artistsOf a)
      || negb (forallb (includes (artistsOf a)) (artistsOf b))).
Proof.
  unfold Utils.playObjDataMatch, artistsOf.
  destruct (strictEq (source (meta a)) (source (meta b)));
  destruct (isDefined (sourceId (meta a)));
  destruct (isDefined (sourceId (meta b)));
  destruct (strictEq (sourceId (meta a)) (sourceId (meta b)));
  destruct (strictEq (track (data a)) (track (data b)));
  destruct (strictEq (album (data a)) (album (data b)));
  destruct (Nat.eqb _ _);
  destruct (forallb (includes _) _);
  destruct (forallb (includes _) _); reflexivity.
Qed.

(** C7, as the specification has it, fails: two plays of the same source
    with the same track id (and the same [sourceId]) but different titles
    are not the same play for [playObjDataMatch]. *)
Lemma same_ids_different_titles :
  ~ (forall a b,
       Utils.playObjDataMatch a b = true <->
       (source (meta a) = source (meta b) /\ trackId (meta a) = trackId (meta b))
       \/ (track (data a) = track (data b) /\ album (data a) = album (data b) /\
           forall x, In x (artistsOf a) <-> In x (artistsOf b))).
Proof.
  intros H.
  destruct (H (play "A" (Some "id1") None) (play "B" (Some "id1") None)) as [_ H2].
  assert (Hm : Utils.playObjDataMatch (play "A" (Some "id1") None)
                 (play "B" (Some "id1") None) = true).
  { apply H2. left. split; reflexivity. }
  vm_compute in Hm. discriminate.
Qed.

(** C7 (amended): [playObjDataMatch a b] fails when the two plays have the
    same source and both carry a [sourceId] and the ids differ, when their
    tracks differ, when their albums differ, or when their artist lists
    differ in length; when none of these holds and the two lists hold the
    same artists, it succeeds.  What it answers when none of the four
    holds and the artists differ is decided by the test of line 257, which
    does not do what the comment of line 256 announces; the statement says
    nothing about that case. *)
Theorem playObjDataMatch_by_design (a b : PlayObject) :
  (sourceIdsDiffer a b -> Utils.playObjDataMatch a b = false) /\
  (track (data a) <> track (data b) -> Utils.playObjDataMatch a b = false) /\
  (album (data a) <> album (data b) -> Utils.playObjDataMatch a b = false) /\
  (List.length (artistsOf a) <> List.length (artistsOf b) ->
     Utils.playObjDataMatch a b = false) /\
  (~ sourceIdsDiffer a b ->
   track (data a) = track (data b) ->
   album (data a) = album (data b) ->
   List.length (artistsOf a) = List.length (artistsOf b) ->
   (forall x, In x (artistsOf a) <-> In x (artistsOf b)) ->
   Utils.playObjDataMatch a b = true).
Proof.
  rewrite playObjDataMatch_unfold.
  repeat split.
  - intros H. apply guard_spec in H. rewrite H. reflexivity.
  - intros H. apply strictEq_false in H. rewrite H.
    rewrite andb_false_r. reflexivity.
  - intros H. apply strictEq_false in H. rewrite H.
    rewrite andb_false_r. reflexivity.
  - intros H. apply Nat.eqb_neq in H. rewrite H.
    rewrite andb_false_r. reflexivity.
  - intros Hg Ht Ha Hl He.
    apply strictEq_spec in Ht, Ha. apply Nat.eqb_eq in Hl.
    assert (Hab : forall x, In x (artistsOf a) -> In x (artistsOf b))
      by (intros x; apply He).
    apply every_includes_spec in Hab.
    rewrite Ht, Ha, Hl, Hab.
    destruct (_ && negb _) eqn:G; [|reflexivity].
    apply guard_spec in G. contradiction.
Qed.

(** The theorem at two plays that differ in nothing but the play date. *)
Lemma playObjDataMatch_by_design_example :
  Utils.playObjDataMatch (play "A" (Some "id1") None) (play "A" (Some "id1") (Some 5)) = true.
Proof.
  apply (playObjDataMatch_by_design (play "A" (Some "id1") None) (play "A" (Some "id1") (Some 5))).
  - unfold sourceIdsDiffer; simpl. intros [_ [_ [_ H]]]. apply H. reflexivity.
  - reflexivity.
  - reflexivity.
  - reflexivity.
  - intros x. split; intros Hx; exact Hx.
Defined.

(** ** The monad *)

Lemma bind_inr {T A B} (c : M T A) (k : A -> M T B) w w' y :
  bind c k w = (w', inr y) ->
  exists x w1, c w = (w1, inr x) /\ k x w1 = (w', inr y).
Proof.
  unfold bind. destruct (c w) as [w1 [e|x]]; intros H.
  - discriminate.
  - exists x, w1. split; [reflexivity | exact H].
Qed.

Lemma bind_ok {T A B} (c : M T A) (k : A -> M T B) w w1 x :
  c w = (w1, inr x) -> bind c k w = k x w1.
Proof. unfold bind. intros ->. reflexivity. Qed.

Lemma bind_err {T A B} (c : M T A) (k : A -> M T B) w w1 e :
  c w = (w1, inl e) -> bind c k w = (w1, inl e).
Proof. unfold bind. intros ->. reflexivity. Qed.

Lemma unix_lt_lt (a b : Dayjs) : unix a < unix b -> a < b.
Proof.
  unfold unix. intros H.
  destruct (Z_lt_le_dec a b) as [L|L]; [exact L|].
  pose proof (Z.div_le_mono b a 1000 ltac:(lia) L). lia.
Qed.

Lemma unix_le (a b : Dayjs) : a <= b -> unix a <= unix b.
Proof. unfold unix. intros H. apply Z.div_le_mono; lia. Qed.

(** ** The timestamp newness step (C3) *)

Section ReduceFacts.

Variable formatTime : Dayjs -> string.
Variable isValid : PlayObject -> bool.

Local Abbreviation reducer := (AbstractSource.reducer formatTime isValid).
Local Abbreviation reduce := (AbstractSource.reduce formatTime isValid).
Local Abbreviation cycle := (AbstractSource.cycle formatTime isValid).
Local Abbreviation pollLoop := (AbstractSource.pollLoop formatTime isValid).

(** One step of the [reduce] keeps the accumulated [lastTrackPlayedAt] or
    replaces it by the [playDate] of a valid play that is later, in
    seconds, than the loop's [lastTrackPlayedAt]. *)
Lemma reducer_last now last st p w w' st' :
  reducer now last st p w = (w', inr st') ->
  AbstractSource.lastTrackPlayedAt (fst st') = AbstractSource.lastTrackPlayedAt (fst st)
  \/ (isValid p = true /\
      playDate (data p) = Some (AbstractSource.lastTrackPlayedAt (fst st')) /\
      unix last < unix (AbstractSource.lastTrackPlayedAt (fst st'))).
Proof.
  destruct st as [acc fl]. unfold AbstractSource.reducer.
  destruct (isValid p) eqn:V.
  - destruct (playDate (data p)) as [d|] eqn:D.
    + destruct (unix last <? unix d) eqn:L.
      * intros H. apply bind_inr in H. destruct H as [s [w1 [_ H]]].
        apply bind_inr in H. destruct H as [u [w2 [_ H]]].
        unfold ret in H. inversion H; subst; simpl.
        right. apply Z.ltb_lt in L. auto.
      * unfold ret. intros H. inversion H; subst; simpl. left. reflexivity.
    + unfold throw. discriminate.
  - unfold ret. intros H. inversion H; subst. left. reflexivity.
Qed.

Lemma reduce_last now last ps : forall st w w' st',
  reduce now last ps st w = (w', inr st') ->
  AbstractSource.lastTrackPlayedAt (fst st') = AbstractSource.lastTrackPlayedAt (fst st)
  \/ (exists p, In p ps /\ isValid p = true /\
        playDate (data p) = Some (AbstractSource.lastTrackPlayedAt (fst st')) /\
        unix last < unix (AbstractSource.lastTrackPlayedAt (fst st'))).
Proof.
  induction ps as [|p ps IH]; intros st w w' st' H; simpl in H.
  - unfold ret in H. inversion H; subst. left. reflexivity.
  - apply bind_inr in H. destruct H as [st1 [w1 [H1 H2]]].
    apply IH in H2. apply reducer_last in H1.
    destruct H2 as [E|[q [Hq R]]].
    + rewrite E. destruct H1 as [E1|R1].
      * left. exact E1.
      * right. exists p. split; [left; reflexivity | exact R1].
    + right. exists q. split; [right; exact Hq | exact R].
Qed.

Lemma reducer_new now last acc fl p w d a :
  isValid p = true -> playDate (data p) = Some d -> artists (data p) = Some a ->
  (unix last <? unix d) = true ->
  reducer now last (acc, fl) p w =
  ({| this := this w;
      out := out w ++ [Log info ("New Track => " ++ trackString formatTime p)%string] |},
   inr ({| AbstractSource.plays :=
             AbstractSource.plays acc ++
             [ {| data := data p; meta := withNewFromSource true (meta p) |} ];
           AbstractSource.lastTrackPlayedAt := d |},
        {| AbstractSource.newTracksFound := true;
           AbstractSource.closeToInterval :=
             AbstractSource.closeToInterval fl || isClose now p |})).
Proof.
  intros V D A L.
  unfold AbstractSource.reducer, trackString, Utils.buildTrackString, isClose.
  rewrite V, D, A, L. run.
  destruct (AbstractSource.closeToInterval fl); reflexivity.
Qed.

Lemma reducer_old now last acc fl p w d :
  isValid p = true -> playDate (data p) = Some d ->
  (unix last <? unix d) = false ->
  reducer now last (acc, fl) p w =
  (w, inr ({| AbstractSource.plays := AbstractSource.plays acc ++ [p];
              AbstractSource.lastTrackPlayedAt :=
                AbstractSource.lastTrackPlayedAt acc |}, fl)).
Proof.
  intros V D L. unfold AbstractSource.reducer. rewrite V, D, L. reflexivity.
Qed.

Lemma reducer_skip now last st p w :
  isValid p = false -> reducer now last st p w = (w, inr st).
Proof.
  intros V. destruct st. unfold AbstractSource.reducer. rewrite V. reflexivity.
Qed.

(** On plays that cannot raise a [TypeError] the [reduce] returns, and
    this is what it returns. *)
Lemma reduce_returns now last ps : forall acc fl w,
  Forall (wellFormed isValid) ps ->
  reduce now last ps (acc, fl) w =
  ({| this := this w; out := out w ++ newTrackLogs formatTime isValid last ps |},
   inr ({| AbstractSource.plays :=
             AbstractSource.plays acc ++ map (pushed isValid last) (filter isValid ps);
           AbstractSource.lastTrackPlayedAt :=
             lastNew isValid last ps (AbstractSource.lastTrackPlayedAt acc) |},
        {| AbstractSource.newTracksFound :=
             AbstractSource.newTracksFound fl || existsb (isNew isValid last) ps;
           AbstractSource.closeToInterval :=
             AbstractSource.closeToInterval fl
             || existsb (fun p => isNew isValid last p && isClose now p) ps |})).
Proof.
  induction ps as [|p ps IH]; intros acc fl w HF.
  - unfold newTrackLogs. cbn [AbstractSource.reduce filter map existsb lastNew].
    unfold ret. rewrite !app_nil_r, !orb_false_r.
    destruct w, acc, fl; reflexivity.
  - inversion HF as [|? ? Hp HF']; subst.
    cbn [AbstractSource.reduce].
    unfold wellFormed in Hp.
    destruct (isValid p) eqn:V.
    + destruct (Hp eq_refl) as [Ha Hd].
      destruct (playDate (data p)) as [d|] eqn:D; [|congruence].
      destruct (artists (data p)) as [a|] eqn:A; [|congruence].
      destruct (unix last <? unix d) eqn:L.
      * assert (N : isNew isValid last p = true).
        { unfold isNew. rewrite V, D, L. reflexivity. }
        erewrite bind_ok by (eapply reducer_new; eassumption).
        rewrite IH by assumption.
        unfold newTrackLogs, pushed.
        cbn [filter map existsb lastNew out this
             AbstractSource.plays AbstractSource.lastTrackPlayedAt
             AbstractSource.newTracksFound AbstractSource.closeToInterval].
        rewrite V, N, D.
        cbn [filter map andb orb].
        rewrite ?N, ?orb_true_r, <- !app_assoc. cbn [app].
        rewrite orb_assoc. reflexivity.
      * assert (N : isNew isValid last p = false).
        { unfold isNew. rewrite V, D, L. reflexivity. }
        erewrite bind_ok by (eapply reducer_old; eassumption).
        rewrite IH by assumption.
        unfold newTrackLogs, pushed.
        cbn [filter map existsb lastNew out this
             AbstractSource.plays AbstractSource.lastTrackPlayedAt
             AbstractSource.newTracksFound AbstractSource.closeToInterval].
        rewrite V, N.
        cbn [filter map andb orb].
        rewrite ?N, <- !app_assoc. reflexivity.
    + assert (N : isNew isValid last p = false).
      { unfold isNew. rewrite V. reflexivity. }
      erewrite bind_ok by (eapply reducer_skip; eassumption).
      rewrite IH by assumption.
      unfold newTrackLogs.
      cbn [filter map existsb lastNew]. rewrite V, N.
      reflexivity.
Qed.

End ReduceFacts.

(** ** One polling cycle *)

Section CycleFacts.

Variable formatTime : Dayjs -> string.
Variable isValid : PlayObject -> bool.

Local Abbreviation cycle := (AbstractSource.cycle formatTime isValid).
Local Abbreviation pollLoop := (AbstractSource.pollLoop formatTime isValid).
Local Abbreviation startPolling := (AbstractSource.startPolling formatTime isValid).

Lemma buildTrackString_defined q :
  artists (data q) <> None -> playDate (data q) <> None ->
  Utils.buildTrackString formatTime q = inr (trackString formatTime q).
Proof.
  unfold trackString, Utils.buildTrackString. intros A D.
  destruct (artists (data q)); [|congruence].
  destruct (playDate (data q)); [|congruence]. reflexivity.
Qed.

Lemma pushed_wellFormed last ps q :
  Forall (wellFormed isValid) ps ->
  In q (map (pushed isValid last) (filter isValid ps)) ->
  artists (data q) <> None /\ playDate (data q) <> None.
Proof.
  intros HF Hq. apply in_map_iff in Hq. destruct Hq as [p [E Hp]].
  apply filter_In in Hp. destruct Hp as [Hp V].
  rewrite Forall_forall in HF. specialize (HF p Hp V).
  subst q. unfold pushed. destruct (isNew isValid last p); exact HF.
Qed.

(** A cycle whose fetch and dispatch settle normally, on plays that raise
    no [TypeError], returns; this is its effect and its result. *)
Lemma cycle_returns c ps res last cc w :
  AbstractSource.recentlyPlayed c = inr ps ->
  Forall (wellFormed isValid) ps ->
  AbstractSource.scrobbleResult c = inr res ->
  let now := AbstractSource.now c in
  let plays := map (pushed isValid last) (filter isValid ps) in
  let last' := lastNew isValid last ps last in
  let found := existsb (isNew isValid last) ps in
  let close := existsb (fun p => isNew isValid last p && isClose now p) ps in
  let n := Z.of_nat (List.length res) in
  let cc' := if 0 <? n then 0 else if found then 0 else cc + 1 in
  let secs := AbstractSource.sleepTimeOf (AbstractSource.config (this w)) cc' now last' in
  cycle c last cc w =
  ({| this :=
        (if AbstractSource.stopRequested c then AbstractSource.setPolling false
         else fun s => s)
          (if 0 <? n then AbstractSource.addTracksDiscovered n (this w) else this w);
      out := out w
             ++ beforeDispatch formatTime isValid now last ps
             ++ [ Scrobble plays
                    {| forceRefresh := close;
                       scrobbleFrom := AbstractSource.identifier (this w);
                       scrobbleTo := AbstractSource.clients (this w) |};
                  Log debug ("Sleeping for " ++ renderNumber secs ++ "s")%string;
                  Sleep (secs * 1000) ] |},
   inr (last', cc')).
Proof.
  intros Hrec HF Hscr now plays last' found close n cc' secs.
  unfold AbstractSource.cycle. rewrite Hrec, Hscr.
  erewrite bind_ok by reflexivity.
  erewrite bind_ok by reflexivity.
  cbv beta zeta.
  erewrite bind_ok by (apply reduce_returns; exact HF).
  cbn [orb AbstractSource.plays AbstractSource.lastTrackPlayedAt
       AbstractSource.newTracksFound AbstractSource.closeToInterval app].
  fold now plays last' found close.
  assert (Hnewest : forall newest rest, rev plays = newest :: rest ->
            Utils.buildTrackString formatTime newest
            = inr (trackString formatTime newest)).
  { intros newest rest R.
    assert (I : In newest plays).
    { apply in_rev. rewrite R. left. reflexivity. }
    destruct (@pushed_wellFormed last ps newest HF I) as [A D].
    apply buildTrackString_defined; assumption. }
  unfold beforeDispatch, noNewTracksLog. fold now plays found close.
  destruct (rev plays) as [|newest rest] eqn:R.
  - subst secs cc' n. unfold closeDelay.
    destruct close, found, (AbstractSource.stopRequested c);
      run; simpl; destruct (0 <? Z.of_nat (List.length res));
      simpl; rewrite <- ?app_assoc; reflexivity.
  - rewrite (Hnewest newest rest eq_refl).
    subst secs cc' n. unfold closeDelay.
    destruct close, found, (AbstractSource.stopRequested c);
      run; simpl; destruct (0 <? Z.of_nat (List.length res));
      simpl; rewrite <- ?app_assoc; reflexivity.
Qed.

Lemma cycle_fetch_throws c e last cc w :
  AbstractSource.recentlyPlayed c = inl e ->
  cycle c last cc w =
  ({| this := this w; out := out w ++ [Log debug "Refreshing recently played"] |},
   inl e).
Proof.
  intros Hrec. unfold AbstractSource.cycle. rewrite Hrec.
  erewrite bind_ok by reflexivity. reflexivity.
Qed.

Lemma cycle_dispatch_throws c ps e last cc w :
  AbstractSource.recentlyPlayed c = inr ps ->
  Forall (wellFormed isValid) ps ->
  AbstractSource.scrobbleResult c = inl e ->
  cycle c last cc w =
  ({| this := this w;
      out := out w
             ++ beforeDispatch formatTime isValid (AbstractSource.now c) last ps
             ++ [ Scrobble (map (pushed isValid last) (filter isValid ps))
                    {| forceRefresh :=
                         existsb (fun p => isNew isValid last p
                                           && isClose (AbstractSource.now c) p) ps;
                       scrobbleFrom := AbstractSource.identifier (this w);
                       scrobbleTo := AbstractSource.clients (this w) |} ] |},
   inl e).
Proof.
  intros Hrec HF Hscr.
  unfold AbstractSource.cycle. rewrite Hrec, Hscr.
  erewrite bind_ok by reflexivity.
  erewrite bind_ok by reflexivity.
  cbv beta zeta.
  erewrite bind_ok by (apply reduce_returns; exact HF).
  cbn [orb AbstractSource.plays AbstractSource.lastTrackPlayedAt
       AbstractSource.newTracksFound AbstractSource.closeToInterval app].
  unfold beforeDispatch, noNewTracksLog, closeDelay.
  set (plays := map (pushed isValid last) (filter isValid ps)).
  assert (Hnewest : forall newest rest, rev plays = newest :: rest ->
            Utils.buildTrackString formatTime newest
            = inr (trackString formatTime newest)).
  { intros newest rest R.
    assert (I : In newest plays).
    { apply in_rev. rewrite R. left. reflexivity. }
    destruct (@pushed_wellFormed last ps newest HF I) as [A D].
    apply buildTrackString_defined; assumption. }
  destruct (rev plays) as [|newest rest] eqn:R;
    [| rewrite (Hnewest newest rest eq_refl)];
    destruct (existsb (fun p => isNew isValid last p
                                && isClose (AbstractSource.now c) p) ps),
             (existsb (isNew isValid last) ps);
    run; simpl; rewrite <- ?app_assoc; reflexivity.
Qed.

Lemma cycle_last c last cc w w' last' cc' :
  cycle c last cc w = (w', inr (last', cc')) ->
  last' = last
  \/ (exists ps p, AbstractSource.recentlyPlayed c = inr ps /\ In p ps /\
        isValid p = true /\ playDate (data p) = Some last' /\
        unix last < unix last').
Proof.
  unfold AbstractSource.cycle. intros H.
  apply bind_inr in H. destruct H as [u [w1 [_ H]]].
  apply bind_inr in H. destruct H as [ps [w2 [Hf H]]].
  cbv beta zeta in H.
  apply bind_inr in H. destruct H as [[info fl] [w3 [Hr H]]].
  apply reduce_last in Hr. cbn [fst AbstractSource.lastTrackPlayedAt] in Hr.
  repeat (apply bind_inr in H; destruct H as [? [? [_ H]]]).
  unfold ret in H. inversion H; subst.
  destruct Hr as [E|[p [Hp [V [D L]]]]].
  - left. exact E.
  - right. exists ps, p.
    destruct (AbstractSource.recentlyPlayed c) as [e|ps'] eqn:R.
    + discriminate.
    + unfold await, ret in Hf. inversion Hf; subst. auto.
Qed.

Lemma pollLoop_last cs : forall last cc w w' last' cc',
  pollLoop cs last cc w = (w', inr (AbstractSource.Pending last' cc')) ->
  last <= last'.
Proof.
  induction cs as [|c cs IH]; intros last cc w w' last' cc' H;
    cbn [AbstractSource.pollLoop] in H;
    apply bind_inr in H; destruct H as [self [w1 [_ H]]];
    destruct (negb (AbstractSource.polling self)).
  - apply bind_inr in H. destruct H as [? [? [_ H]]]. discriminate.
  - unfold ret in H. inversion H; subst. lia.
  - apply bind_inr in H. destruct H as [? [? [_ H]]]. discriminate.
  - apply bind_inr in H. destruct H as [[l1 c1] [w2 [Hc H]]].
    cbn [fst snd] in H. apply IH in H.
    apply cycle_last in Hc.
    destruct Hc as [E|[ps [p [_ [_ [_ [_ L]]]]]]].
    + subst. exact H.
    + apply unix_lt_lt in L. lia.
Qed.

(** The events of a cycle up to and including the call of the clients. *)
Lemma cycle_dispatches c ps last cc w :
  AbstractSource.recentlyPlayed c = inr ps ->
  Forall (wellFormed isValid) ps ->
  exists after,
    out (fst (cycle c last cc w)) =
    out w
    ++ beforeDispatch formatTime isValid (AbstractSource.now c) last ps
    ++ Scrobble (map (pushed isValid last) (filter isValid ps))
         {| forceRefresh :=
              existsb (fun p => isNew isValid last p
                                && isClose (AbstractSource.now c) p) ps;
            scrobbleFrom := AbstractSource.identifier (this w);
            scrobbleTo := AbstractSource.clients (this w) |}
    :: after.
Proof.
  intros Hrec HF.
  destruct (AbstractSource.scrobbleResult c) as [e|res] eqn:Hscr.
  - exists []. rewrite (@cycle_dispatch_throws c ps e last cc w Hrec HF Hscr). reflexivity.
  - eexists. rewrite (@cycle_returns c ps res last cc w Hrec HF Hscr).
    cbn [fst out app]. reflexivity.
Qed.

Lemma close_implies_found now last ps :
  existsb (fun p => isNew isValid last p && isClose now p) ps = true ->
  existsb (isNew isValid last) ps = true.
Proof.
  intros H. apply existsb_exists in H. destruct H as [p [Hp H]].
  apply andb_true_iff in H. apply existsb_exists.
  exists p. split; [exact Hp | exact (proj1 H)].
Qed.

Lemma newTrackLogs_only_log last ps ev :
  In ev (newTrackLogs formatTime isValid last ps) -> exists l m, ev = Log l m.
Proof.
  unfold newTrackLogs. intros H. apply in_map_iff in H.
  destruct H as [p [E _]]. subst. eauto.
Qed.

Lemma noNewTracksLog_is_log plays :
  exists l m, noNewTracksLog formatTime plays = Log l m.
Proof. unfold noNewTracksLog. destruct (rev plays); eauto. Qed.

(** Before the dispatch a cycle only logs, apart from the delay. *)
Lemma beforeDispatch_events now last ps ev :
  In ev (beforeDispatch formatTime isValid now last ps) ->
  (exists l m, ev = Log l m) \/
  (ev = Sleep 10000 /\
   existsb (fun p => isNew isValid last p && isClose now p) ps = true).
Proof.
  unfold beforeDispatch. intros [H|H].
  - left. subst. eauto.
  - apply in_app_or in H. destruct H as [H|H].
    + left. eapply newTrackLogs_only_log. exact H.
    + apply in_app_or in H. destruct H as [H|H].
      * destruct (existsb (fun p => isNew isValid last p && isClose now p) ps).
        -- destruct H as [H|[H|[]]]; subst; [left; eauto | right; auto].
        -- destruct H.
      * destruct (existsb (isNew isValid last) ps); [destruct H|].
        destruct H as [H|[]]. subst. left. apply noNewTracksLog_is_log.
Qed.

(** The loop over more iterations continues where the loop over fewer
    was left pending, and it was left pending with [polling] set. *)
Lemma pollLoop_app pre rest : forall last cc w w1 last1 cc1,
  pollLoop pre last cc w = (w1, inr (AbstractSource.Pending last1 cc1)) ->
  pollLoop (pre ++ rest) last cc w = pollLoop rest last1 cc1 w1
  /\ AbstractSource.polling (this w1) = true.
Proof.
  induction pre as [|c pre IH]; intros last cc w w1 last1 cc1 H.
  - cbn [AbstractSource.pollLoop] in H. run.
    destruct (AbstractSource.polling (this w)) eqn:P; cbn [negb] in H.
    + inversion H; subst. split; [reflexivity | exact P].
    + discriminate.
  - cbn [app AbstractSource.pollLoop] in *.
    apply bind_inr in H. destruct H as [self [w0 [Hs H]]].
    erewrite bind_ok by exact Hs.
    destruct (negb (AbstractSource.polling self)).
    + apply bind_inr in H. destruct H as [? [? [_ H]]]. discriminate.
    + apply bind_inr in H. destruct H as [r [w2 [Hc H]]].
      erewrite bind_ok by exact Hc. apply IH. exact H.
Qed.

(** Empty cycles leave [lastTrackPlayedAt] alone and count up. *)
Lemma pollLoop_quiet cs : forall last cc w,
  AbstractSource.polling (this w) = true ->
  Forall emptyCycle cs ->
  exists evs,
    pollLoop cs last cc w =
    ({| this := this w; out := out w ++ evs |},
     inr (AbstractSource.Pending last (cc + Z.of_nat (List.length cs)))).
Proof.
  induction cs as [|c cs IH]; intros last cc w P HF.
  - exists []. cbn [AbstractSource.pollLoop]. run. rewrite P. cbn [negb].
    rewrite app_nil_r, Z.add_0_r. destruct w; reflexivity.
  - inversion HF as [|? ? [Hrec [Hscr Hstop]] HF']; subst.
    cbn [AbstractSource.pollLoop].
    erewrite bind_ok by reflexivity. rewrite P. cbn [negb].
    erewrite bind_ok by (apply (@cycle_returns c [] [] last cc w Hrec (Forall_nil _) Hscr)).
    cbn [fst snd existsb List.length Z.of_nat Z.ltb Z.compare lastNew].
    rewrite Hstop.
    edestruct (IH last (cc + 1)) as [evs E]; [|exact HF'|].
    2:{ rewrite E. cbn [this out]. eexists.
        rewrite <- app_assoc.
        replace (cc + 1 + Z.of_nat (List.length cs))
          with (cc + Z.of_nat (List.length (c :: cs)))
          by (cbn [List.length]; lia).
        reflexivity. }
    cbn [this]. exact P.
Qed.

End CycleFacts.

(** C3: whenever the timestamp newness step of a cycle completes, the
    [lastTrackPlayedAt] it leaves is the one it started from or the
    [playDate] of a valid fetched play that is strictly later; so it is never
    smaller than before the step.  The step does complete on plays that
    carry what the loop reads.  And over any number of cycles of one
    session the loop's [lastTrackPlayedAt] never falls below its earlier
    value. *)
Theorem lastTrackPlayedAt_never_regresses
    (formatTime : Dayjs -> string) (isValid : PlayObject -> bool) :
  (forall now last ps w w' info fl,
     AbstractSource.reduce formatTime isValid now last ps
       ({| AbstractSource.plays := []; AbstractSource.lastTrackPlayedAt := last |},
        {| AbstractSource.newTracksFound := false;
           AbstractSource.closeToInterval := false |}) w
     = (w', inr (info, fl)) ->
     last <= AbstractSource.lastTrackPlayedAt info /\
     (AbstractSource.lastTrackPlayedAt info = last \/
      exists p, In p ps /\ isValid p = true /\
        playDate (data p) = Some (AbstractSource.lastTrackPlayedAt info) /\
        last < AbstractSource.lastTrackPlayedAt info)) /\
  (forall now last ps w,
     Forall (wellFormed isValid) ps ->
     exists w' info fl,
       AbstractSource.reduce formatTime isValid now last ps
         ({| AbstractSource.plays := []; AbstractSource.lastTrackPlayedAt := last |},
          {| AbstractSource.newTracksFound := false;
             AbstractSource.closeToInterval := false |}) w
       = (w', inr (info, fl))) /\
  (forall cs last cc w w' last' cc',
     AbstractSource.pollLoop formatTime isValid cs last cc w
     = (w', inr (AbstractSource.Pending last' cc')) ->
     last <= last').
Proof.
  split; [|split].
  - intros now last ps w w' info fl H.
    apply reduce_last in H. cbn [fst AbstractSource.lastTrackPlayedAt] in H.
    destruct H as [E|[p [Hp [V [D L]]]]].
    + split; [lia | left; exact E].
    + apply unix_lt_lt in L. split; [lia|].
      right. exists p. auto.
  - intros now last ps w HF.
    rewrite reduce_returns by exact HF. eauto.
  - intros cs last cc w w' last' cc' H.
    eapply pollLoop_last. exact H.
Qed.

(** The theorem on a fetch of two plays, the second of them new: the
    step leaves [lastTrackPlayedAt] at that play's date. *)
Lemma lastTrackPlayedAt_never_regresses_example :
  exists w' info fl,
    AbstractSource.reduce sampleFormat AbstractSource.recentlyPlayedTrackIsValid
      70000 10000
      [play "A" (Some "a") (Some 5000); play "B" (Some "b") (Some 61000)]
      ({| AbstractSource.plays := []; AbstractSource.lastTrackPlayedAt := 10000 |},
       {| AbstractSource.newTracksFound := false;
          AbstractSource.closeToInterval := false |})
      {| this := sampleSource; out := [] |}
    = (w', inr (info, fl)) /\
    AbstractSource.lastTrackPlayedAt info = 61000 /\
    10000 <= AbstractSource.lastTrackPlayedAt info.
Proof.
  do 3 eexists. split; [reflexivity|]. split; [reflexivity|].
  exact (proj1 (proj1 (lastTrackPlayedAt_never_regresses sampleFormat
                         AbstractSource.recentlyPlayedTrackIsValid)
                  70000 10000
                  [play "A" (Some "a") (Some 5000); play "B" (Some "b") (Some 61000)]
                  {| this := sampleSource; out := [] |} _ _ _ eq_refl)).
Defined.

(** ** Close-to-interval delay (C5) *)

(** C5: in every cycle whose fetch returns plays the loop can read, the
    scrobble clients are called with [forceRefresh] equal to "some play
    newly flagged in this cycle is less than 5 seconds from now"; when that
    holds the call comes directly after the 10-second sleep, and when it
    does not the cycle has not slept before the call.  Nothing is
    dispatched before that call. *)
Theorem close_to_interval_delays_dispatch
    (formatTime : Dayjs -> string) (isValid : PlayObject -> bool)
    (c : AbstractSource.Cycle) (ps : list PlayObject)
    (last : Dayjs) (cc : Z) (w : World AbstractSource.t) :
  AbstractSource.recentlyPlayed c = inr ps ->
  Forall (wellFormed isValid) ps ->
  let close :=
    existsb (fun p => isNew isValid last p && isClose (AbstractSource.now c) p) ps in
  exists before plays after,
    out (fst (AbstractSource.cycle formatTime isValid c last cc w)) =
    out w ++ before
    ++ Scrobble plays
         {| forceRefresh := close;
            scrobbleFrom := AbstractSource.identifier (this w);
            scrobbleTo := AbstractSource.clients (this w) |}
    :: after
    /\ (forall pl o, ~ In (Scrobble pl o) before)
    /\ (close = true ->
        exists evs,
          before = evs ++
            [ Log info "Track is close to polling interval! Delaying scrobble clients refresh by 10 seconds so other clients have time to scrobble first";
              Sleep (10 * 1000) ])
    /\ (close = false -> forall ms, ~ In (Sleep ms) before)
    /\ plays = map (pushed isValid last) (filter isValid ps).
Proof.
  intros Hrec HF close.
  destruct (@cycle_dispatches formatTime isValid c ps last cc w Hrec HF) as [after E].
  exists (beforeDispatch formatTime isValid (AbstractSource.now c) last ps).
  eexists. exists after. split; [exact E|].
  split; [|split; [|split; [|reflexivity]]].
  - intros pl o H. apply beforeDispatch_events in H.
    destruct H as [[l [m H]]|[H _]]; discriminate.
  - intros Hc. unfold beforeDispatch. fold close. rewrite Hc.
    rewrite (@close_implies_found isValid (AbstractSource.now c) last ps Hc).
    exists (Log debug "Refreshing recently played"
            :: newTrackLogs formatTime isValid last ps).
    rewrite app_nil_r. reflexivity.
  - intros Hc ms H. apply beforeDispatch_events in H. fold close in H.
    destruct H as [[l [m H]]|[_ H]]; congruence.
Qed.

(** The theorem on the scenario of the specification: now is [T], the
    fetch returns one play at [T - 2] seconds. *)
Lemma close_to_interval_example :
  exists before plays after,
    out (fst (AbstractSource.cycle sampleFormat
                AbstractSource.recentlyPlayedTrackIsValid
                {| AbstractSource.recentlyPlayed :=
                     inr [play "A" (Some "a") (Some 98000)];
                   AbstractSource.now := 100000;
                   AbstractSource.scrobbleResult := inr [];
                   AbstractSource.stopRequested := false |}
                40000 0 {| this := sampleSource; out := [] |})) =
    before
    ++ Scrobble plays
         {| forceRefresh := true; scrobbleFrom := "Lastfm - test";
            scrobbleTo := ["maloja"] |}
    :: after.
Proof.
  destruct (@close_to_interval_delays_dispatch sampleFormat
             AbstractSource.recentlyPlayedTrackIsValid
             {| AbstractSource.recentlyPlayed :=
                  inr [play "A" (Some "a") (Some 98000)];
                AbstractSource.now := 100000;
                AbstractSource.scrobbleResult := inr [];
                AbstractSource.stopRequested := false |}
             [play "A" (Some "a") (Some 98000)]
             40000 0 {| this := sampleSource; out := [] |} eq_refl)
    as [before [plays [after [E _]]]].
  - constructor; [|constructor]. intros _. split; discriminate.
  - exists before, plays, after. exact E.
Defined.

(** ** Adaptive sleep (C4) *)

Lemma sleepTimeOf_spec cfg checkCount now last :
  AbstractSource.sleepTimeOf cfg checkCount now last =
  let interval :=
    match AbstractSource.interval cfg with Some i => i | None => 30 end in
  if (5 <? checkCount) && (interval <? 600)
     && (Z.min (interval * 10) 600 <=? Z.abs (unix now - unix last))
  then Z.min (interval * 5) 300
  else interval.
Proof.
  unfold AbstractSource.sleepTimeOf. cbv zeta.
  destruct (5 <? checkCount), (_ <? 600), (_ <=? _); reflexivity.
Qed.

Lemma seventh_cycle formatTime isValid startedAt cs c7 w :
  AbstractSource.polling (this w) = false ->
  match AbstractSource.interval (AbstractSource.config (this w)) with
  | Some i => i
  | None => 30
  end = 30 ->
  List.length cs = 6%nat ->
  Forall emptyCycle cs ->
  emptyCycle c7 ->
  3600 <= unix (AbstractSource.now c7) - unix startedAt ->
  exists w' evs,
    AbstractSource.startPolling formatTime isValid startedAt (cs ++ [c7]) w
    = (w', inr (AbstractSource.Pending startedAt 7)) /\
    out w' = evs ++ [ Log debug "Sleeping for 150s"; Sleep 150000 ].
Proof.
  intros P Hint Hlen Hq [Hrec [Hscr Hstop]] Hago.
  set (w0 := {| this := AbstractSource.setPolling true (this w);
                out := out w ++ [Log info "Polling started"] |}).
  destruct (@pollLoop_quiet formatTime isValid cs startedAt 0 w0 eq_refl Hq)
    as [evs E].
  destruct (@pollLoop_app formatTime isValid cs [c7] startedAt 0 w0 _ _ _ E)
    as [A _].
  rewrite Hlen in A. change (0 + Z.of_nat 6) with 6 in A.
  set (w1 := {| this := this w0; out := out w0 ++ evs |}) in *.
  assert (S7 : AbstractSource.sleepTimeOf (AbstractSource.config (this w1)) 7
                 (AbstractSource.now c7) startedAt = 150).
  { rewrite sleepTimeOf_spec. cbv zeta.
    change (AbstractSource.config (this w1)) with (AbstractSource.config (this w)).
    rewrite Hint.
    replace (Z.min (30 * 10) 600
             <=? Z.abs (unix (AbstractSource.now c7) - unix startedAt))
      with true by (symmetry; apply Z.leb_le; lia).
    reflexivity. }
  pose proof (@cycle_returns formatTime isValid c7 [] [] startedAt 6 w1
                Hrec (Forall_nil _) Hscr) as C.
  cbv zeta in C.
  cbn [existsb lastNew List.length Z.of_nat Z.ltb Z.compare filter map] in C.
  change (6 + 1) with 7 in C. rewrite S7, Hstop in C.
  exists {| this := this w1;
            out := out w1
                   ++ beforeDispatch formatTime isValid (AbstractSource.now c7)
                        startedAt []
                   ++ [ Scrobble []
                          {| forceRefresh := false;
                             scrobbleFrom := AbstractSource.identifier (this w1);
                             scrobbleTo := AbstractSource.clients (this w1) |};
                        Log debug "Sleeping for 150s"; Sleep 150000 ] |}.
  exists (out w1
          ++ beforeDispatch formatTime isValid (AbstractSource.now c7) startedAt []
          ++ [ Scrobble []
                 {| forceRefresh := false;
                    scrobbleFrom := AbstractSource.identifier (this w1);
                    scrobbleTo := AbstractSource.clients (this w1) |} ]).
  split.
  - unfold AbstractSource.startPolling.
    erewrite bind_ok by reflexivity. rewrite P.
    erewrite bind_ok by reflexivity.
    unfold tryCatch.
    erewrite bind_ok by reflexivity.
    change {| this := AbstractSource.setPolling true
                        (this {| this := this w;
                                 out := out w ++ [Log info "Polling started"] |});
              out := out {| this := this w;
                            out := out w ++ [Log info "Polling started"] |} |}
      with w0.
    rewrite A.
    cbn [AbstractSource.pollLoop].
    erewrite bind_ok by reflexivity.
    change (AbstractSource.polling (this w1)) with true. cbn [negb].
    erewrite bind_ok by exact C.
    cbn [fst snd].
    erewrite bind_ok by reflexivity.
    reflexivity.
  - cbn [out]. rewrite <- !app_assoc. reflexivity.
Qed.

(** C4: a cycle that completes ends by sleeping [config.interval] seconds
    (30 when the configuration has none), except that when its
    [checkCount] exceeds 5, the interval is below 600 and
    [|now - lastTrackPlayedAt|] is at least [min(interval * 10, 600)]
    seconds it sleeps [min(interval * 5, 300)] seconds.  In particular,
    with an interval of 30, after six empty cycles and with
    [lastTrackPlayedAt] an hour or more in the past, the seventh cycle
    sleeps 150 seconds. *)
Theorem adaptive_sleep (formatTime : Dayjs -> string) (isValid : PlayObject -> bool) :
  (forall c ps res last cc w,
     AbstractSource.recentlyPlayed c = inr ps ->
     Forall (wellFormed isValid) ps ->
     AbstractSource.scrobbleResult c = inr res ->
     exists w' last' checkCount evs,
       AbstractSource.cycle formatTime isValid c last cc w
       = (w', inr (last', checkCount)) /\
       let interval :=
         match AbstractSource.interval (AbstractSource.config (this w)) with
         | Some i => i
         | None => 30
         end in
       let sleepTime :=
         if (5 <? checkCount) && (interval <? 600)
            && (Z.min (interval * 10) 600
                <=? Z.abs (unix (AbstractSource.now c) - unix last'))
         then Z.min (interval * 5) 300
         else interval in
       out w' = out w ++ evs
                ++ [ Log debug ("Sleeping for " ++ renderNumber sleepTime ++ "s")%string;
                     Sleep (sleepTime * 1000) ]) /\
  (forall startedAt cs c7 w,
     AbstractSource.polling (this w) = false ->
     match AbstractSource.interval (AbstractSource.config (this w)) with
     | Some i => i
     | None => 30
     end = 30 ->
     List.length cs = 6%nat ->
     Forall emptyCycle cs ->
     emptyCycle c7 ->
     3600 <= unix (AbstractSource.now c7) - unix startedAt ->
     exists w' evs,
       AbstractSource.startPolling formatTime isValid startedAt (cs ++ [c7]) w
       = (w', inr (AbstractSource.Pending startedAt 7)) /\
       out w' = evs ++ [ Log debug "Sleeping for 150s"; Sleep 150000 ]).
Proof.
  split.
  - intros c ps res last cc w Hrec HF Hscr.
    rewrite (@cycle_returns formatTime isValid c ps res last cc w Hrec HF Hscr).
    eexists. eexists. eexists.
    exists (beforeDispatch formatTime isValid (AbstractSource.now c) last ps
            ++ [ Scrobble (map (pushed isValid last) (filter isValid ps))
                   {| forceRefresh :=
                        existsb (fun p => isNew isValid last p
                                          && isClose (AbstractSource.now c) p) ps;
                      scrobbleFrom := AbstractSource.identifier (this w);
                      scrobbleTo := AbstractSource.clients (this w) |} ]).
    split; [reflexivity|].
    cbn [out]. rewrite <- sleepTimeOf_spec.
    rewrite <- !app_assoc. reflexivity.
  - intros t0 cs c7 w P Hint Hlen Hq E7 Hago.
    apply seventh_cycle; assumption.
Qed.

(** The scenario of the specification: polling starts at 0, six empty
    cycles follow, and the seventh runs an hour after the start. *)
Lemma adaptive_sleep_example :
  exists w' evs,
    AbstractSource.startPolling sampleFormat AbstractSource.recentlyPlayedTrackIsValid 0
      ([quietCycle 30000; quietCycle 60000; quietCycle 90000;
        quietCycle 120000; quietCycle 150000; quietCycle 180000]
       ++ [quietCycle 3600000])
      {| this := sampleSource; out := [] |}
    = (w', inr (AbstractSource.Pending 0 7)) /\
    out w' = evs ++ [ Log debug "Sleeping for 150s"; Sleep 150000 ].
Proof.
  apply (proj2 (adaptive_sleep sampleFormat AbstractSource.recentlyPlayedTrackIsValid)).
  - reflexivity.
  - reflexivity.
  - reflexivity.
  - repeat constructor.
  - repeat constructor.
  - vm_compute. discriminate.
Defined.

(** ** Errors in a cycle (C8) *)

Section ErrorFacts.

Variable formatTime : Dayjs -> string.
Variable isValid : PlayObject -> bool.

Local Abbreviation pollLoop := (AbstractSource.pollLoop formatTime isValid).
Local Abbreviation startPolling := (AbstractSource.startPolling formatTime isValid).

Lemma startPolling_busy startedAt cs w :
  AbstractSource.polling (this w) = true ->
  startPolling startedAt cs w = (w, inr AbstractSource.Done).
Proof.
  intros P. unfold AbstractSource.startPolling.
  erewrite bind_ok by reflexivity. rewrite P. reflexivity.
Qed.

(** [startPolling] on an idle source: the loop runs inside the [try]. *)
Lemma startPolling_idle startedAt cs w :
  AbstractSource.polling (this w) = false ->
  startPolling startedAt cs w =
  match pollLoop cs startedAt 0
          {| this := AbstractSource.setPolling true (this w);
             out := out w ++ [Log info "Polling started"] |} with
  | (w', inr r) => (w', inr r)
  | (w', inl e) =>
      ({| this := AbstractSource.setPolling false (this w');
          out := (out w' ++ [Log error "Error occurred while polling"])
                 ++ [LogError e] |},
       inr AbstractSource.Done)
  end.
Proof.
  intros P. unfold AbstractSource.startPolling.
  erewrite bind_ok by reflexivity. rewrite P.
  erewrite bind_ok by reflexivity.
  unfold tryCatch.
  erewrite bind_ok by reflexivity.
  cbn [this out].
  destruct (pollLoop cs startedAt 0 _) as [w' [e|r]]; reflexivity.
Qed.

End ErrorFacts.

(** C8: [startPolling] never throws.  When a cycle the loop reaches has its
    fetch throw, or its dispatch throw after a fetch of plays the loop can
    read, the loop ends there: [startPolling] returns normally, the polling
    flag is cleared, and the last two things logged are the error notice
    and the error itself. *)
Theorem polling_errors_are_contained
    (formatTime : Dayjs -> string) (isValid : PlayObject -> bool)
    (startedAt : Dayjs) :
  (forall cs w, exists w' r,
     AbstractSource.startPolling formatTime isValid startedAt cs w = (w', inr r)) /\
  (forall pre c post w w1 last cc e,
     AbstractSource.startPolling formatTime isValid startedAt pre w
     = (w1, inr (AbstractSource.Pending last cc)) ->
     (AbstractSource.recentlyPlayed c = inl e \/
      exists ps, AbstractSource.recentlyPlayed c = inr ps /\
                 Forall (wellFormed isValid) ps /\
                 AbstractSource.scrobbleResult c = inl e) ->
     exists w2 evs,
       AbstractSource.startPolling formatTime isValid startedAt (pre ++ c :: post) w
       = (w2, inr AbstractSource.Done) /\
       AbstractSource.polling (this w2) = false /\
       out w2 = out w1 ++ evs
                ++ [Log error "Error occurred while polling"; LogError e]).
Proof.
  split.
  - intros cs w.
    destruct (AbstractSource.polling (this w)) eqn:P.
    + rewrite startPolling_busy by exact P. eauto.
    + rewrite startPolling_idle by exact P.
      destruct (AbstractSource.pollLoop _ _ _ _ _ _) as [w' [e|r]]; eauto.
  - intros pre c post w w1 last cc e H Hthrow.
    destruct (AbstractSource.polling (this w)) eqn:P.
    { rewrite startPolling_busy in H by exact P. discriminate. }
    rewrite startPolling_idle in H by exact P.
    rewrite startPolling_idle by exact P.
    destruct (AbstractSource.pollLoop formatTime isValid pre startedAt 0 _)
      as [w' [e'|r]] eqn:E; [discriminate|].
    inversion H; subst.
    destruct (@pollLoop_app formatTime isValid pre (c :: post) _ _ _ _ _ _ E)
      as [A P1].
    rewrite A. cbn [AbstractSource.pollLoop].
    erewrite bind_ok by reflexivity. rewrite P1. cbn [negb].
    destruct Hthrow as [Hrec|[ps [Hrec [HF Hscr]]]].
    + erewrite bind_err
        by (apply (@cycle_fetch_throws formatTime isValid c e last cc w1 Hrec)).
      eexists.
      exists [Log debug "Refreshing recently played"].
      split; [reflexivity|]. split; [reflexivity|].
      cbn [out]. rewrite <- !app_assoc. reflexivity.
    + erewrite bind_err
        by (apply (@cycle_dispatch_throws formatTime isValid c ps e last cc w1
                     Hrec HF Hscr)).
      eexists.
      exists (beforeDispatch formatTime isValid (AbstractSource.now c) last ps
              ++ [ Scrobble (map (pushed isValid last) (filter isValid ps))
                     {| forceRefresh :=
                          existsb (fun p => isNew isValid last p
                                            && isClose (AbstractSource.now c) p) ps;
                        scrobbleFrom := AbstractSource.identifier (this w1);
                        scrobbleTo := AbstractSource.clients (this w1) |} ]).
      split; [reflexivity|]. split; [reflexivity|].
      cbn [out]. rewrite <- !app_assoc. reflexivity.
Qed.

(** The theorem on a run whose second cycle's fetch fails. *)
Lemma polling_errors_are_contained_example :
  exists w2 evs,
    AbstractSource.startPolling sampleFormat AbstractSource.recentlyPlayedTrackIsValid 0
      ([quietCycle 30000]
       ++ {| AbstractSource.recentlyPlayed := inl (Thrown "ECONNRESET");
             AbstractSource.now := 60000;
             AbstractSource.scrobbleResult := inr [];
             AbstractSource.stopRequested := false |} :: [quietCycle 90000])
      {| this := sampleSource; out := [] |}
    = (w2, inr AbstractSource.Done) /\
    AbstractSource.polling (this w2) = false /\
    out w2 =
      out (fst (AbstractSource.startPolling sampleFormat
                  AbstractSource.recentlyPlayedTrackIsValid 0 [quietCycle 30000]
                  {| this := sampleSource; out := [] |}))
      ++ evs
      ++ [Log error "Error occurred while polling"; LogError (Thrown "ECONNRESET")].
Proof.
  apply (proj2 (polling_errors_are_contained sampleFormat
                  AbstractSource.recentlyPlayedTrackIsValid 0)
           [quietCycle 30000] _ [quietCycle 90000]
           {| this := sampleSource; out := [] |} _ 0 1 (Thrown "ECONNRESET")).
  - reflexivity.
  - left. reflexivity.
Defined.

(** ** The recent-window reconciler (C1, C2, C10) *)

Lemma formatPlayObj_without_clock now now' x :
  YTMusicSource.formatPlayObj now x
    {| YTMusicSource.opt_newFromSource := Some false;
       YTMusicSource.opt_shelf := None |}
  = YTMusicSource.formatPlayObj now' x
      {| YTMusicSource.opt_newFromSource := Some false;
         YTMusicSource.opt_shelf := None |}.
Proof. reflexivity. Qed.

Lemma window_without_clock now now' items : window now items = window now' items.
Proof. reflexivity. Qed.

(** What [getRecentlyPlayed] does while polling, branch by branch. *)
Lemma getRecentlyPlayed_polling (U : PlayComparisonUtils) items now
    (w : World YTMusicSource.t) :
  YTMusicSource.polling (this w) = true ->
  let prev := YTMusicSource.recentlyPlayed (this w) in
  let cur := window now items in
  let bump := playsAreBumpedOnly U prev cur in
  let add := playsAreAddedOnly U prev cur in
  let newPlays :=
    if fst bump then snd bump else if fst add then rev (snd add) else [] in
  YTMusicSource.getRecentlyPlayed U (inr items) now w =
  if playsAreSortConsistent U prev cur then (w, inr [])
  else
    ({| this := YTMusicSource.setRecentlyPlayed cur (this w);
        out := out w ++
          (if negb (fst bump) && negb (fst add) then
             [ Log warn "YTM History returned temporally inconsistent order, resetting watched history to new list.";
               Log warn (diffMessage U prev cur) ]
           else if (0 <? Z.of_nat (List.length newPlays))
                   && truthy (YTMusicSource.logDiff (this w))
                then [ Log debug (diffMessage U prev cur) ]
                else []) |},
     inr (mapIndexed (YTMusicSource.stamp now) newPlays)).
Proof.
  intros P prev cur bump add newPlays.
  unfold YTMusicSource.getRecentlyPlayed.
  erewrite bind_ok by reflexivity.
  erewrite bind_ok by reflexivity.
  rewrite P. cbn [negb].
  fold (window now items). fold cur prev.
  destruct (playsAreSortConsistent U prev cur); [reflexivity|].
  fold bump add. subst newPlays. unfold diffMessage.
  destruct (fst bump).
  - cbn [negb andb isDefined orb].
    destruct ((0 <? Z.of_nat (List.length (snd bump)))
              && truthy (YTMusicSource.logDiff (this w))).
    + run. cbn [this out]. rewrite <- ?app_assoc. reflexivity.
    + run. cbn [this out]. rewrite ?app_nil_r. reflexivity.
  - destruct (fst add).
    + cbn [negb andb isDefined orb].
      destruct ((0 <? Z.of_nat (List.length (rev (snd add))))
                && truthy (YTMusicSource.logDiff (this w))).
      * run. cbn [this out]. rewrite <- ?app_assoc. reflexivity.
      * run. cbn [this out]. rewrite ?app_nil_r. reflexivity.
    + cbn [negb andb isDefined orb].
      run. cbn [this out]. rewrite <- ?app_assoc. reflexivity.
Qed.


Lemma mapFrom_nth {A B} (f : A -> Z -> B) l : forall i k,
  nth_error (mapFrom i f l) k =
  option_map (fun x => f x (i + Z.of_nat k)) (nth_error l k).
Proof.
  induction l as [|x l IH]; intros i k.
  - destruct k; reflexivity.
  - destruct k as [|k].
    + simpl. rewrite Z.add_0_r. reflexivity.
    + cbn [mapFrom nth_error]. rewrite IH.
      replace (i + 1 + Z.of_nat k) with (i + Z.of_nat (S k)) by lia.
      reflexivity.
Qed.

(** The play emitted at position [k] is the [k]-th new play, stamped with
    the start of the current minute plus [k + 1] seconds. *)
Lemma stamped_nth now l k p :
  nth_error (mapIndexed (YTMusicSource.stamp now) l) k = Some p ->
  exists x, nth_error l k = Some x /\
    p = {| data := withPlayDate (startOfMinute now + (Z.of_nat k + 1) * 1000) (data x);
           meta := withNewFromSource true (meta x) |}.
Proof.
  unfold mapIndexed. rewrite mapFrom_nth.
  destruct (nth_error l k) as [x|]; [|discriminate].
  cbn [option_map]. intros H. inversion H; subst.
  exists x. split; [reflexivity|].
  unfold YTMusicSource.stamp, addSeconds. reflexivity.
Qed.

(** C1: while polling, the reconciler tries the three comparisons in the
    order sort-consistent, bumped-only, added-only.  A sort-consistent
    window yields no new plays (and nothing else happens); otherwise a
    bumped-only window yields the bumped plays, otherwise an added-only
    window yields the added plays in reverse; and when none of the three
    applies it yields no new plays, logs a warning followed by the
    human-readable diff as a second warning, and stores the current window
    as the previous one. *)
Theorem reconciler_priority (U : PlayComparisonUtils)
    (items : list YTNodes.MusicResponsiveListItem) (now : Dayjs)
    (w : World YTMusicSource.t) :
  YTMusicSource.polling (this w) = true ->
  let prev := YTMusicSource.recentlyPlayed (this w) in
  let cur := window now items in
  let result := YTMusicSource.getRecentlyPlayed U (inr items) now w in
  (playsAreSortConsistent U prev cur = true -> result = (w, inr [])) /\
  (playsAreSortConsistent U prev cur = false ->
   fst (playsAreBumpedOnly U prev cur) = true ->
   snd result
   = inr (mapIndexed (YTMusicSource.stamp now) (snd (playsAreBumpedOnly U prev cur)))) /\
  (playsAreSortConsistent U prev cur = false ->
   fst (playsAreBumpedOnly U prev cur) = false ->
   fst (playsAreAddedOnly U prev cur) = true ->
   snd result
   = inr (mapIndexed (YTMusicSource.stamp now)
            (rev (snd (playsAreAddedOnly U prev cur))))) /\
  (playsAreSortConsistent U prev cur = false ->
   fst (playsAreBumpedOnly U prev cur) = false ->
   fst (playsAreAddedOnly U prev cur) = false ->
   result =
   ({| this := YTMusicSource.setRecentlyPlayed cur (this w);
       out := out w ++
         [ Log warn "YTM History returned temporally inconsistent order, resetting watched history to new list.";
           Log warn (diffMessage U prev cur) ] |},
    inr [])).
Proof.
  intros P prev cur result. subst result.
  rewrite (getRecentlyPlayed_polling U items now w P). cbv zeta.
  fold prev cur.
  repeat split.
  - intros S. rewrite S. reflexivity.
  - intros S B. rewrite S, B. reflexivity.
  - intros S B A. rewrite S, B, A. reflexivity.
  - intros S B A. rewrite S, B, A. reflexivity.
Qed.

(** The theorem on scenario 6 of the specification: the stored window is
    A, B, C and the history now lists C, A, B. *)
Lemma reconciler_priority_example :
  YTMusicSource.getRecentlyPlayed SampleComparison.utils
    (inr [item "C" "c"; item "A" "a"; item "B" "b"]) 1234567
    {| this := {| YTMusicSource.polling := true;
                  YTMusicSource.recentlyPlayed :=
                    window 0 [item "A" "a"; item "B" "b"; item "C" "c"];
                  YTMusicSource.logDiff := None |};
       out := [] |}
  = ({| this := {| YTMusicSource.polling := true;
                   YTMusicSource.recentlyPlayed :=
                     window 0 [item "C" "c"; item "A" "a"; item "B" "b"];
                   YTMusicSource.logDiff := None |};
        out := [ Log warn "YTM History returned temporally inconsistent order, resetting watched history to new list.";
                 Log warn (diffMessage SampleComparison.utils
                             (window 0 [item "A" "a"; item "B" "b"; item "C" "c"])
                             (window 0 [item "C" "c"; item "A" "a"; item "B" "b"])) ] |},
      inr []).
Proof.
  apply (proj2 (proj2 (proj2
           (@reconciler_priority SampleComparison.utils
              [item "C" "c"; item "A" "a"; item "B" "b"] 1234567
              {| this := {| YTMusicSource.polling := true;
                            YTMusicSource.recentlyPlayed :=
                              window 0 [item "A" "a"; item "B" "b"; item "C" "c"];
                            YTMusicSource.logDiff := None |};
                 out := [] |} eq_refl)))); reflexivity.
Defined.

(** C10: while polling, a sort-consistent fetch makes [getRecentlyPlayed]
    return the empty list without touching [this.recentlyPlayed] (or
    anything else); in every other case the call returns with
    [this.recentlyPlayed] replaced by the current window. *)
Theorem window_replaced_unless_sort_consistent (U : PlayComparisonUtils)
    (items : list YTNodes.MusicResponsiveListItem) (now : Dayjs)
    (w : World YTMusicSource.t) :
  YTMusicSource.polling (this w) = true ->
  let prev := YTMusicSource.recentlyPlayed (this w) in
  let cur := window now items in
  let result := YTMusicSource.getRecentlyPlayed U (inr items) now w in
  (playsAreSortConsistent U prev cur = true -> result = (w, inr [])) /\
  (playsAreSortConsistent U prev cur = false ->
   YTMusicSource.recentlyPlayed (this (fst result)) = cur /\
   YTMusicSource.polling (this (fst result)) = true /\
   exists newPlays, snd result = inr newPlays).
Proof.
  intros P prev cur result. subst result.
  rewrite (getRecentlyPlayed_polling U items now w P). cbv zeta.
  fold prev cur.
  split; intros S; rewrite S.
  - reflexivity.
  - cbn [fst snd this]. split; [reflexivity|]. split; [exact P|]. eauto.
Qed.

(** The theorem on a fetch that equals the stored window. *)
Lemma window_replaced_example :
  YTMusicSource.getRecentlyPlayed SampleComparison.utils
    (inr [item "A" "a"; item "B" "b"]) 1234567
    {| this := {| YTMusicSource.polling := true;
                  YTMusicSource.recentlyPlayed := window 0 [item "A" "a"; item "B" "b"];
                  YTMusicSource.logDiff := None |};
       out := [] |}
  = ({| this := {| YTMusicSource.polling := true;
                   YTMusicSource.recentlyPlayed := window 0 [item "A" "a"; item "B" "b"];
                   YTMusicSource.logDiff := None |};
        out := [] |},
     inr []).
Proof.
  apply (proj1
           (@window_replaced_unless_sort_consistent SampleComparison.utils
              [item "A" "a"; item "B" "b"] 1234567
              {| this := {| YTMusicSource.polling := true;
                            YTMusicSource.recentlyPlayed :=
                              window 0 [item "A" "a"; item "B" "b"];
                            YTMusicSource.logDiff := None |};
                 out := [] |} eq_refl)); reflexivity.
Defined.

(** *** The comparison of the specification on prepended plays *)










(** Scenario 4 of the specification, with the same comparison: the stored
    window is B, A, C and the history now lists A, B, C; A alone is
    emitted, dated with the first second of the minute. *)
Example bump_only :
  map (fun p => (track (data p), playDate (data p), newFromSource (meta p)))
      (match snd (YTMusicSource.getRecentlyPlayed SampleComparison.utils
                    (inr [item "A" "a"; item "B" "b"; item "C" "c"]) 1234567
                    {| this := {| YTMusicSource.polling := true;
                                  YTMusicSource.recentlyPlayed :=
                                    window 0 [item "B" "b"; item "A" "a"; item "C" "c"];
                                  YTMusicSource.logDiff := None |};
                       out := [] |}) with
       | inr plays => plays
       | inl _ => []
       end)
  = [(Some "A", Some 1201000, Some true)].
Proof. reflexivity. Qed.

(** ** Fetching the same list twice (C9) *)

Section SameList.

Variable isValid : PlayObject -> bool.

Lemma lastNew_cases last ps : forall acc,
  lastNew isValid last ps acc = acc \/
  exists q d, In q ps /\ isNew isValid last q = true /\
    playDate (data q) = Some d /\ lastNew isValid last ps acc = d.
Proof.
  induction ps as [|p ps IH]; intros acc; cbn [lastNew].
  - left. reflexivity.
  - destruct (IH (if isNew isValid last p
                  then match playDate (data p) with Some d => d | None => acc end
                  else acc)) as [E|[q [d [Hq [N [D E]]]]]].
    + rewrite E. destruct (isNew isValid last p) eqn:N.
      * destruct (playDate (data p)) as [d|] eqn:D.
        -- right. exists p, d. split; [left; reflexivity|]. auto.
        -- left. reflexivity.
      * left. reflexivity.
    + right. exists q, d. split; [right; exact Hq|]. auto.
Qed.

Lemma isNew_dated last p :
  isNew isValid last p = true ->
  isValid p = true /\ exists d, playDate (data p) = Some d /\ unix last < unix d.
Proof.
  unfold isNew. intros H. apply andb_true_iff in H. destruct H as [V H].
  split; [exact V|].
  destruct (playDate (data p)) as [d|]; [|discriminate].
  exists d. split; [reflexivity|]. apply Z.ltb_lt. exact H.
Qed.

(** In an oldest-first list no new play is later than the one the [reduce]
    ends on. *)
Lemma lastNew_latest last ps : forall acc p d,
  oldestFirst isValid ps ->
  In p ps -> isNew isValid last p = true -> playDate (data p) = Some d ->
  d <= lastNew isValid last ps acc.
Proof.
  induction ps as [|p0 ps IH]; intros acc p d Hs Hin N D; [destruct Hin|].
  inversion Hs as [|? ? Hfirst Hrest]; subst.
  cbn [lastNew]. destruct Hin as [->|Hin].
  - rewrite N, D.
    destruct (lastNew_cases last ps d) as [E|[q [e [Hq [Nq [Dq E]]]]]].
    + rewrite E. lia.
    + rewrite E. rewrite Forall_forall in Hfirst.
      apply (Hfirst q Hq); try assumption.
      * apply isNew_dated in N. tauto.
      * apply isNew_dated in Nq. tauto.
  - apply (IH _ p d); assumption.
Qed.

(** After a pass over an oldest-first list, a second pass over the same list
    finds nothing new. *)
Lemma second_pass_finds_nothing last ps p :
  oldestFirst isValid ps -> In p ps ->
  isNew isValid (lastNew isValid last ps last) p = false.
Proof.
  intros Hs Hin.
  destruct (isNew isValid (lastNew isValid last ps last) p) eqn:N2; [|reflexivity].
  exfalso. apply isNew_dated in N2. destruct N2 as [V [d [D L2]]].
  destruct (isNew isValid last p) eqn:N1.
  - pose proof (@lastNew_latest last ps last p d Hs Hin N1 D) as G.
    apply unix_le in G. lia.
  - unfold isNew in N1. rewrite V, D in N1. cbn [andb] in N1.
    apply Z.ltb_ge in N1.
    destruct (lastNew_cases last ps last) as [E|[q [e [_ [Nq [Dq E]]]]]].
    + rewrite E in L2. lia.
    + apply isNew_dated in Nq. destruct Nq as [_ [e' [De' Le]]].
      rewrite E in L2. rewrite Dq in De'. inversion De'; subst. lia.
Qed.

Lemma nothing_new_existsb last ps :
  (forall p, In p ps -> isNew isValid last p = false) ->
  existsb (isNew isValid last) ps = false.
Proof.
  intros H. induction ps as [|p ps IH]; [reflexivity|].
  cbn [existsb]. rewrite (H p (or_introl eq_refl)). apply IH.
  intros q Hq. apply H. right. exact Hq.
Qed.

Lemma nothing_new_close now last ps :
  (forall p, In p ps -> isNew isValid last p = false) ->
  existsb (fun p => isNew isValid last p && isClose now p) ps = false.
Proof.
  intros H. induction ps as [|p ps IH]; [reflexivity|].
  cbn [existsb]. rewrite (H p (or_introl eq_refl)). apply IH.
  intros q Hq. apply H. right. exact Hq.
Qed.

Lemma nothing_new_lastNew last ps : forall acc,
  (forall p, In p ps -> isNew isValid last p = false) ->
  lastNew isValid last ps acc = acc.
Proof.
  induction ps as [|p ps IH]; intros acc H; [reflexivity|].
  cbn [lastNew]. rewrite (H p (or_introl eq_refl)). apply IH.
  intros q Hq. apply H. right. exact Hq.
Qed.

Lemma nothing_new_pushed last ps :
  (forall p, In p ps -> isNew isValid last p = false) ->
  map (pushed isValid last) (filter isValid ps) = filter isValid ps.
Proof.
  intros H. induction ps as [|p ps IH]; [reflexivity|].
  cbn [filter].
  assert (IH' : map (pushed isValid last) (filter isValid ps) = filter isValid ps).
  { apply IH. intros q Hq. apply H. right. exact Hq. }
  destruct (isValid p); [|exact IH'].
  cbn [map]. rewrite IH'. unfold pushed at 1.
  rewrite (H p (or_introl eq_refl)). reflexivity.
Qed.

Lemma nothing_new_logs formatTime last ps :
  (forall p, In p ps -> isNew isValid last p = false) ->
  newTrackLogs formatTime isValid last ps = [].
Proof.
  intros H. unfold newTrackLogs.
  induction ps as [|p ps IH]; [reflexivity|].
  cbn [filter]. rewrite (H p (or_introl eq_refl)). apply IH.
  intros q Hq. apply H. right. exact Hq.
Qed.

End SameList.

Lemma getRecentlyPlayed_idle (U : PlayComparisonUtils) items now
    (w : World YTMusicSource.t) :
  YTMusicSource.polling (this w) = false ->
  YTMusicSource.getRecentlyPlayed U (inr items) now w =
  ({| this := YTMusicSource.setRecentlyPlayed (window now items) (this w);
      out := out w |},
   inr (window now items)).
Proof.
  intros P. unfold YTMusicSource.getRecentlyPlayed.
  erewrite bind_ok by reflexivity.
  erewrite bind_ok by reflexivity.
  rewrite P. reflexivity.
Qed.

(** C9, as the specification has it, fails for the timestamp poller: the
    [reduce] ends on the last new play, not on the latest one.  With
    [lastTrackPlayedAt] at 10 s and a fetch listing a play at 100 s before a
    play at 50 s, the first cycle leaves [lastTrackPlayedAt] at 50 s, and
    the second cycle, on the same list, counts the play at 100 s as new
    again and moves [lastTrackPlayedAt] to 100 s. *)
Lemma unsorted_list_is_flagged_again :
  ~ (forall (formatTime : Dayjs -> string) (isValid : PlayObject -> bool)
            c1 c2 ps last cc w w1 last1 cc1 w2 last2 cc2,
       AbstractSource.recentlyPlayed c1 = inr ps ->
       AbstractSource.recentlyPlayed c2 = inr ps ->
       AbstractSource.cycle formatTime isValid c1 last cc w = (w1, inr (last1, cc1)) ->
       AbstractSource.cycle formatTime isValid c2 last1 cc1 w1 = (w2, inr (last2, cc2)) ->
       last2 = last1 /\ existsb (isNew isValid last1) ps = false).
Proof.
  intros H.
  destruct (H sampleFormat AbstractSource.recentlyPlayedTrackIsValid
              {| AbstractSource.recentlyPlayed :=
                   inr [play "A" (Some "a") (Some 100000);
                        play "B" (Some "b") (Some 50000)];
                 AbstractSource.now := 200000;
                 AbstractSource.scrobbleResult := inr [];
                 AbstractSource.stopRequested := false |}
              {| AbstractSource.recentlyPlayed :=
                   inr [play "A" (Some "a") (Some 100000);
                        play "B" (Some "b") (Some 50000)];
                 AbstractSource.now := 230000;
                 AbstractSource.scrobbleResult := inr [];
                 AbstractSource.stopRequested := false |}
              [play "A" (Some "a") (Some 100000); play "B" (Some "b") (Some 50000)]
              10000 0 {| this := sampleSource; out := [] |}
              _ _ _ _ _ _ eq_refl eq_refl eq_refl eq_refl) as [E _].
  discriminate E.
Qed.

(** C9 (amended): if the fetch returns exactly the same list as in the
    previous cycle, and the valid plays of that list are in oldest-first
    [playDate] order, then the cycle flags no play as new (it logs no new
    track, hands the fetched valid plays to the clients as they are and
    without [forceRefresh]) and [lastTrackPlayedAt] is unchanged at its
    end.  For the YouTube Music source: when the upstream history is the
    one of the previous call and the comparison finds a window
    sort-consistent with itself, [getRecentlyPlayed] returns no plays
    while polling and changes nothing. *)
Theorem same_list_is_idempotent
    (formatTime : Dayjs -> string) (isValid : PlayObject -> bool) :
  (forall c1 c2 ps res last cc w w1 last1 cc1,
     AbstractSource.recentlyPlayed c1 = inr ps ->
     AbstractSource.recentlyPlayed c2 = inr ps ->
     Forall (wellFormed isValid) ps ->
     oldestFirst isValid ps ->
     AbstractSource.cycle formatTime isValid c1 last cc w = (w1, inr (last1, cc1)) ->
     AbstractSource.scrobbleResult c2 = inr res ->
     exists w2 cc2 after,
       AbstractSource.cycle formatTime isValid c2 last1 cc1 w1
       = (w2, inr (last1, cc2)) /\
       out w2 =
       out w1
       ++ [ Log debug "Refreshing recently played";
            noNewTracksLog formatTime (filter isValid ps);
            Scrobble (filter isValid ps)
              {| forceRefresh := false;
                 scrobbleFrom := AbstractSource.identifier (this w1);
                 scrobbleTo := AbstractSource.clients (this w1) |} ]
       ++ after) /\
  (forall (U : PlayComparisonUtils) items now0 now1 w0,
     let w1 := fst (YTMusicSource.getRecentlyPlayed U (inr items) now0 w0) in
     let polling1 := {| this := YTMusicSource.setPolling true (this w1);
                        out := out w1 |} in
     playsAreSortConsistent U (window now1 items) (window now1 items) = true ->
     YTMusicSource.getRecentlyPlayed U (inr items) now1 polling1
     = (polling1, inr [])).
Proof.
  split.
  - intros c1 c2 ps res last cc w w1 last1 cc1 Hrec1 Hrec2 HF Hs H1 Hscr2.
    assert (L1 : last1 = lastNew isValid last ps last).
    { destruct (AbstractSource.scrobbleResult c1) as [e|res1] eqn:Hscr1.
      - rewrite (@cycle_dispatch_throws formatTime isValid c1 ps e last cc w
                   Hrec1 HF Hscr1) in H1. discriminate.
      - rewrite (@cycle_returns formatTime isValid c1 ps res1 last cc w
                   Hrec1 HF Hscr1) in H1.
        inversion H1. reflexivity. }
    assert (N : forall p, In p ps -> isNew isValid last1 p = false).
    { intros p Hp. rewrite L1. apply second_pass_finds_nothing; assumption. }
    rewrite (@cycle_returns formatTime isValid c2 ps res last1 cc1 w1
               Hrec2 HF Hscr2).
    unfold beforeDispatch.
    rewrite (@nothing_new_existsb isValid last1 ps N),
      (@nothing_new_close isValid (AbstractSource.now c2) last1 ps N),
      (@nothing_new_lastNew isValid last1 ps last1 N),
      (@nothing_new_pushed isValid last1 ps N),
      (@nothing_new_logs isValid formatTime last1 ps N).
    cbv zeta.
    set (secs := AbstractSource.sleepTimeOf _ _ _ _).
    eexists. eexists.
    exists [ Log debug ("Sleeping for " ++ renderNumber secs ++ "s")%string;
             Sleep (secs * 1000) ].
    split; reflexivity.
  - intros U items now0 now1 w0 w1 polling1 Hrefl.
    assert (R : playsAreSortConsistent U
                  (YTMusicSource.recentlyPlayed (this w1)) (window now1 items)
                = true).
    { subst w1.
      destruct (YTMusicSource.polling (this w0)) eqn:P.
      - rewrite (getRecentlyPlayed_polling U items now0 w0 P). cbv zeta.
        rewrite (window_without_clock now0 now1).
        destruct (playsAreSortConsistent U (YTMusicSource.recentlyPlayed (this w0))
                    (window now1 items)) eqn:S.
        + exact S.
        + exact Hrefl.
      - rewrite (getRecentlyPlayed_idle U items now0 w0 P). exact Hrefl. }
    rewrite (getRecentlyPlayed_polling U items now1 polling1 eq_refl). cbv zeta.
    change (YTMusicSource.recentlyPlayed (this polling1))
      with (YTMusicSource.recentlyPlayed (this w1)).
    rewrite R. reflexivity.
Qed.

(** The theorem on a fetch of two plays in order, seen twice. *)
Lemma same_list_example :
  let ps := [play "B" (Some "b") (Some 50000); play "A" (Some "a") (Some 100000)] in
  let c1 := {| AbstractSource.recentlyPlayed := inr ps;
               AbstractSource.now := 200000;
               AbstractSource.scrobbleResult := inr [];
               AbstractSource.stopRequested := false |} in
  let c2 := {| AbstractSource.recentlyPlayed := inr ps;
               AbstractSource.now := 230000;
               AbstractSource.scrobbleResult := inr [];
               AbstractSource.stopRequested := false |} in
  let w1 := fst (AbstractSource.cycle sampleFormat
                   AbstractSource.recentlyPlayedTrackIsValid c1 10000 0
                   {| this := sampleSource; out := [] |}) in
  exists w2 cc2 after,
    AbstractSource.cycle sampleFormat AbstractSource.recentlyPlayedTrackIsValid
      c2 100000 0 w1
    = (w2, inr (100000, cc2)) /\
    out w2 =
    out w1
    ++ [ Log debug "Refreshing recently played";
         noNewTracksLog sampleFormat ps;
         Scrobble ps
           {| forceRefresh := false; scrobbleFrom := "Lastfm - test";
              scrobbleTo := ["maloja"] |} ]
    ++ after.
Proof.
  intros ps c1 c2 w1.
  apply (proj1 (same_list_is_idempotent sampleFormat
                  AbstractSource.recentlyPlayedTrackIsValid)
           c1 c2 ps [] 10000 0 {| this := sampleSource; out := [] |} w1 100000 0).
  - reflexivity.
  - reflexivity.
  - repeat constructor; discriminate.
  - repeat constructor. intros _ _ d e D E.
    inversion D; inversion E; subst. lia.
  - reflexivity.
  - reflexivity.
Defined.

(** ** The first scenario of the specification, run

    [lastTrackPlayedAt] is [T0] = 1000 s and the fetch returns one play at
    [T0 + 60] s: the play is dispatched flagged as new, [lastTrackPlayedAt]
    moves to its date, and, the clients accepting it, [checkCount] is reset
    and [tracksDiscovered] counts it. *)
Example fresh_play :
  let fetched := [play "A" (Some "a") (Some 1060000)] in
  let flagged :=
    [ {| data := data (play "A" (Some "a") (Some 1060000));
         meta := withNewFromSource true (meta (play "A" (Some "a") (Some 1060000))) |} ] in
  let r := AbstractSource.cycle sampleFormat AbstractSource.recentlyPlayedTrackIsValid
             {| AbstractSource.recentlyPlayed := inr fetched;
                AbstractSource.now := 1090000;
                AbstractSource.scrobbleResult := inr flagged;
                AbstractSource.stopRequested := false |}
             1000000 3 {| this := sampleSource; out := [] |} in
  snd r = inr (1060000, 0) /\
  AbstractSource.tracksDiscovered (this (fst r)) = 1 /\
  In (Scrobble flagged
        {| forceRefresh := false; scrobbleFrom := "Lastfm - test";
           scrobbleTo := ["maloja"] |})
     (out (fst r)).
Proof.
  cbv zeta. split; [reflexivity|]. split; [reflexivity|].
  vm_compute. right. right. left. reflexivity.
Qed.

(** * Further properties of the code *)

(** ** backend/utils.js: [playObjDataMatch] *)

Lemma strictEq_refl (x : option string) : strictEq x x = true.
Proof. apply strictEq_spec. reflexivity. Qed.

Lemma every_includes_refl (xs : list string) : forallb (includes xs) xs = true.
Proof. apply every_includes_spec. auto. Qed.

(** Every play is the same play as itself. *)
Theorem playObjDataMatch_reflexive (a : PlayObject) :
  Utils.playObjDataMatch a a = true.
Proof.
  rewrite playObjDataMatch_unfold.
  rewrite !strictEq_refl, Nat.eqb_refl, every_includes_refl.
  destruct (isDefined (sourceId (meta a))); reflexivity.
Qed.

(** When the artists of the second play are free of duplicates, the names
    of the artists are never what makes two plays differ: plays that pass
    the id test and agree on track, album and number of artists are the same
    play, whoever the artists are. *)
Theorem playObjDataMatch_never_compares_distinct_artists (a b : PlayObject) :
  NoDup (artistsOf b) ->
  ~ sourceIdsDiffer a b ->
  track (data a) = track (data b) ->
  album (data a) = album (data b) ->
  List.length (artistsOf a) = List.length (artistsOf b) ->
  Utils.playObjDataMatch a b = true.
Proof.
  intros Hnd Hg Ht Ha Hl.
  rewrite playObjDataMatch_unfold.
  apply strictEq_spec in Ht, Ha. rewrite Ht, Ha.
  rewrite (proj2 (Nat.eqb_eq _ _) Hl).
  destruct (_ && negb _) eqn:G; [apply guard_spec in G; contradiction|].
  cbn [negb andb].
  destruct (forallb (includes (artistsOf b)) (artistsOf a)) eqn:A; [reflexivity|].
  destruct (forallb (includes (artistsOf a)) (artistsOf b)) eqn:B; [|reflexivity].
  exfalso.
  assert (Hba : incl (artistsOf b) (artistsOf a)).
  { intros x Hx. exact (proj1 (every_includes_spec _ _) B x Hx). }
  assert (Hab : incl (artistsOf a) (artistsOf b)).
  { apply NoDup_length_incl; [exact Hnd | lia | exact Hba]. }
  assert (A' : forallb (includes (artistsOf b)) (artistsOf a) = true).
  { apply every_includes_spec. exact Hab. }
  congruence.
Qed.

(** Two plays of one title by altogether different artists. *)
Lemma playObjDataMatch_distinct_artists_example :
  Utils.playObjDataMatch (playBy "Song" ["X"; "Y"]) (playBy "Song" ["Z"; "W"]) = true.
Proof.
  apply playObjDataMatch_never_compares_distinct_artists.
  - repeat constructor; simpl; intuition discriminate.
  - unfold sourceIdsDiffer. simpl. intros [_ [H _]]. apply H. reflexivity.
  - reflexivity.
  - reflexivity.
  - reflexivity.
Defined.

(** ** backend/utils.js: strings *)

Lemma length_append (s t : string) :
  String.length (s ++ t) = (String.length s + String.length t)%nat.
Proof. induction s as [|c s IH]; simpl; [reflexivity | rewrite IH; reflexivity]. Qed.

Lemma length_substring_0 (n : nat) : forall s : string,
  String.length (String.substring 0 n s) = Nat.min n (String.length s).
Proof.
  induction n as [|n IH]; intros [|c s]; simpl; try reflexivity.
  rewrite IH. reflexivity.
Qed.

Lemma substring_0_all (s : string) : String.substring 0 (String.length s) s = s.
Proof. induction s as [|c s IH]; simpl; [reflexivity | rewrite IH; reflexivity]. Qed.

(** The running maximum [longestString] folds. *)
Lemma longestString_from (strings : list string) : forall acc,
  0 <= acc ->
  let r := fold_left
             (fun acc curr =>
                if acc <? Z.of_nat (String.length curr)
                then Z.of_nat (String.length curr)
                else acc)
             strings acc in
  acc <= r /\
  (forall s, In s strings -> Z.of_nat (String.length s) <= r) /\
  (r = acc \/ exists s, In s strings /\ Z.of_nat (String.length s) = r).
Proof.
  induction strings as [|c strings IH]; intros acc Hacc; cbn [fold_left].
  - split; [lia|]. split; [intros s []|]. left. reflexivity.
  - destruct (acc <? Z.of_nat (String.length c)) eqn:L.
    + apply Z.ltb_lt in L.
      destruct (IH (Z.of_nat (String.length c)) ltac:(lia)) as [H1 [H2 H3]].
      split; [lia|]. split.
      * intros s [->|Hs]; [exact H1 | apply H2; exact Hs].
      * right. destruct H3 as [E|[s [Hs E]]].
        -- exists c. split; [left; reflexivity | symmetry; exact E].
        -- exists s. split; [right; exact Hs | exact E].
    + apply Z.ltb_ge in L.
      destruct (IH acc Hacc) as [H1 [H2 H3]].
      split; [exact H1|]. split.
      * intros s [->|Hs]; [lia | apply H2; exact Hs].
      * destruct H3 as [E|[s [Hs E]]]; [left; exact E|].
        right. exists s. split; [right; exact Hs | exact E].
Qed.

Lemma longestString_is_max_or_zero (strings : list string) :
  Utils.longestString strings = 0 \/
  exists s, In s strings /\ Z.of_nat (String.length s) = Utils.longestString strings.
Proof.
  unfold Utils.longestString.
  destruct (@longestString_from strings 0 ltac:(lia)) as [_ [_ H3]].
  exact H3.
Qed.

(** [longestString] is the length of a longest string of the array: no
    string is longer, and one of them is that long; for the empty array it
    is 0. *)
Theorem longestString_is_maximum (strings : list string) :
  (forall s, In s strings -> Z.of_nat (String.length s) <= Utils.longestString strings) /\
  (strings <> [] ->
   exists s, In s strings /\ Z.of_nat (String.length s) = Utils.longestString strings) /\
  (strings = [] -> Utils.longestString strings = 0).
Proof.
  unfold Utils.longestString.
  destruct (@longestString_from strings 0 ltac:(lia)) as [H1 [H2 H3]].
  cbv zeta in *. split; [exact H2|]. split.
  - intros Hne. destruct H3 as [E|H3]; [|exact H3].
    destruct strings as [|c strings]; [congruence|].
    exists c. split; [left; reflexivity|].
    pose proof (H2 c (or_introl eq_refl)). lia.
  - intros ->. reflexivity.
Qed.

Lemma sliceTo_length (n : Z) (s : string) :
  0 <= n ->
  Z.of_nat (String.length (Utils.sliceTo n s)) = Z.min n (Z.of_nat (String.length s)).
Proof.
  intros Hn. unfold Utils.sliceTo. cbv zeta.
  destruct (n <? 0) eqn:L; [apply Z.ltb_lt in L; lia|].
  rewrite length_substring_0. lia.
Qed.

Lemma truncate_length (n : Z) (t : option string) (s : string) :
  0 <= n ->
  Z.min n (Z.of_nat (String.length s))
  <= Z.of_nat (String.length (Utils.truncateStringToLength n t s))
  <= n + Z.of_nat (String.length (match t with Some x => x | None => "..." end)).
Proof.
  intros Hn. unfold Utils.truncateStringToLength. cbv zeta.
  destruct (n <? Z.of_nat (String.length s)) eqn:L.
  - apply Z.ltb_lt in L. rewrite length_append, Nat2Z.inj_add, sliceTo_length by lia.
    lia.
  - apply Z.ltb_ge in L. lia.
Qed.

(** A string no longer than [length] is returned as it is; a longer one is
    cut to its first [length] characters and [truncStr] is appended, so the
    result can be longer than the string was (by up to the length of
    [truncStr]); in no case is it longer than [length] plus the length of
    [truncStr], or shorter than the smaller of [length] and the string's
    length. *)
Theorem truncateStringToLength_bounds (n : Z) (t : option string) (s : string) :
  0 <= n ->
  let truncStr := match t with Some x => x | None => "..." end in
  (Z.of_nat (String.length s) <= n -> Utils.truncateStringToLength n t s = s) /\
  (n < Z.of_nat (String.length s) ->
   Utils.truncateStringToLength n t s
   = (String.substring 0 (Z.to_nat n) s ++ truncStr)%string /\
   Z.of_nat (String.length (Utils.truncateStringToLength n t s))
   = n + Z.of_nat (String.length truncStr)) /\
  Z.min n (Z.of_nat (String.length s))
  <= Z.of_nat (String.length (Utils.truncateStringToLength n t s))
  <= n + Z.of_nat (String.length truncStr).
Proof.
  intros Hn truncStr. split; [|split].
  - intros H. unfold Utils.truncateStringToLength. cbv zeta.
    rewrite (proj2 (Z.ltb_ge _ _) H). reflexivity.
  - intros H.
    assert (E : Utils.truncateStringToLength n t s
                = (String.substring 0 (Z.to_nat n) s ++ truncStr)%string).
    { unfold Utils.truncateStringToLength, Utils.sliceTo. cbv zeta.
      rewrite (proj2 (Z.ltb_lt _ _) H).
      rewrite (proj2 (Z.ltb_ge _ _) Hn).
      rewrite Z.min_l by lia. reflexivity. }
    split; [exact E|].
    rewrite E, length_append, Nat2Z.inj_add, length_substring_0. lia.
  - apply truncate_length. exact Hn.
Qed.

(** "Hello, world" cut to five characters. *)
Lemma truncateStringToLength_example :
  Utils.truncateStringToLength 5 None "Hello, world" = "Hello...".
Proof.
  pose proof (proj1 (proj1 (proj2 (@truncateStringToLength_bounds 5 None "Hello, world" ltac:(lia)))
                       ltac:(simpl; lia))) as H.
  exact H.
Defined.

(** After [truncateStringArrToLength(length, truncStr)] no string of the
    array is longer than [length] plus the length of [truncStr], and the
    array has as many strings as before. *)
Theorem truncateStringArrToLength_bounds (n : Z) (t : option string)
    (strings : list string) :
  0 <= n ->
  Utils.longestString (Utils.truncateStringArrToLength n t strings)
  <= n + Z.of_nat (String.length (match t with Some x => x | None => "..." end)) /\
  List.length (Utils.truncateStringArrToLength n t strings) = List.length strings.
Proof.
  intros Hn. split.
  - destruct (longestString_is_max_or_zero (Utils.truncateStringArrToLength n t strings))
      as [E|[s [Hs E]]].
    + rewrite E. lia.
    + rewrite <- E. unfold Utils.truncateStringArrToLength in Hs. cbv zeta in Hs.
      apply in_map_iff in Hs. destruct Hs as [s0 [<- _]].
      apply (@truncate_length n (Some (match t with Some x => x | None => "..." end)) s0 Hn).
  - unfold Utils.truncateStringArrToLength. cbv zeta. apply length_map.
Qed.

(** Three labels cut to four characters. *)
Lemma truncateStringArrToLength_example :
  Utils.longestString
    (Utils.truncateStringArrToLength 4 (Some "~") ["Spotify"; "Plex"; "Jellyfin"]) <= 5.
Proof.
  exact (proj1 (@truncateStringArrToLength_bounds 4 (Some "~")
                  ["Spotify"; "Plex"; "Jellyfin"] ltac:(lia))).
Defined.

(** ** backend/utils.js: [setIntersection] *)

Section SetFacts.

Variable A : Type.
Variable eqb : A -> A -> bool.
Hypothesis eqb_spec : forall x y, eqb x y = true <-> x = y.

Lemma has_spec (set : list A) (x : A) : Utils.has eqb set x = true <-> In x set.
Proof using eqb_spec.
  unfold Utils.has. rewrite existsb_exists. split.
  - intros [y [Hy E]]. apply eqb_spec in E. subst. exact Hy.
  - intros H. exists x. split; [exact H | apply eqb_spec; reflexivity].
Qed.

Lemma add_spec (set : list A) (x y : A) :
  In y (Utils.add eqb set x) <-> In y set \/ y = x.
Proof using eqb_spec.
  unfold Utils.add. destruct (Utils.has eqb set x) eqn:H.
  - apply has_spec in H. split; [auto|]. intros [? | ->]; assumption.
  - rewrite in_app_iff. simpl. intuition.
Qed.

Lemma add_NoDup (set : list A) (x : A) : NoDup set -> NoDup (Utils.add eqb set x).
Proof using eqb_spec.
  intros Hnd. unfold Utils.add. destruct (Utils.has eqb set x) eqn:H; [exact Hnd|].
  apply NoDup_app; [exact Hnd | repeat constructor; simpl; tauto |].
  intros y Hy [<- | []].
  apply has_spec in Hy. congruence.
Qed.

Lemma intersection_from (setA setB : list A) : forall acc,
  NoDup acc ->
  let r := fold_left
             (fun _intersection elem =>
                if Utils.has eqb setA elem
                then Utils.add eqb _intersection elem
                else _intersection)
             setB acc in
  NoDup r /\ forall x, In x r <-> In x acc \/ (In x setA /\ In x setB).
Proof using eqb_spec.
  induction setB as [|b setB IH]; intros acc Hnd; cbn [fold_left].
  - split; [exact Hnd|]. intros x. simpl. tauto.
  - destruct (Utils.has eqb setA b) eqn:H.
    + apply has_spec in H.
      destruct (IH (Utils.add eqb acc b) (add_NoDup b Hnd)) as [H1 H2].
      split; [exact H1|]. intros x. rewrite H2, add_spec. simpl.
      split.
      * intros [[? | ->] | [? ?]]; auto.
      * intros [? | [? [<- | ?]]]; auto.
    + destruct (IH acc Hnd) as [H1 H2].
      split; [exact H1|]. intros x. rewrite H2. simpl.
      split.
      * intros [?|[? ?]]; auto.
      * intros [? | [Ha [<- | ?]]]; auto.
        apply has_spec in Ha. congruence.
Qed.

End SetFacts.

(** The intersection holds exactly the elements that are in both sets, each
    of them once. *)
Theorem setIntersection_spec (A : Type) (eqb : A -> A -> bool)
    (setA setB : list A) :
  (forall x y, eqb x y = true <-> x = y) ->
  NoDup (Utils.setIntersection eqb setA setB) /\
  forall x, In x (Utils.setIntersection eqb setA setB) <-> In x setA /\ In x setB.
Proof.
  intros eqb_spec. unfold Utils.setIntersection.
  destruct (@intersection_from A eqb eqb_spec setA setB [] (NoDup_nil A)) as [H1 H2].
  cbv zeta in *. split; [exact H1|].
  intros x. rewrite H2. simpl. tauto.
Qed.

(** The sources that two clients share. *)
Lemma setIntersection_example :
  NoDup (Utils.setIntersection String.eqb ["spotify"; "plex"; "lastfm"]
           ["lastfm"; "deezer"; "spotify"]) /\
  forall x,
    In x (Utils.setIntersection String.eqb ["spotify"; "plex"; "lastfm"]
            ["lastfm"; "deezer"; "spotify"])
    <-> In x ["spotify"; "plex"; "lastfm"] /\ In x ["lastfm"; "deezer"; "spotify"].
Proof.
  apply setIntersection_spec. exact String.eqb_eq.
Defined.

(** ** backend/utils.js: [isValidConfigStructure] *)

(** The structure is valid exactly when no required property is missing,
    where [type] and [name] are required only on demand and [data] unless
    waived; otherwise the errors returned are not empty and name the
    missing properties in the order [type], [name], [data]. *)
Theorem isValidConfigStructure_spec (V : Type) (obj : Utils.ConfigStructure V)
    (required : option Utils.Required) :
  let r := match required with
           | Some r => r
           | None => {| Utils.req_name := None; Utils.req_type := None;
                        Utils.req_data := None |}
           end in
  let missing (field : option V) (wanted : option bool) (byDefault : bool) :=
    negb (isDefined field)
    && match wanted with Some b => b | None => byDefault end in
  let errs :=
    (if missing (Utils.cs_type obj) (Utils.req_type r) false
     then ["'type' must be defined"] else [])
    ++ (if missing (Utils.cs_name obj) (Utils.req_name r) false
        then ["'name' must be defined"] else [])
    ++ (if missing (Utils.cs_data obj) (Utils.req_data r) true
        then ["'data' must be defined"] else []) in
  (errs = [] -> Utils.isValidConfigStructure obj required = Utils.IsValid) /\
  (errs <> [] -> Utils.isValidConfigStructure obj required = Utils.Errors errs) /\
  (required = None ->
   (Utils.isValidConfigStructure obj required = Utils.IsValid
    <-> Utils.cs_data obj <> None)).
Proof.
  intros r missing errs. subst errs missing r.
  unfold Utils.isValidConfigStructure. cbv zeta.
  split; [|split].
  - destruct required as [[[n|] [t|] [d|]]|]; cbn [Utils.req_name Utils.req_type Utils.req_data];
      destruct (isDefined (Utils.cs_type obj)), (isDefined (Utils.cs_name obj)),
        (isDefined (Utils.cs_data obj));
      try destruct n; try destruct t; try destruct d;
      cbn; intros H; try reflexivity; try discriminate H.
  - destruct required as [[[n|] [t|] [d|]]|]; cbn [Utils.req_name Utils.req_type Utils.req_data];
      destruct (isDefined (Utils.cs_type obj)), (isDefined (Utils.cs_name obj)),
        (isDefined (Utils.cs_data obj));
      try destruct n; try destruct t; try destruct d;
      cbn; intros H; try reflexivity; try (exfalso; apply H; reflexivity).
  - intros ->. cbn [Utils.req_name Utils.req_type Utils.req_data].
    rewrite !andb_false_r. cbn [app].
    destruct (Utils.cs_data obj); cbn; split; congruence.
Qed.

(** ** What every run of the polling loop respects *)

Section Respects.

Variable T : Type.
Variable I : T -> Prop.
Variable P : Event -> Prop.

Lemma respects_ret {A} (Q : A -> Prop) (x : A) : Q x -> respects I P Q (ret x).
Proof.
  intros HQ w HI. cbn. split; [exact HI|]. split.
  - exists []. rewrite app_nil_r. split; [reflexivity | constructor].
  - intros y E. inversion E; subst. exact HQ.
Qed.

Lemma respects_throw {A} (Q : A -> Prop) (e : JsError) :
  respects I P Q (throw e).
Proof.
  intros w HI. cbn. split; [exact HI|]. split.
  - exists []. rewrite app_nil_r. split; [reflexivity | constructor].
  - intros y E. discriminate.
Qed.

Lemma respects_await {A} (Q : A -> Prop) (r : JsError + A) :
  (forall x, r = inr x -> Q x) -> respects I P Q (await r).
Proof.
  intros HQ. destruct r as [e|x]; cbn [await].
  - apply respects_throw.
  - apply respects_ret. apply HQ. reflexivity.
Qed.

Lemma respects_emit (Q : unit -> Prop) (e : Event) :
  P e -> Q tt -> respects I P Q (emit e).
Proof.
  intros HP HQ w HI. cbn. split; [exact HI|]. split.
  - exists [e]. split; [reflexivity | repeat constructor; exact HP].
  - intros [] _. exact HQ.
Qed.

Lemma respects_getThis : respects I P I getThis.
Proof.
  intros w HI. cbn. split; [exact HI|]. split.
  - exists []. rewrite app_nil_r. split; [reflexivity | constructor].
  - intros y E. inversion E; subst. exact HI.
Qed.

Lemma respects_modifyThis (Q : unit -> Prop) (f : T -> T) :
  (forall s, I s -> I (f s)) -> Q tt -> respects I P Q (modifyThis f).
Proof.
  intros Hf HQ w HI. cbn. split; [apply Hf; exact HI|]. split.
  - exists []. rewrite app_nil_r. split; [reflexivity | constructor].
  - intros [] _. exact HQ.
Qed.

Lemma respects_bind {A B} (Q1 : A -> Prop) (Q2 : B -> Prop)
    (c : M T A) (k : A -> M T B) :
  respects I P Q1 c ->
  (forall x, Q1 x -> respects I P Q2 (k x)) ->
  respects I P Q2 (bind c k).
Proof.
  intros Hc Hk w HI. destruct (Hc w HI) as [HI1 [[evs1 [E1 F1]] HQ1]].
  unfold bind. destruct (c w) as [w1 [e|x]]; cbn [fst snd] in *.
  - split; [exact HI1|]. split; [exists evs1; auto|]. intros y E. discriminate.
  - destruct (Hk x (HQ1 x eq_refl) w1 HI1) as [HI2 [[evs2 [E2 F2]] HQ2]].
    split; [exact HI2|]. split; [|exact HQ2].
    exists (evs1 ++ evs2). rewrite E2, E1, app_assoc.
    split; [reflexivity | apply Forall_app; auto].
Qed.

Lemma respects_tryCatch {A} (Q : A -> Prop) (body : M T A)
    (handler : JsError -> M T A) :
  respects I P Q body ->
  (forall e, respects I P Q (handler e)) ->
  respects I P Q (tryCatch body handler).
Proof.
  intros Hb Hh w HI. destruct (Hb w HI) as [HI1 [[evs1 [E1 F1]] HQ1]].
  unfold tryCatch. destruct (body w) as [w1 [e|x]]; cbn [fst snd] in *.
  - destruct (Hh e w1 HI1) as [HI2 [[evs2 [E2 F2]] HQ2]].
    split; [exact HI2|]. split; [|exact HQ2].
    exists (evs1 ++ evs2). rewrite E2, E1, app_assoc.
    split; [reflexivity | apply Forall_app; auto].
  - split; [exact HI1|]. split; [exists evs1; auto | exact HQ1].
Qed.

Lemma respects_weaken {A} (Q Q' : A -> Prop) (c : M T A) :
  (forall x, Q x -> Q' x) -> respects I P Q c -> respects I P Q' c.
Proof.
  intros HQ Hc w HI. destruct (Hc w HI) as [HI1 [HE HQ1]].
  split; [exact HI1|]. split; [exact HE|]. intros x E. apply HQ, HQ1, E.
Qed.

End Respects.

Section LoopRespects.

Variable formatTime : Dayjs -> string.
Variable isValid : PlayObject -> bool.
Variable I : AbstractSource.t -> Prop.
Variable P : Event -> Prop.

(** What the loop does to [this] keeps [I]. *)
Hypothesis I_discovered : forall s n,
  0 <= n -> I s -> I (AbstractSource.addTracksDiscovered n s).
Hypothesis I_polling : forall s b, I s -> I (AbstractSource.setPolling b s).

(** What the loop emits satisfies [P]: its logs, the close-to-interval
    delay, the call of the clients on behalf of the source, and the sleep
    computed from a [checkCount] up to [bound]. *)
Variable bound : Z.
Hypothesis P_log : forall l m, P (Log l m).
Hypothesis P_error : forall e, P (LogError e).
Hypothesis P_delay : P (Sleep (10 * 1000)).
Hypothesis P_scrobble : forall s plays close,
  I s ->
  P (Scrobble plays {| forceRefresh := close;
                       scrobbleFrom := AbstractSource.identifier s;
                       scrobbleTo := AbstractSource.clients s |}).
Hypothesis P_sleep : forall s checkCount now last,
  I s -> checkCount <= bound ->
  P (Sleep (AbstractSource.sleepTimeOf (AbstractSource.config s) checkCount now last
            * 1000)).

Lemma reducer_respects now last st p :
  respects I P (fun _ => True) (AbstractSource.reducer formatTime isValid now last st p).
Proof using P_log.
  destruct st as [acc fl]. unfold AbstractSource.reducer.
  destruct (isValid p); [|apply respects_ret; exact Logic.I].
  destruct (playDate (data p)) as [d|]; [|apply respects_throw].
  destruct (unix last <? unix d); [|apply respects_ret; exact Logic.I].
  eapply respects_bind with (Q1 := fun _ => True); [apply respects_await; intros; exact Logic.I|].
  intros s _. eapply respects_bind with (Q1 := fun _ => True).
  - apply respects_emit; [apply P_log | exact Logic.I].
  - intros _ _. apply respects_ret. exact Logic.I.
Qed.

Lemma reduce_respects now last ps : forall st,
  respects I P (fun _ => True) (AbstractSource.reduce formatTime isValid now last ps st).
Proof using P_log.
  induction ps as [|p ps IH]; intros st; cbn [AbstractSource.reduce].
  - apply respects_ret. exact Logic.I.
  - eapply respects_bind; [apply reducer_respects|].
    intros st' _. apply IH.
Qed.

Lemma cycle_respects c last cc :
  0 <= cc -> cc + 1 <= bound ->
  respects I P (fun r => 0 <= snd r <= cc + 1)
    (AbstractSource.cycle formatTime isValid c last cc).
Proof using I_discovered I_polling P_log P_delay P_scrobble P_sleep.
  intros H0 Hb. unfold AbstractSource.cycle.
  eapply respects_bind with (Q1 := fun _ => True); [apply respects_emit; [apply P_log | exact Logic.I]|].
  intros _ _.
  eapply respects_bind with (Q1 := fun _ => True); [apply respects_await; intros; exact Logic.I|].
  intros ps _. cbv zeta.
  eapply respects_bind; [apply reduce_respects|].
  intros [info fl] _.
  eapply respects_bind with (Q1 := fun _ => True).
  { destruct (AbstractSource.closeToInterval fl).
    - eapply respects_bind with (Q1 := fun _ => True); [apply respects_emit; [apply P_log | exact Logic.I]|].
      intros _ _. apply respects_emit; [apply P_delay | exact Logic.I].
    - apply respects_ret. exact Logic.I. }
  intros _ _.
  eapply respects_bind with (Q1 := fun x => 0 <= x <= cc + 1).
  { destruct (negb (AbstractSource.newTracksFound fl)).
    - eapply respects_bind with (Q1 := fun _ => True).
      + destruct (rev (AbstractSource.plays info)).
        * apply respects_emit; [apply P_log | exact Logic.I].
        * eapply respects_bind with (Q1 := fun _ => True); [apply respects_await; intros; exact Logic.I|].
          intros s _. apply respects_emit; [apply P_log | exact Logic.I].
      + intros _ _. apply respects_ret; cbv beta; lia.
    - apply respects_ret; cbv beta; lia. }
  intros cc1 Hcc1.
  eapply respects_bind; [apply respects_getThis|].
  intros self Hself.
  eapply respects_bind with (Q1 := fun _ => True);
    [apply respects_emit; [apply P_scrobble; exact Hself | exact Logic.I]|].
  intros _ _.
  eapply respects_bind with (Q1 := fun _ => True); [apply respects_await; intros; exact Logic.I|].
  intros res _.
  eapply respects_bind with (Q1 := fun x => 0 <= x <= cc + 1).
  { destruct (0 <? Z.of_nat (List.length res)).
    - eapply respects_bind with (Q1 := fun _ => True).
      + apply respects_modifyThis; [|exact Logic.I].
        intros s Hs. apply I_discovered; [lia | exact Hs].
      + intros _ _. apply respects_ret; cbv beta; lia.
    - apply respects_ret. exact Hcc1. }
  intros cc2 Hcc2.
  eapply respects_bind with (Q1 := fun _ => True);
    [apply respects_emit; [apply P_log | exact Logic.I]|].
  intros _ _.
  eapply respects_bind with (Q1 := fun _ => True);
    [apply respects_emit; [apply P_sleep; [exact Hself | lia] | exact Logic.I]|].
  intros _ _.
  eapply respects_bind with (Q1 := fun _ => True).
  { destruct (AbstractSource.stopRequested c).
    - apply respects_modifyThis; [|exact Logic.I]. intros s Hs. apply I_polling, Hs.
    - apply respects_ret. exact Logic.I. }
  intros _ _. apply respects_ret. exact Hcc2.
Qed.

Lemma pollLoop_respects cs : forall last cc,
  0 <= cc ->
  cc + Z.of_nat (List.length cs) <= bound ->
  respects I P
    (fun r => match r with
              | AbstractSource.Done => True
              | AbstractSource.Pending _ cc' =>
                  0 <= cc' <= cc + Z.of_nat (List.length cs)
              end)
    (AbstractSource.pollLoop formatTime isValid cs last cc).
Proof using I_discovered I_polling P_log P_delay P_scrobble P_sleep.
  induction cs as [|c cs IH]; intros last cc H0 Hb; cbn [AbstractSource.pollLoop].
  - eapply respects_bind; [apply respects_getThis|]. intros self _.
    destruct (negb (AbstractSource.polling self)).
    + eapply respects_bind with (Q1 := fun _ => True); [apply respects_emit; [apply P_log | exact Logic.I]|].
      intros _ _. apply respects_ret. exact Logic.I.
    + apply respects_ret. cbv beta. cbn [List.length]. lia.
  - cbn [List.length] in Hb. rewrite Nat2Z.inj_succ in Hb.
    eapply respects_bind; [apply respects_getThis|]. intros self _.
    destruct (negb (AbstractSource.polling self)).
    + eapply respects_bind with (Q1 := fun _ => True); [apply respects_emit; [apply P_log | exact Logic.I]|].
      intros _ _. apply respects_ret. exact Logic.I.
    + eapply respects_bind; [apply cycle_respects; lia|].
      intros [l1 c1] H1. cbn [fst snd] in *.
      eapply respects_weaken; [|apply IH; lia].
      intros [|l' c'] H; [exact Logic.I|].
      cbn [List.length]. rewrite Nat2Z.inj_succ. lia.
Qed.

Lemma startPolling_respects startedAt cs :
  Z.of_nat (List.length cs) <= bound ->
  respects I P (fun _ => True)
    (AbstractSource.startPolling formatTime isValid startedAt cs).
Proof using I_discovered I_polling P_log P_error P_delay P_scrobble P_sleep.
  intros Hb. unfold AbstractSource.startPolling.
  eapply respects_bind; [apply respects_getThis|]. intros self _.
  destruct (AbstractSource.polling self); [apply respects_ret; exact Logic.I|].
  eapply respects_bind with (Q1 := fun _ => True); [apply respects_emit; [apply P_log | exact Logic.I]|].
  intros _ _. cbv zeta.
  apply respects_tryCatch.
  - eapply respects_bind with (Q1 := fun _ => True).
    + apply respects_modifyThis; [|exact Logic.I]. intros s Hs. apply I_polling, Hs.
    + intros _ _. eapply respects_weaken; [|apply pollLoop_respects; lia].
      intros; exact Logic.I.
  - intros e.
    eapply respects_bind with (Q1 := fun _ => True); [apply respects_emit; [apply P_log | exact Logic.I]|].
    intros _ _.
    eapply respects_bind with (Q1 := fun _ => True); [apply respects_emit; [apply P_error | exact Logic.I]|].
    intros _ _.
    eapply respects_bind with (Q1 := fun _ => True).
    + apply respects_modifyThis; [|exact Logic.I]. intros s Hs. apply I_polling, Hs.
    + intros _ _. apply respects_ret. exact Logic.I.
Qed.

End LoopRespects.

(** ** backend/sources/AbstractSource.js: what a run leaves alone *)

(** Whatever is fetched and however the run ends, [startPolling] only adds
    to what was emitted before, changes none of [name], [type],
    [identifier], [config], [clients] and [canPoll], and never lowers
    [tracksDiscovered]. *)
Theorem startPolling_frame (formatTime : Dayjs -> string)
    (isValid : PlayObject -> bool) (startedAt : Dayjs)
    (cs : list AbstractSource.Cycle) (w : World AbstractSource.t) :
  let w' := fst (AbstractSource.startPolling formatTime isValid startedAt cs w) in
  (exists evs, out w' = out w ++ evs) /\
  AbstractSource.name (this w') = AbstractSource.name (this w) /\
  AbstractSource.type (this w') = AbstractSource.type (this w) /\
  AbstractSource.identifier (this w') = AbstractSource.identifier (this w) /\
  AbstractSource.config (this w') = AbstractSource.config (this w) /\
  AbstractSource.clients (this w') = AbstractSource.clients (this w) /\
  AbstractSource.canPoll (this w') = AbstractSource.canPoll (this w) /\
  AbstractSource.tracksDiscovered (this w) <= AbstractSource.tracksDiscovered (this w').
Proof.
  cbv zeta.
  pose (I := fun s : AbstractSource.t =>
    AbstractSource.name s = AbstractSource.name (this w) /\
    AbstractSource.type s = AbstractSource.type (this w) /\
    AbstractSource.identifier s = AbstractSource.identifier (this w) /\
    AbstractSource.config s = AbstractSource.config (this w) /\
    AbstractSource.clients s = AbstractSource.clients (this w) /\
    AbstractSource.canPoll s = AbstractSource.canPoll (this w) /\
    AbstractSource.tracksDiscovered (this w) <= AbstractSource.tracksDiscovered s).
  assert (R : respects I (fun _ => True) (fun _ => True)
                (AbstractSource.startPolling formatTime isValid startedAt cs)).
  { apply startPolling_respects with (bound := Z.of_nat (List.length cs));
      try (intros; exact Logic.I); try lia.
    - intros s n Hn Hs. unfold I in *. cbn. intuition lia.
    - intros s b Hs. unfold I in *. cbn. exact Hs. }
  destruct (R w) as [HI [[evs [E _]] _]].
  { unfold I. intuition lia. }
  unfold I in HI. split; [exists evs; exact E|]. intuition.
Qed.

(** Every call of the scrobble clients a run makes is made in the name of
    the source ([scrobbleFrom] is its [identifier]) and for its configured
    [clients]. *)
Theorem startPolling_dispatches_as_itself (formatTime : Dayjs -> string)
    (isValid : PlayObject -> bool) (startedAt : Dayjs)
    (cs : list AbstractSource.Cycle) (w : World AbstractSource.t) :
  exists evs,
    out (fst (AbstractSource.startPolling formatTime isValid startedAt cs w))
    = out w ++ evs /\
    forall plays options,
      In (Scrobble plays options) evs ->
      scrobbleFrom options = AbstractSource.identifier (this w) /\
      scrobbleTo options = AbstractSource.clients (this w).
Proof.
  pose (I := fun s : AbstractSource.t =>
    AbstractSource.identifier s = AbstractSource.identifier (this w) /\
    AbstractSource.clients s = AbstractSource.clients (this w)).
  pose (P := fun e : Event =>
    forall plays options, e = Scrobble plays options ->
      scrobbleFrom options = AbstractSource.identifier (this w) /\
      scrobbleTo options = AbstractSource.clients (this w)).
  assert (R : respects I P (fun _ => True)
                (AbstractSource.startPolling formatTime isValid startedAt cs)).
  { apply startPolling_respects with (bound := Z.of_nat (List.length cs));
      try lia; unfold I, P.
    - intros s n _ Hs. exact Hs.
    - intros s b Hs. exact Hs.
    - intros l m pl o E. discriminate.
    - intros e pl o E. discriminate.
    - intros pl o E. discriminate.
    - intros s pl cl [H1 H2] pl' o E. inversion E; subst. cbn. auto.
    - intros s cc n l _ _ pl o E. discriminate. }
  destruct (R w) as [_ [[evs [E F]] _]].
  { unfold I. auto. }
  exists evs. split; [exact E|].
  intros plays options Hin.
  rewrite Forall_forall in F. exact (F _ Hin plays options eq_refl).
Qed.

(** ** backend/sources/AbstractSource.js: the back-off *)

(** "Don't want to back off if we just started the app": in the first five
    cycles of a run every sleep is either the close-to-interval delay of
    10 seconds or exactly the configured interval (30 seconds when there is
    none). *)
Theorem no_backoff_in_first_five_cycles (formatTime : Dayjs -> string)
    (isValid : PlayObject -> bool) (startedAt : Dayjs)
    (cs : list AbstractSource.Cycle) (w : World AbstractSource.t) :
  (List.length cs <= 5)%nat ->
  let interval :=
    match AbstractSource.interval (AbstractSource.config (this w)) with
    | Some i => i
    | None => 30
    end in
  exists evs,
    out (fst (AbstractSource.startPolling formatTime isValid startedAt cs w))
    = out w ++ evs /\
    forall ms, In (Sleep ms) evs -> ms = 10000 \/ ms = interval * 1000.
Proof.
  intros Hlen interval.
  pose (I := fun s : AbstractSource.t =>
    AbstractSource.config s = AbstractSource.config (this w)).
  pose (P := fun e : Event =>
    forall ms, e = Sleep ms -> ms = 10000 \/ ms = interval * 1000).
  assert (R : respects I P (fun _ => True)
                (AbstractSource.startPolling formatTime isValid startedAt cs)).
  { apply startPolling_respects with (bound := 5); try lia; unfold I, P.
    - intros s n _ Hs. exact Hs.
    - intros s b Hs. exact Hs.
    - intros l m ms E. discriminate.
    - intros e ms E. discriminate.
    - intros ms E. inversion E. left. reflexivity.
    - intros s pl cl _ ms E. discriminate.
    - intros s cc n l Hs Hcc ms E. inversion E; subst. right.
      rewrite sleepTimeOf_spec, Hs. cbv zeta.
      rewrite (proj2 (Z.ltb_ge 5 cc) Hcc). reflexivity. }
  destruct (R w) as [_ [[evs [E F]] _]].
  { unfold I. reflexivity. }
  exists evs. split; [exact E|].
  intros ms Hin. rewrite Forall_forall in F. exact (F _ Hin ms eq_refl).
Qed.

(** Five empty cycles after the start. *)
Lemma no_backoff_example :
  exists evs,
    out (fst (AbstractSource.startPolling sampleFormat
                AbstractSource.recentlyPlayedTrackIsValid 0
                [quietCycle 900000; quietCycle 1800000; quietCycle 2700000;
                 quietCycle 3600000; quietCycle 4500000]
                {| this := sampleSource; out := [] |}))
    = evs /\
    forall ms, In (Sleep ms) evs -> ms = 10000 \/ ms = 30000.
Proof.
  exact (@no_backoff_in_first_five_cycles sampleFormat
           AbstractSource.recentlyPlayedTrackIsValid 0
           [quietCycle 900000; quietCycle 1800000; quietCycle 2700000;
            quietCycle 3600000; quietCycle 4500000]
           {| this := sampleSource; out := [] |} ltac:(simpl; lia)).
Defined.

(** The back-off lengthens the sleep only for intervals of up to five
    minutes: with a non-negative interval the sleep lies between the
    smaller and the larger of the interval and 300 seconds, it is never
    below an interval of at most 300 seconds, and for a longer interval
    (below 600) a quiet poller sleeps {e less} than its interval, namely
    300 seconds. *)
Theorem sleepTimeOf_bounds (cfg : AbstractSource.Config) (checkCount : Z)
    (now last : Dayjs) :
  let interval :=
    match AbstractSource.interval cfg with Some i => i | None => 30 end in
  0 <= interval ->
  Z.min interval 300 <= AbstractSource.sleepTimeOf cfg checkCount now last
                     <= Z.max interval 300 /\
  (interval <= 300 -> interval <= AbstractSource.sleepTimeOf cfg checkCount now last) /\
  (300 < interval < 600 -> 5 < checkCount ->
   600 <= Z.abs (unix now - unix last) ->
   AbstractSource.sleepTimeOf cfg checkCount now last = 300).
Proof.
  intros interval Hi. rewrite sleepTimeOf_spec. cbv zeta. fold interval.
  destruct (5 <? checkCount) eqn:C; destruct (interval <? 600) eqn:L;
    destruct (Z.min (interval * 10) 600 <=? Z.abs (unix now - unix last)) eqn:B;
    cbn [andb];
    try apply Z.ltb_lt in C; try apply Z.ltb_ge in C;
    try apply Z.ltb_lt in L; try apply Z.ltb_ge in L;
    try apply Z.leb_le in B; try apply Z.leb_gt in B;
    repeat split; intros; lia.
Qed.

(** An interval of 400 seconds, six quiet cycles, an hour without a play. *)
Lemma sleepTimeOf_bounds_example :
  AbstractSource.sleepTimeOf {| AbstractSource.interval := Some 400 |} 6 3600000 0 = 300.
Proof.
  apply (proj2 (proj2 (@sleepTimeOf_bounds {| AbstractSource.interval := Some 400 |}
                         6 3600000 0 ltac:(simpl; lia))));
    [simpl; lia | lia | vm_compute; discriminate].
Defined.

(** ** backend/sources/AbstractSource.js: stopping and faulting *)

Section StopAndFault.

Variable formatTime : Dayjs -> string.
Variable isValid : PlayObject -> bool.

Local Abbreviation reducer := (AbstractSource.reducer formatTime isValid).
Local Abbreviation reduce := (AbstractSource.reduce formatTime isValid).
Local Abbreviation cycle := (AbstractSource.cycle formatTime isValid).
Local Abbreviation pollLoop := (AbstractSource.pollLoop formatTime isValid).

Lemma pollLoop_stopped cs last cc w :
  AbstractSource.polling (this w) = false ->
  pollLoop cs last cc w =
  ({| this := this w;
      out := out w ++ [Log info "Stopped polling due to user input"] |},
   inr AbstractSource.Done).
Proof.
  intros P. destruct cs; cbn [AbstractSource.pollLoop];
    erewrite bind_ok by reflexivity; rewrite P; reflexivity.
Qed.

Lemma buildTrackString_outcome p :
  (exists s, Utils.buildTrackString formatTime p = inr s) \/
  (exists msg, Utils.buildTrackString formatTime p = inl (TypeError msg)).
Proof.
  unfold Utils.buildTrackString.
  destruct (artists (data p)); [|right; eauto].
  destruct (playDate (data p)); [left; eauto | right; eauto].
Qed.

(** One step of the [reduce] only logs; it throws nothing but a
    [TypeError], and it does throw one on a valid play without date. *)
Lemma reducer_outcome now last st p w :
  exists evs r,
    reducer now last st p w = ({| this := this w; out := out w ++ evs |}, r) /\
    Forall isLog evs /\
    (forall e, r = inl e -> exists msg, e = TypeError msg) /\
    (isValid p = true -> playDate (data p) = None ->
     exists msg, r = inl (TypeError msg)).
Proof.
  destruct st as [acc fl]. destruct w as [s o]. cbn [this out].
  unfold AbstractSource.reducer.
  destruct (isValid p) eqn:V.
  - destruct (playDate (data p)) as [d|] eqn:D.
    + destruct (unix last <? unix d).
      * destruct (buildTrackString_outcome p) as [[str E]|[msg E]]; rewrite E.
        -- eexists [_]. eexists. split; [reflexivity|].
           split; [repeat constructor|]. split; [discriminate | discriminate].
        -- exists []. eexists. split; [run; cbn; rewrite app_nil_r; reflexivity|].
           split; [constructor|]. split; [|discriminate].
           intros e H. inversion H; subst. eauto.
      * exists []. eexists. split; [run; rewrite app_nil_r; reflexivity|].
        split; [constructor|]. split; discriminate.
    + exists []. eexists. split; [run; rewrite app_nil_r; reflexivity|].
      split; [constructor|]. split.
      * intros e H. inversion H; subst. eauto.
      * intros _ _. eauto.
  - exists []. eexists. split; [run; rewrite app_nil_r; reflexivity|].
    split; [constructor|]. split; [discriminate|]. discriminate.
Qed.

Lemma reduce_faults now last ps p : forall st w,
  In p ps -> isValid p = true -> playDate (data p) = None ->
  exists evs msg,
    reduce now last ps st w
    = ({| this := this w; out := out w ++ evs |}, inl (TypeError msg)) /\
    Forall isLog evs.
Proof.
  induction ps as [|p0 ps IH]; intros st w Hin V D; [destruct Hin|].
  cbn [AbstractSource.reduce].
  destruct (reducer_outcome now last st p0 w) as [evs [r [E [F [Herr Hthrow]]]]].
  destruct r as [e|st'].
  - destruct (Herr e eq_refl) as [msg ->].
    exists evs, msg. split; [|exact F].
    erewrite bind_err by exact E. reflexivity.
  - destruct Hin as [->|Hin].
    + destruct (Hthrow V D) as [msg H]. discriminate.
    + destruct (IH st' {| this := this w; out := out w ++ evs |} Hin V D)
        as [evs' [msg [E' F']]].
      exists (evs ++ evs'), msg. split.
      * erewrite bind_ok by exact E. rewrite E'. cbn [this out].
        rewrite app_assoc. reflexivity.
      * apply Forall_app. auto.
Qed.

Lemma cycle_faults c ps p last cc w :
  AbstractSource.recentlyPlayed c = inr ps ->
  In p ps -> isValid p = true -> playDate (data p) = None ->
  exists evs msg,
    cycle c last cc w
    = ({| this := this w; out := out w ++ evs |}, inl (TypeError msg)) /\
    Forall isLog evs.
Proof.
  intros Hrec Hin V D. unfold AbstractSource.cycle. rewrite Hrec.
  erewrite bind_ok by reflexivity.
  erewrite bind_ok by reflexivity.
  cbv zeta.
  edestruct (@reduce_faults (AbstractSource.now c) last ps p) as [evs [msg [E F]]];
    [exact Hin | exact V | exact D |].
  erewrite bind_err by exact E.
  exists (Log debug "Refreshing recently played" :: evs), msg.
  split.
  - cbn [this out]. rewrite <- app_assoc. reflexivity.
  - constructor; [exact Logic.I | exact F].
Qed.

End StopAndFault.

(** A stop requested while a cycle runs takes effect before the next
    fetch: the cycle is completed, then the loop logs that it was stopped
    and [startPolling] returns with [polling] cleared, whatever further
    fetches would have brought. *)
Theorem stop_takes_effect_before_next_fetch
    (formatTime : Dayjs -> string) (isValid : PlayObject -> bool)
    (startedAt : Dayjs) pre c rest w w1 last cc ps res :
  AbstractSource.startPolling formatTime isValid startedAt pre w
  = (w1, inr (AbstractSource.Pending last cc)) ->
  AbstractSource.recentlyPlayed c = inr ps ->
  Forall (wellFormed isValid) ps ->
  AbstractSource.scrobbleResult c = inr res ->
  AbstractSource.stopRequested c = true ->
  exists w2,
    AbstractSource.startPolling formatTime isValid startedAt (pre ++ c :: rest) w
    = (w2, inr AbstractSource.Done) /\
    AbstractSource.polling (this w2) = false /\
    out w2 = out (fst (AbstractSource.cycle formatTime isValid c last cc w1))
             ++ [Log info "Stopped polling due to user input"].
Proof.
  intros H Hrec HF Hscr Hstop.
  destruct (AbstractSource.polling (this w)) eqn:P.
  { rewrite startPolling_busy in H by exact P. discriminate. }
  rewrite startPolling_idle in H by exact P.
  rewrite startPolling_idle by exact P.
  destruct (AbstractSource.pollLoop formatTime isValid pre startedAt 0 _)
    as [w' [e'|r]] eqn:E; [discriminate|].
  inversion H; subst.
  destruct (@pollLoop_app formatTime isValid pre (c :: rest) _ _ _ _ _ _ E)
    as [A P1].
  rewrite A. cbn [AbstractSource.pollLoop].
  erewrite bind_ok by reflexivity. rewrite P1. cbn [negb].
  pose proof (@cycle_returns formatTime isValid c ps res last cc w1 Hrec HF Hscr) as C.
  cbv zeta in C. rewrite Hstop in C.
  erewrite bind_ok by exact C. rewrite C. cbn [fst snd].
  rewrite pollLoop_stopped.
  - eexists. split; [reflexivity|]. split; reflexivity.
  - cbn [this]. destruct (0 <? Z.of_nat (List.length res)); reflexivity.
Qed.

(** A run stopped during its second cycle: the third is never fetched. *)
Lemma stop_example :
  exists w2,
    AbstractSource.startPolling sampleFormat AbstractSource.recentlyPlayedTrackIsValid 0
      ([quietCycle 30000]
       ++ {| AbstractSource.recentlyPlayed := inr [];
             AbstractSource.now := 60000;
             AbstractSource.scrobbleResult := inr [];
             AbstractSource.stopRequested := true |}
       :: [quietCycle 90000])
      {| this := sampleSource; out := [] |}
    = (w2, inr AbstractSource.Done) /\
    AbstractSource.polling (this w2) = false /\
    out w2 =
    out (fst (AbstractSource.cycle sampleFormat
                AbstractSource.recentlyPlayedTrackIsValid
                {| AbstractSource.recentlyPlayed := inr [];
                   AbstractSource.now := 60000;
                   AbstractSource.scrobbleResult := inr [];
                   AbstractSource.stopRequested := true |}
                0 1
                (fst (AbstractSource.startPolling sampleFormat
                        AbstractSource.recentlyPlayedTrackIsValid 0
                        [quietCycle 30000] {| this := sampleSource; out := [] |}))))
    ++ [Log info "Stopped polling due to user input"].
Proof.
  apply (@stop_takes_effect_before_next_fetch sampleFormat
           AbstractSource.recentlyPlayedTrackIsValid 0
           [quietCycle 30000] _ [quietCycle 90000]
           {| this := sampleSource; out := [] |} _ 0 1 [] []).
  - reflexivity.
  - reflexivity.
  - constructor.
  - reflexivity.
  - reflexivity.
Defined.

(** A fetched play that passes [recentlyPlayedTrackIsValid] but has no
    [playDate] is not dropped: it faults the poller.  The cycle throws a
    [TypeError] after having done nothing but log, so nothing is handed to
    the clients, and [startPolling] ends with the error logged and
    [polling] cleared. *)
Theorem undated_valid_play_faults_the_poller
    (formatTime : Dayjs -> string) (isValid : PlayObject -> bool)
    (startedAt : Dayjs) pre c post w w1 last cc ps p :
  AbstractSource.startPolling formatTime isValid startedAt pre w
  = (w1, inr (AbstractSource.Pending last cc)) ->
  AbstractSource.recentlyPlayed c = inr ps ->
  In p ps -> isValid p = true -> playDate (data p) = None ->
  exists w2 evs msg,
    AbstractSource.startPolling formatTime isValid startedAt (pre ++ c :: post) w
    = (w2, inr AbstractSource.Done) /\
    AbstractSource.polling (this w2) = false /\
    out w2 = out w1 ++ evs
             ++ [Log error "Error occurred while polling"; LogError (TypeError msg)] /\
    Forall isLog evs.
Proof.
  intros H Hrec Hin V D.
  destruct (AbstractSource.polling (this w)) eqn:P.
  { rewrite startPolling_busy in H by exact P. discriminate. }
  rewrite startPolling_idle in H by exact P.
  rewrite startPolling_idle by exact P.
  destruct (AbstractSource.pollLoop formatTime isValid pre startedAt 0 _)
    as [w' [e'|r]] eqn:E; [discriminate|].
  inversion H; subst.
  destruct (@pollLoop_app formatTime isValid pre (c :: post) _ _ _ _ _ _ E)
    as [A P1].
  rewrite A. cbn [AbstractSource.pollLoop].
  erewrite bind_ok by reflexivity. rewrite P1. cbn [negb].
  destruct (@cycle_faults formatTime isValid c ps p last cc w1 Hrec Hin V D)
    as [evs [msg [C F]]].
  erewrite bind_err by exact C.
  eexists. exists evs, msg.
  split; [reflexivity|]. split; [reflexivity|]. split; [|exact F].
  cbn [out]. rewrite <- !app_assoc. reflexivity.
Qed.

(** A run whose first fetch holds a play without date. *)
Lemma undated_play_example :
  exists w2 evs msg,
    AbstractSource.startPolling sampleFormat AbstractSource.recentlyPlayedTrackIsValid 0
      ([] ++ {| AbstractSource.recentlyPlayed :=
                  inr [play "A" (Some "a") (Some 5000); play "B" (Some "b") None];
                AbstractSource.now := 30000;
                AbstractSource.scrobbleResult := inr [];
                AbstractSource.stopRequested := false |} :: [quietCycle 60000])
      {| this := sampleSource; out := [] |}
    = (w2, inr AbstractSource.Done) /\
    AbstractSource.polling (this w2) = false /\
    out w2 = [Log info "Polling started"] ++ evs
             ++ [Log error "Error occurred while polling"; LogError (TypeError msg)] /\
    Forall isLog evs.
Proof.
  apply (@undated_valid_play_faults_the_poller sampleFormat
           AbstractSource.recentlyPlayedTrackIsValid 0
           []
           {| AbstractSource.recentlyPlayed :=
                inr [play "A" (Some "a") (Some 5000); play "B" (Some "b") None];
              AbstractSource.now := 30000;
              AbstractSource.scrobbleResult := inr [];
              AbstractSource.stopRequested := false |}
           [quietCycle 60000] {| this := sampleSource; out := [] |}
           {| this := AbstractSource.setPolling true sampleSource;
              out := [Log info "Polling started"] |}
           0 0 [play "A" (Some "a") (Some 5000); play "B" (Some "b") None]
           (play "B" (Some "b") None)).
  - reflexivity.
  - reflexivity.
  - right. left. reflexivity.
  - reflexivity.
  - reflexivity.
Defined.

(** ** backend/sources/YTMusicSource.ts: [getRecentlyPlayed] in every mode *)

Lemma In_firstn {A} (n : nat) (l : list A) (x : A) : In x (firstn n l) -> In x l.
Proof.
  intros H. rewrite <- (firstn_skipn n l). apply in_or_app. left. exact H.
Qed.

Lemma window_length now items : (List.length (window now items) <= 20)%nat.
Proof. unfold window. apply firstn_le_length. Qed.

Lemma getRecentlyPlayed_error (U : PlayComparisonUtils) e now
    (w : World YTMusicSource.t) :
  YTMusicSource.getRecentlyPlayed U (inl e) now w = (w, inl e).
Proof. reflexivity. Qed.

(** The three ways a call of [getRecentlyPlayed] can go. *)
Lemma getRecentlyPlayed_cases (U : PlayComparisonUtils) history now
    (w : World YTMusicSource.t) :
  let r := YTMusicSource.getRecentlyPlayed U history now w in
  (exists e, history = inl e /\ r = (w, inl e)) \/
  (exists items, history = inr items /\
     YTMusicSource.polling (this w) = true /\
     playsAreSortConsistent U (YTMusicSource.recentlyPlayed (this w)) (window now items)
     = true /\
     r = (w, inr [])) \/
  (exists items evs plays, history = inr items /\
     r = ({| this := YTMusicSource.setRecentlyPlayed (window now items) (this w);
             out := out w ++ evs |}, inr plays) /\
     Forall isLog evs /\
     (YTMusicSource.polling (this w) = false -> evs = [] /\ plays = window now items) /\
     (YTMusicSource.polling (this w) = true ->
      exists newPlays, plays = mapIndexed (YTMusicSource.stamp now) newPlays)).
Proof.
  cbv zeta. destruct history as [e|items].
  - left. exists e. split; reflexivity.
  - right. destruct (YTMusicSource.polling (this w)) eqn:P.
    + rewrite (getRecentlyPlayed_polling U items now w P). cbv zeta.
      destruct (playsAreSortConsistent U _ _) eqn:S.
      * left. exists items. auto.
      * right. exists items. eexists. eexists.
        split; [reflexivity|]. split; [reflexivity|].
        split; [|split; [discriminate | intros _; eauto]].
        destruct (negb _ && negb _); [repeat constructor|].
        destruct (_ && truthy _); repeat constructor.
    + right. rewrite (getRecentlyPlayed_idle U items now w P).
      exists items, [], (window now items).
      split; [reflexivity|]. rewrite app_nil_r.
      split; [reflexivity|]. split; [constructor|].
      split; [auto | discriminate].
Qed.

(** Whatever the history and the comparison say, a call never changes
    [polling] or the configuration, only logs, and keeps the stored window
    within 20 plays; a failed fetch is rethrown with nothing changed and
    nothing logged; and outside polling nothing is logged. *)
Theorem getRecentlyPlayed_frame (U : PlayComparisonUtils) history now
    (w : World YTMusicSource.t) :
  let w' := fst (YTMusicSource.getRecentlyPlayed U history now w) in
  YTMusicSource.polling (this w') = YTMusicSource.polling (this w) /\
  YTMusicSource.logDiff (this w') = YTMusicSource.logDiff (this w) /\
  (exists evs, out w' = out w ++ evs /\ Forall isLog evs /\
               (YTMusicSource.polling (this w) = false -> evs = [])) /\
  ((List.length (YTMusicSource.recentlyPlayed (this w)) <= 20)%nat ->
   (List.length (YTMusicSource.recentlyPlayed (this w')) <= 20)%nat) /\
  (forall e, history = inl e ->
     YTMusicSource.getRecentlyPlayed U history now w = (w, inl e)).
Proof.
  cbv zeta.
  destruct (getRecentlyPlayed_cases U history now w)
    as [[e [-> R]]|[[items [-> [P [S R]]]]|[items [evs [plays [-> [R [F [Hidle _]]]]]]]]];
    cbv zeta in R; rewrite R; cbn [fst this out YTMusicSource.polling
      YTMusicSource.logDiff YTMusicSource.recentlyPlayed
      YTMusicSource.setRecentlyPlayed].
  - repeat split; auto.
    + exists []. rewrite app_nil_r. repeat split; auto.
    + intros e' H. inversion H; subst. reflexivity.
  - repeat split; auto.
    + exists []. rewrite app_nil_r. repeat split; auto.
    + intros e' H. discriminate.
  - repeat split; auto.
    + exists evs. repeat split; auto. intros P. apply Hidle. exact P.
    + intros _. apply window_length.
    + intros e' H. discriminate.
Qed.

Lemma stamped_In now l p :
  In p (mapIndexed (YTMusicSource.stamp now) l) ->
  exists x k, In x l /\ (k < List.length l)%nat /\
    p = {| data := withPlayDate (startOfMinute now + (Z.of_nat k + 1) * 1000) (data x);
           meta := withNewFromSource true (meta x) |}.
Proof.
  intros H. apply In_nth_error in H. destruct H as [k H].
  destruct (stamped_nth now l k H) as [x [Hx E]].
  exists x, k. split; [eapply nth_error_In; exact Hx|].
  split; [|exact E]. apply nth_error_Some. congruence.
Qed.

(** The plays a call returns while polling all pass
    [recentlyPlayedTrackIsValid] and carry a play date after the start of
    the current minute; the plays it returns outside polling (the reference
    list) never pass it and carry no play date. *)
Theorem getRecentlyPlayed_validity (U : PlayComparisonUtils) history now
    (w : World YTMusicSource.t) (plays : list PlayObject) :
  snd (YTMusicSource.getRecentlyPlayed U history now w) = inr plays ->
  (YTMusicSource.polling (this w) = true ->
   forall p, In p plays ->
     YTMusicSource.recentlyPlayedTrackIsValid p = true /\
     exists d, playDate (data p) = Some d /\ startOfMinute now < d) /\
  (YTMusicSource.polling (this w) = false ->
   (List.length plays <= 20)%nat /\
   forall p, In p plays ->
     YTMusicSource.recentlyPlayedTrackIsValid p = false /\
     playDate (data p) = None /\
     source (meta p) = Some "YTMusic").
Proof.
  intros Hr.
  destruct (getRecentlyPlayed_cases U history now w)
    as [[e [-> R]]|[[items [-> [P [S R]]]]|[items [evs [ps [-> [R [F [Hidle Hpoll]]]]]]]]];
    cbv zeta in R; rewrite R in Hr; cbn [snd] in Hr.
  - discriminate.
  - inversion Hr; subst. split; [intros _ p []|]. rewrite P. discriminate.
  - inversion Hr; subst. split.
    + intros P p Hp. destruct (Hpoll P) as [newPlays ->].
      apply stamped_In in Hp. destruct Hp as [x [k [_ [_ ->]]]].
      split; [reflexivity|]. eexists. split; [reflexivity|]. lia.
    + intros P. destruct (Hidle P) as [_ ->].
      split; [apply window_length|].
      intros p Hp. unfold window in Hp.
      apply In_firstn in Hp.
      apply in_map_iff in Hp. destruct Hp as [x [<- _]].
      repeat split; reflexivity.
Qed.

(** The reference list fetched before polling starts. *)
Lemma getRecentlyPlayed_validity_example :
  (List.length (window 0%Z [item "A" "a"; item "B" "b"]) <= 20)%nat /\
  forall p, In p (window 0 [item "A" "a"; item "B" "b"]) ->
    YTMusicSource.recentlyPlayedTrackIsValid p = false /\
    playDate (data p) = None /\
    source (meta p) = Some "YTMusic".
Proof.
  apply (proj2 (@getRecentlyPlayed_validity SampleComparison.utils
                  (inr [item "A" "a"; item "B" "b"]) 0
                  {| this := {| YTMusicSource.polling := false;
                                YTMusicSource.recentlyPlayed := [];
                                YTMusicSource.logDiff := None |};
                     out := [] |}
                  (window 0 [item "A" "a"; item "B" "b"]) eq_refl)).
  reflexivity.
Defined.

Lemma startOfMinute_by_minute (now now' : Dayjs) :
  now / 60000 = now' / 60000 -> startOfMinute now = startOfMinute now'.
Proof.
  intros H. unfold startOfMinute.
  rewrite (Z.mod_eq now 60000), (Z.mod_eq now' 60000) by lia.
  rewrite H. lia.
Qed.

(** The clock enters [getRecentlyPlayed] only through its minute: two
    calls within the same clock minute, on the same history and in the same
    state, return the same plays with the same play dates. *)
Theorem getRecentlyPlayed_sees_only_the_minute (U : PlayComparisonUtils)
    history (now now' : Dayjs) (w : World YTMusicSource.t) :
  now / 60000 = now' / 60000 ->
  YTMusicSource.getRecentlyPlayed U history now w
  = YTMusicSource.getRecentlyPlayed U history now' w.
Proof.
  intros H. apply startOfMinute_by_minute in H.
  destruct history as [e|items]; [reflexivity|].
  destruct (YTMusicSource.polling (this w)) eqn:P.
  - rewrite (getRecentlyPlayed_polling U items now w P),
      (getRecentlyPlayed_polling U items now' w P).
    cbv zeta. rewrite (window_without_clock now now').
    unfold YTMusicSource.stamp. rewrite H. reflexivity.
  - rewrite (getRecentlyPlayed_idle U items now w P),
      (getRecentlyPlayed_idle U items now' w P).
    rewrite (window_without_clock now now'). reflexivity.
Qed.

(** Two polls twenty seconds apart, in one minute, that both find A new. *)
Lemma same_minute_example :
  YTMusicSource.getRecentlyPlayed SampleComparison.utils
    (inr [item "A" "a"; item "C" "c"]) 1210000
    {| this := {| YTMusicSource.polling := true;
                  YTMusicSource.recentlyPlayed := window 0 [item "C" "c"];
                  YTMusicSource.logDiff := None |};
       out := [] |}
  = YTMusicSource.getRecentlyPlayed SampleComparison.utils
      (inr [item "A" "a"; item "C" "c"]) 1230000
      {| this := {| YTMusicSource.polling := true;
                    YTMusicSource.recentlyPlayed := window 0 [item "C" "c"];
                    YTMusicSource.logDiff := None |};
         out := [] |}.
Proof.
  apply getRecentlyPlayed_sees_only_the_minute. reflexivity.
Defined.

(** ** backend/sources/YTMusicSource.ts: the history shelves *)

Lemma shelf_items_from now title items : forall acc,
  fold_left
    (fun acc listItem =>
       acc ++ [ YTMusicSource.formatPlayObj now listItem
                  {| YTMusicSource.opt_newFromSource := None;
                     YTMusicSource.opt_shelf := Some title |} ])
    items acc
  = acc ++ map (fun listItem =>
                  YTMusicSource.formatPlayObj now listItem
                    {| YTMusicSource.opt_newFromSource := None;
                       YTMusicSource.opt_shelf := Some title |})
               items.
Proof.
  induction items as [|x items IH]; intros acc; cbn [fold_left map].
  - rewrite app_nil_r. reflexivity.
  - rewrite IH, <- app_assoc. reflexivity.
Qed.

Lemma shelves_from now shelves : forall acc,
  fold_left
    (fun items shelf =>
       fold_left
         (fun items listItem =>
            items ++
            [ YTMusicSource.formatPlayObj now listItem
                {| YTMusicSource.opt_newFromSource := None;
                   YTMusicSource.opt_shelf :=
                     Some (YTMusicSource.shelf_title shelf) |} ])
         (YTMusicSource.shelf_contents shelf) items)
    shelves acc
  = acc ++
    flat_map
      (fun shelf =>
         map (fun listItem =>
                YTMusicSource.formatPlayObj now listItem
                  {| YTMusicSource.opt_newFromSource := None;
                     YTMusicSource.opt_shelf :=
                       Some (YTMusicSource.shelf_title shelf) |})
             (YTMusicSource.shelf_contents shelf))
      shelves.
Proof.
  induction shelves as [|shelf shelves IH]; intros acc; cbn [fold_left flat_map].
  - rewrite app_nil_r. reflexivity.
  - rewrite shelf_items_from, IH, <- app_assoc. reflexivity.
Qed.

(** The plays of the shelves: shelf after shelf, item after item. *)
Lemma shelves_flat now shelves :
  YTMusicSource.ytiHistoryResponseFromShelfToPlays now shelves
  = flat_map
      (fun shelf =>
         map (fun listItem =>
                YTMusicSource.formatPlayObj now listItem
                  {| YTMusicSource.opt_newFromSource := None;
                     YTMusicSource.opt_shelf :=
                       Some (YTMusicSource.shelf_title shelf) |})
             (YTMusicSource.shelf_contents shelf))
      shelves.
Proof.
  unfold YTMusicSource.ytiHistoryResponseFromShelfToPlays.
  rewrite shelves_from. reflexivity.
Qed.

Lemma flat_map_pairs {A B C} (contents : A -> list B) (f : A -> B -> C) l :
  flat_map (fun a => map (f a) (contents a)) l
  = map (fun e => f (fst e) (snd e))
        (flat_map (fun a => map (pair a) (contents a)) l).
Proof.
  induction l as [|a l IH]; cbn [flat_map map]; [reflexivity|].
  rewrite map_app, map_map, IH. reflexivity.
Qed.

(** [getUpstreamRecentlyPlayed] changes nothing and returns the plays of
    the first 100 items of the shelves, counted shelf after shelf and item
    after item: as many plays as there are such items, the play at position
    [k] being that of the [k]-th item, with the title of the item's shelf
    as its comment, the id, title and album of the item, source "YTMusic",
    no play date, and [newFromSource = false].  When the fetch fails the
    error is rethrown after at most one line of log. *)
Theorem getUpstreamRecentlyPlayed_spec (hasErrorInfo : JsError -> bool)
    (now : Dayjs) (w : World YTMusicSource.t) :
  (forall shelves,
     exists plays,
       YTMusicSource.getUpstreamRecentlyPlayed hasErrorInfo now (inr shelves) w
       = (w, inr plays) /\
       List.length plays
       = Nat.min 100
           (List.length
              (flat_map (fun shelf => map (pair shelf) (YTMusicSource.shelf_contents shelf))
                        shelves)) /\
       forall k shelf listItem,
         (k < 100)%nat ->
         nth_error
           (flat_map (fun shelf => map (pair shelf) (YTMusicSource.shelf_contents shelf))
                     shelves) k
         = Some (shelf, listItem) ->
         exists p,
           nth_error plays k = Some p /\
           comment (meta p) = Some (YTMusicSource.shelf_title shelf) /\
           trackId (meta p) = YTNodes.id listItem /\
           track (data p) = YTNodes.title listItem /\
           album (data p) = YTNodes.album listItem /\
           source (meta p) = Some "YTMusic" /\
           playDate (data p) = None /\
           newFromSource (meta p) = Some false) /\
  (forall e,
     YTMusicSource.getUpstreamRecentlyPlayed hasErrorInfo now (inl e) w
     = ({| this := this w;
           out := out w ++
                  (if hasErrorInfo e
                   then [Log error "Additional API response details"] else []) |},
        inl e)).
Proof.
  split.
  - intros shelves.
    exists (firstn 100 (YTMusicSource.ytiHistoryResponseFromShelfToPlays now shelves)).
    split; [|split].
    + unfold YTMusicSource.getUpstreamRecentlyPlayed,
        YTMusicSource.getLibraryHistoryPlaylists.
      run. cbn. reflexivity.
    + rewrite shelves_flat, flat_map_pairs, length_firstn, length_map. reflexivity.
    + intros k shelf listItem Hk Hn.
      rewrite shelves_flat, flat_map_pairs, nth_error_firstn.
      apply Nat.ltb_lt in Hk. rewrite Hk.
      rewrite nth_error_map, Hn. cbn [option_map fst snd].
      eexists. split; [reflexivity|]. repeat split; reflexivity.
  - intros e.
    unfold YTMusicSource.getUpstreamRecentlyPlayed,
      YTMusicSource.getLibraryHistoryPlaylists.
    run. cbn. destruct (hasErrorInfo e); cbn.
    + reflexivity.
    + rewrite app_nil_r. destruct w; reflexivity.
Qed.

(** ** backend/sources/LastfmSource.ts: recent tracks *)

Lemma truthy_spec (b : option bool) : truthy b = true <-> b = Some true.
Proof. destruct b as [[|]|]; simpl; split; congruence. Qed.

Lemma keptOf_spec (TrackObject : Type)
    (formatPlayObj : TrackObject -> JsError + PlayObject) now x p :
  In p (keptOf formatPlayObj now x) <->
  (formatPlayObj x = inr p /\ playDate (data p) <> None) \/
  (exists f, formatPlayObj x = inr f /\ playDate (data f) = None /\
             nowPlaying (meta f) = Some true /\ p = LastfmSource.datedNow now f).
Proof.
  unfold keptOf. destruct (formatPlayObj x) as [e|f].
  - simpl. split; [tauto|]. intros [[H _]|[f [H _]]]; discriminate.
  - destruct (playDate (data f)) as [d|] eqn:D.
    + simpl. split.
      * intros [<-|[]]. left. split; [reflexivity | congruence].
      * intros [[H _]|[f' [H [D' _]]]]; inversion H; subst; [auto | congruence].
    + destruct (truthy (nowPlaying (meta f))) eqn:N.
      * apply truthy_spec in N. simpl. split.
        -- intros [<-|[]]. right. exists f. auto.
        -- intros [[H Hd]|[f' [H [_ [_ ->]]]]]; inversion H; subst; [congruence | auto].
      * simpl. split; [tauto|].
        intros [[H Hd]|[f' [H [_ [N' _]]]]]; inversion H; subst; [congruence|].
        apply truthy_spec in N'. congruence.
Qed.

Lemma splitPlays_history (TrackObject : Type)
    (formatPlayObj : TrackObject -> JsError + PlayObject)
    (sort : list PlayObject -> list PlayObject) now tracks p :
  (forall l q, In q (sort l) <-> In q l) ->
  In p (fst (LastfmSource.splitPlays sort
               (flat_map (keptOf formatPlayObj now) tracks))) <->
  inHistory formatPlayObj tracks p.
Proof.
  intros Hsort. unfold LastfmSource.splitPlays, inHistory. cbn [fst].
  rewrite filter_In, Hsort, in_flat_map, negb_true_iff. split.
  - intros [[x [Hx Hk]] N]. exists x. split; [exact Hx|].
    apply keptOf_spec in Hk. destruct Hk as [[Hf Hd]|[f [_ [_ [Hn ->]]]]].
    + split; [exact Hf|]. split; [exact Hd|].
      intros C. apply truthy_spec in C. congruence.
    + cbn in N. apply truthy_spec in Hn. congruence.
  - intros [x [Hx [Hf [Hd Hn]]]]. split.
    + exists x. split; [exact Hx|]. apply keptOf_spec. left. auto.
    + destruct (truthy (nowPlaying (meta p))) eqn:C; [|reflexivity].
      apply truthy_spec in C. contradiction.
Qed.

Lemma splitPlays_playing (TrackObject : Type)
    (formatPlayObj : TrackObject -> JsError + PlayObject)
    (sort : list PlayObject -> list PlayObject) now tracks q :
  (forall l p, In p (sort l) <-> In p l) ->
  In q (snd (LastfmSource.splitPlays sort
               (flat_map (keptOf formatPlayObj now) tracks))) <->
  inPlaying formatPlayObj now tracks q.
Proof.
  intros Hsort. unfold LastfmSource.splitPlays, inPlaying. cbn [snd].
  rewrite filter_In, Hsort, in_flat_map. split.
  - intros [[x [Hx Hk]] N]. apply truthy_spec in N. exists x.
    apply keptOf_spec in Hk. destruct Hk as [[Hf Hd]|[f [Hf [Hd [Hn ->]]]]].
    + exists q. split; [exact Hx|]. split; [exact Hf|]. split; [exact N|].
      destruct (playDate (data q)); [reflexivity | congruence].
    + exists f. split; [exact Hx|]. split; [exact Hf|]. split; [exact Hn|].
      rewrite Hd. reflexivity.
  - intros [x [f [Hx [Hf [Hn ->]]]]]. split.
    + exists x. split; [exact Hx|]. apply keptOf_spec.
      destruct (playDate (data f)) eqn:D.
      * left. split; [exact Hf | congruence].
      * right. exists f. auto.
    + apply truthy_spec. destruct (playDate (data f)); exact Hn.
Qed.

Lemma inHistory_dated (TrackObject : Type)
    (formatPlayObj : TrackObject -> JsError + PlayObject) tracks p :
  inHistory formatPlayObj tracks p ->
  playDate (data p) <> None /\ nowPlaying (meta p) <> Some true.
Proof. intros [x [_ [_ H]]]. exact H. Qed.

Lemma inPlaying_dated (TrackObject : Type)
    (formatPlayObj : TrackObject -> JsError + PlayObject) now tracks q :
  inPlaying formatPlayObj now tracks q ->
  playDate (data q) <> None /\ nowPlaying (meta q) = Some true.
Proof.
  intros [x [f [_ [_ [Hn ->]]]]].
  destruct (playDate (data f)) eqn:D.
  - split; [congruence | exact Hn].
  - split; [discriminate | exact Hn].
Qed.

Lemma collect_outcome (T TrackObject : Type)
    (formatPlayObj : TrackObject -> JsError + PlayObject)
    (showTrack : TrackObject -> string) now acc x (w : World T) :
  LastfmSource.collect formatPlayObj showTrack now acc x w
  = ({| this := this w;
        out := out w ++ omissionLogs formatPlayObj showTrack x |},
     inr (acc ++ keptOf formatPlayObj now x)).
Proof.
  destruct w as [s o]. cbn [this out].
  unfold LastfmSource.collect, keptOf, omissionLogs.
  destruct (formatPlayObj x) as [e|f].
  - run; cbn; rewrite app_nil_r, <- !app_assoc; reflexivity.
  - destruct (playDate (data f)) eqn:D.
    + run; cbn; rewrite D, !app_nil_r; reflexivity.
    + destruct (nowPlaying (meta f)) as [[|]|] eqn:N.
      * run; cbn; rewrite D, N; cbn; rewrite !app_nil_r; reflexivity.
      * run; cbn; rewrite D, N; cbn; rewrite app_nil_r; reflexivity.
      * run; cbn; rewrite D, N; cbn; rewrite app_nil_r; reflexivity.
Qed.

Lemma collectAll_outcome (T TrackObject : Type)
    (formatPlayObj : TrackObject -> JsError + PlayObject)
    (showTrack : TrackObject -> string) now tracks :
  forall acc (w : World T),
  LastfmSource.collectAll formatPlayObj showTrack now tracks acc w
  = ({| this := this w;
        out := out w ++ flat_map (omissionLogs formatPlayObj showTrack) tracks |},
     inr (acc ++ flat_map (keptOf formatPlayObj now) tracks)).
Proof.
  induction tracks as [|x tracks IH]; intros acc w; cbn [LastfmSource.collectAll flat_map].
  - rewrite !app_nil_r. destruct w; reflexivity.
  - erewrite bind_ok by apply collect_outcome.
    rewrite IH. cbn [this out]. rewrite !app_assoc. reflexivity.
Qed.

Lemma omissionLogs_are_logs (TrackObject : Type)
    (formatPlayObj : TrackObject -> JsError + PlayObject)
    (showTrack : TrackObject -> string) tracks :
  Forall isLog (flat_map (omissionLogs formatPlayObj showTrack) tracks).
Proof.
  induction tracks as [|x tracks IH]; cbn [flat_map]; [constructor|].
  apply Forall_app. split; [|exact IH].
  unfold omissionLogs. destruct (formatPlayObj x) as [e|f].
  - repeat constructor.
  - destruct (playDate (data f)), (nowPlaying (meta f)) as [[|]|];
      repeat constructor.
Qed.

(** Every run of [getLastfmRecentTrack]: the request fails or the response
    lacks [recenttracks], and the call throws without a log; or it returns
    the split of what the reduce kept, after the logs of the reduce. *)
Lemma getLastfmRecentTrack_cases (T TrackObject : Type)
    (formatPlayObj : TrackObject -> JsError + PlayObject)
    (sort : list PlayObject -> list PlayObject)
    (showTrack : TrackObject -> string) now resp (w : World T) :
  (pageTotal resp = None /\
   exists e, LastfmSource.getLastfmRecentTrack formatPlayObj sort showTrack now resp w
             = (w, inl e)) \/
  (pageTotal resp <> None /\
   LastfmSource.getLastfmRecentTrack formatPlayObj sort showTrack now resp w
   = ({| this := this w;
         out := out w ++ flat_map (omissionLogs formatPlayObj showTrack)
                                  (pageTracks resp) |},
      inr (LastfmSource.splitPlays sort
             (flat_map (keptOf formatPlayObj now) (pageTracks resp))))).
Proof.
  unfold LastfmSource.getLastfmRecentTrack, pageTotal, pageTracks.
  destruct resp as [e|resp].
  - left. split; [reflexivity|]. exists e. reflexivity.
  - erewrite bind_ok by reflexivity.
    destruct (LastfmSource.recenttracks resp) as [rt|].
    + right. split; [discriminate|].
      erewrite bind_ok by apply collectAll_outcome. reflexivity.
    + left. split; [reflexivity|]. eexists. reflexivity.
Qed.

(** [getLastfmRecentTrack] never fails on a track it cannot format or
    date.  For a response that has its [recenttracks], and a sort that
    keeps the elements of the array, the call returns, changes nothing and
    logs, track after track, exactly this: for a track that cannot be
    formatted the warning that it is omitted and two debug lines (the second
    one the track itself), for a formatted track without a date that is not
    now playing the warning that it is omitted, and nothing for any other
    track.  The history holds exactly the formatted plays that are dated and
    not now playing; the now-playing list holds exactly the formatted plays
    that are now playing, dated with the current instant when they had no
    date; so every play returned is dated. *)
Theorem getLastfmRecentTrack_partition (T TrackObject : Type)
    (formatPlayObj : TrackObject -> JsError + PlayObject)
    (sort : list PlayObject -> list PlayObject)
    (showTrack : TrackObject -> string)
    (now : Dayjs) (resp : LastfmSource.Response TrackObject) (w : World T) :
  (forall l p, In p (sort l) <-> In p l) ->
  LastfmSource.recenttracks resp <> None ->
  exists history playing,
    LastfmSource.getLastfmRecentTrack formatPlayObj sort showTrack now (inr resp) w
    = ({| this := this w;
          out := out w ++
            flat_map
              (fun x =>
                 match formatPlayObj x with
                 | inl _ =>
                     [Log warn "Failed to format Last.fm recently scrobbled track, omitting from time frame check";
                      Log debug "Full api response object:";
                      Log debug (showTrack x)]
                 | inr f =>
                     match playDate (data f), nowPlaying (meta f) with
                     | None, Some true => []
                     | None, _ =>
                         [Log warn "Last.fm recently scrobbled track did not contain a timestamp, omitting from time frame check"]
                     | Some _, _ => []
                     end
                 end)
              (pageTracks (inr resp)) |},
       inr (history, playing)) /\
    (forall p, In p history <-> inHistory formatPlayObj (pageTracks (inr resp)) p) /\
    (forall q, In q playing <-> inPlaying formatPlayObj now (pageTracks (inr resp)) q) /\
    (forall p, In p history \/ In p playing -> playDate (data p) <> None).
Proof.
  intros Hsort Hrt.
  destruct (getLastfmRecentTrack_cases formatPlayObj sort showTrack now (inr resp) w)
    as [[Hnone _]|[_ E]].
  { exfalso. unfold pageTotal in Hnone.
    destruct (LastfmSource.recenttracks resp); [discriminate | contradiction]. }
  exists (fst (LastfmSource.splitPlays sort
                 (flat_map (keptOf formatPlayObj now) (pageTracks (inr resp))))).
  exists (snd (LastfmSource.splitPlays sort
                 (flat_map (keptOf formatPlayObj now) (pageTracks (inr resp))))).
  split; [rewrite E; reflexivity|].
  split; [intros p; apply splitPlays_history; exact Hsort|].
  split; [intros q; apply splitPlays_playing; exact Hsort|].
  intros p [H|H].
  - apply splitPlays_history in H; [|exact Hsort].
    apply inHistory_dated in H. tauto.
  - apply splitPlays_playing in H; [|exact Hsort].
    apply inPlaying_dated in H. tauto.
Qed.

(** The theorem on a response of four tracks: a dated play, a track that
    cannot be formatted, a play that is now playing, and an undated play
    that is not. *)
Lemma getLastfmRecentTrack_example :
  (forall l p, In p (@id (list PlayObject) l) <-> In p l) /\
  LastfmSource.recenttracks
    (samplePage [Some (play "A" None (Some 1000)); None;
                 Some (nowPlayingPlay "B"); Some (play "C" None None)] "1") <> None /\
  exists history playing,
    LastfmSource.getLastfmRecentTrack sampleTrackFormat (@id (list PlayObject))
      (fun _ => "track") 5000
      (inr (samplePage [Some (play "A" None (Some 1000)); None;
                        Some (nowPlayingPlay "B"); Some (play "C" None None)] "1"))
      {| this := tt; out := [] |}
    = ({| this := tt;
          out := [Log warn "Failed to format Last.fm recently scrobbled track, omitting from time frame check";
                  Log debug "Full api response object:";
                  Log debug "track";
                  Log warn "Last.fm recently scrobbled track did not contain a timestamp, omitting from time frame check"] |},
       inr (history, playing)) /\
    (forall p, In p history <->
       inHistory sampleTrackFormat
         (pageTracks (inr (samplePage [Some (play "A" None (Some 1000)); None;
                                       Some (nowPlayingPlay "B");
                                       Some (play "C" None None)] "1"))) p) /\
    (forall q, In q playing <->
       inPlaying sampleTrackFormat 5000
         (pageTracks (inr (samplePage [Some (play "A" None (Some 1000)); None;
                                       Some (nowPlayingPlay "B");
                                       Some (play "C" None None)] "1"))) q) /\
    (forall p, In p history \/ In p playing -> playDate (data p) <> None).
Proof.
  split; [intros l p; reflexivity|]. split; [discriminate|].
  apply (@getLastfmRecentTrack_partition unit (option PlayObject) sampleTrackFormat
           (@id (list PlayObject)) (fun _ => "track") 5000
           (samplePage [Some (play "A" None (Some 1000)); None;
                        Some (nowPlayingPlay "B"); Some (play "C" None None)] "1")
           {| this := tt; out := [] |}).
  - intros l p. reflexivity.
  - discriminate.
Defined.

(** ** backend/sources/LastfmSource.ts: a date range *)

Lemma In_pagesFrom m : forall k p,
  In p (pagesFrom k m) <-> k <= p < k + Z.of_nat m.
Proof.
  induction m as [|m IH]; intros k p; cbn [pagesFrom In].
  - lia.
  - rewrite IH. lia.
Qed.

Lemma fetchPages_step_ok (T TrackObject : Type) (parseInt : string -> option Z)
    (pages : Z -> JsError + LastfmSource.Response TrackObject)
    fuel k acc (w : World T) t :
  pageTotal (pages k) = Some t ->
  LastfmSource.fetchPages parseInt pages (S fuel) k acc w =
  if match parseInt t with Some n => k + 1 <=? n | None => false end
  then LastfmSource.fetchPages parseInt pages fuel (k + 1) (acc ++ pageTracks (pages k)) w
  else (w, inr (Some (acc ++ pageTracks (pages k)))).
Proof.
  intros H. cbn [LastfmSource.fetchPages]. unfold pageTotal, pageTracks in *.
  destruct (pages k) as [e|resp]; [discriminate|].
  destruct (LastfmSource.recenttracks resp) as [rt|] eqn:R; [|discriminate].
  injection H as <-.
  run. run. cbn beta iota. rewrite R. cbn beta iota.
  destruct (parseInt _) as [n|]; [|reflexivity].
  destruct (k + 1 <=? n); reflexivity.
Qed.

Lemma fetchPages_step_err (T TrackObject : Type) (parseInt : string -> option Z)
    (pages : Z -> JsError + LastfmSource.Response TrackObject)
    fuel k acc (w : World T) :
  pageTotal (pages k) = None ->
  exists e,
    LastfmSource.fetchPages parseInt pages (S fuel) k acc w
    = ({| this := this w; out := out w ++ [Log error "Error fetching scrobbles:"] |},
       inl e) /\
    (forall e0, pages k = inl e0 -> e = e0).
Proof.
  intros H. cbn [LastfmSource.fetchPages]. unfold pageTotal in H.
  destruct (pages k) as [e|resp] eqn:P.
  - exists e. split; [reflexivity|]. intros e0 E. congruence.
  - destruct (LastfmSource.recenttracks resp) as [rt|] eqn:R; [discriminate|].
    eexists. split.
    + run. run. cbn beta iota. rewrite R. reflexivity.
    + intros e0 E. discriminate.
Qed.

Lemma fetchPages_from (T TrackObject : Type) (parseInt : string -> option Z)
    (pages : Z -> JsError + LastfmSource.Response TrackObject) (N : Z) m :
  forall k fuel acc (w : World T),
  (m <= fuel)%nat -> k + Z.of_nat m = N ->
  (forall p, k <= p <= N ->
     exists t, pageTotal (pages p) = Some t /\ parseInt t = Some N) ->
  LastfmSource.fetchPages parseInt pages (S fuel) k acc w
  = (w, inr (Some (acc ++ flat_map (fun p => pageTracks (pages p))
                                   (pagesFrom k (S m))))).
Proof.
  induction m as [|m IH]; intros k fuel acc w Hf HN Hp.
  - destruct (Hp k) as [t [Ht Hn]]; [lia|].
    erewrite fetchPages_step_ok by exact Ht. rewrite Hn.
    replace (k + 1 <=? N) with false by (symmetry; apply Z.leb_gt; lia).
    cbn [pagesFrom flat_map]. rewrite app_nil_r. reflexivity.
  - destruct fuel as [|fuel]; [lia|].
    destruct (Hp k) as [t [Ht Hn]]; [lia|].
    erewrite fetchPages_step_ok by exact Ht. rewrite Hn.
    replace (k + 1 <=? N) with true by (symmetry; apply Z.leb_le; lia).
    rewrite (IH (k + 1) fuel (acc ++ pageTracks (pages k)) w);
      [| lia | lia | intros p Hr; apply Hp; lia].
    cbn [pagesFrom flat_map]. rewrite <- app_assoc. reflexivity.
Qed.

Lemma fetchPages_fails_from (T TrackObject : Type) (parseInt : string -> option Z)
    (pages : Z -> JsError + LastfmSource.Response TrackObject) m :
  forall k fuel acc (w : World T),
  (m <= fuel)%nat ->
  (forall p, k <= p < k + Z.of_nat m ->
     exists t n, pageTotal (pages p) = Some t /\ parseInt t = Some n /\ p < n) ->
  pageTotal (pages (k + Z.of_nat m)) = None ->
  exists e,
    LastfmSource.fetchPages parseInt pages (S fuel) k acc w
    = ({| this := this w; out := out w ++ [Log error "Error fetching scrobbles:"] |},
       inl e) /\
    (forall e0, pages (k + Z.of_nat m) = inl e0 -> e = e0).
Proof.
  induction m as [|m IH]; intros k fuel acc w Hf Hp Hk.
  - replace (k + Z.of_nat 0) with k in * by lia.
    apply fetchPages_step_err. exact Hk.
  - destruct fuel as [|fuel]; [lia|].
    destruct (Hp k) as [t [n [Ht [Hn Hlt]]]]; [lia|].
    erewrite fetchPages_step_ok by exact Ht. rewrite Hn.
    replace (k + 1 <=? n) with true by (symmetry; apply Z.leb_le; lia).
    replace (k + Z.of_nat (S m)) with (k + 1 + Z.of_nat m) in Hk |- * by lia.
    apply IH; [lia | intros p Hr; apply Hp; lia | exact Hk].
Qed.

Lemma flat_map_agree {A B} (f g : A -> list B) l :
  (forall a, In a l -> f a = g a) -> flat_map f l = flat_map g l.
Proof.
  induction l as [|a l IH]; intros H; cbn [flat_map]; [reflexivity|].
  rewrite (H a (or_introl eq_refl)), IH; [reflexivity|].
  intros b Hb. apply H. right. exact Hb.
Qed.

(** When each of the pages 1 to [n] answers and gives [n] as the number of
    pages, the loop of [getLastfmDateRange] ends, having logged nothing and
    changed nothing, with the tracks of the pages 1 to [n] concatenated in
    page order; and it ends in the same way whatever the answers for the
    other pages are. *)
Theorem fetchPages_reads_every_page (T TrackObject : Type)
    (parseInt : string -> option Z)
    (pages : Z -> JsError + LastfmSource.Response TrackObject)
    (n fuel : nat) (w : World T) :
  (1 <= n)%nat -> (n <= fuel)%nat ->
  (forall p, 1 <= p <= Z.of_nat n ->
     exists t, pageTotal (pages p) = Some t /\ parseInt t = Some (Z.of_nat n)) ->
  LastfmSource.fetchPages parseInt pages fuel 1 [] w
  = (w, inr (Some (flat_map (fun p => pageTracks (pages p)) (pagesFrom 1 n)))) /\
  (forall others : Z -> JsError + LastfmSource.Response TrackObject,
     (forall p, 1 <= p <= Z.of_nat n -> others p = pages p) ->
     LastfmSource.fetchPages parseInt others fuel 1 [] w
     = LastfmSource.fetchPages parseInt pages fuel 1 [] w).
Proof.
  intros Hn Hf Hp.
  destruct n as [|m]; [lia|]. destruct fuel as [|fuel]; [lia|].
  assert (E : forall q : Z -> JsError + LastfmSource.Response TrackObject,
            (forall p, 1 <= p <= Z.of_nat (S m) -> q p = pages p) ->
            LastfmSource.fetchPages parseInt q (S fuel) 1 [] w
            = (w, inr (Some (flat_map (fun p => pageTracks (pages p))
                                      (pagesFrom 1 (S m)))))).
  { intros q Hq.
    rewrite (@fetchPages_from T TrackObject parseInt q (Z.of_nat (S m)) m 1 fuel [] w);
      [| lia | lia | intros p Hr; rewrite (Hq p Hr); apply Hp; exact Hr].
    cbn [app]. do 3 f_equal. apply flat_map_agree.
    intros p Hin. apply In_pagesFrom in Hin. rewrite Hq by lia. reflexivity. }
  split.
  - apply E. intros p _. reflexivity.
  - intros others Ho. rewrite (E others Ho). symmetry.
    apply E. intros p _. reflexivity.
Qed.

(** The theorem on two pages; a third request would fail. *)
Lemma fetchPages_example :
  (1 <= 2)%nat /\ (2 <= 5)%nat /\
  (forall p, 1 <= p <= Z.of_nat 2 ->
     exists t, pageTotal (samplePages p) = Some t /\
               sampleParseInt t = Some (Z.of_nat 2)) /\
  LastfmSource.fetchPages sampleParseInt samplePages 5 1 []
    {| this := tt; out := [] |}
  = ({| this := tt; out := [] |},
     inr (Some [Some (play "A" None (Some 1000)); None;
                Some (nowPlayingPlay "B"); Some (play "C" None None)])) /\
  (forall others : Z -> JsError + LastfmSource.Response (option PlayObject),
     (forall p, 1 <= p <= Z.of_nat 2 -> others p = samplePages p) ->
     LastfmSource.fetchPages sampleParseInt others 5 1 [] {| this := tt; out := [] |}
     = LastfmSource.fetchPages sampleParseInt samplePages 5 1 []
         {| this := tt; out := [] |}).
Proof.
  assert (H : forall p, 1 <= p <= Z.of_nat 2 ->
            exists t, pageTotal (samplePages p) = Some t /\
                      sampleParseInt t = Some (Z.of_nat 2)).
  { intros p Hp. assert (C : p = 1 \/ p = 2) by lia.
    destruct C as [-> | ->]; exists "2"; split; reflexivity. }
  split; [lia|]. split; [lia|]. split; [exact H|].
  apply (@fetchPages_reads_every_page unit (option PlayObject) sampleParseInt
           samplePages 2 5 {| this := tt; out := [] |}); [lia | lia | exact H].
Defined.

(** When the first page gives no usable number of pages ([parseInt] yields
    [NaN], or a number below 2), the loop stops after that page, whatever
    the later pages hold. *)
Theorem fetchPages_stops_without_a_page_count (T TrackObject : Type)
    (parseInt : string -> option Z)
    (pages : Z -> JsError + LastfmSource.Response TrackObject)
    (fuel : nat) (w : World T) (t : string) :
  pageTotal (pages 1) = Some t ->
  (forall n, parseInt t = Some n -> n < 2) ->
  LastfmSource.fetchPages parseInt pages (S fuel) 1 [] w
  = (w, inr (Some (pageTracks (pages 1)))).
Proof.
  intros Ht Hn. erewrite fetchPages_step_ok by exact Ht.
  destruct (parseInt t) as [n|]; [|reflexivity].
  replace (1 + 1 <=? n) with false; [reflexivity|].
  symmetry. apply Z.leb_gt. specialize (Hn n eq_refl). lia.
Qed.

Lemma fetchPages_without_count_example :
  pageTotal ((fun _ : Z => inr (samplePage [Some (play "A" None (Some 1000))] "many")) 1)
  = Some "many" /\
  (forall n, sampleParseInt "many" = Some n -> n < 2) /\
  LastfmSource.fetchPages sampleParseInt
    (fun _ => inr (samplePage [Some (play "A" None (Some 1000))] "many")) 3 1 []
    {| this := tt; out := [] |}
  = ({| this := tt; out := [] |},
     inr (Some (pageTracks
                  ((fun _ : Z => inr (samplePage [Some (play "A" None (Some 1000))] "many"))
                     1)))).
Proof.
  split; [reflexivity|]. split; [intros n H; discriminate|].
  apply (@fetchPages_stops_without_a_page_count unit (option PlayObject) sampleParseInt
           (fun _ => inr (samplePage [Some (play "A" None (Some 1000))] "many")) 2
           {| this := tt; out := [] |} "many").
  - reflexivity.
  - intros n H. discriminate.
Defined.

(** A page that fails aborts the whole of [getLastfmDateRange]: when the
    pages before page [m + 1] answer and each gives a number of pages beyond
    itself, and the request for page [m + 1] is rejected or its response
    lacks [recenttracks], the call throws (the rejection itself, when there
    is one) after the opening log and one error log; the tracks of the pages
    read so far are dropped. *)
Theorem getLastfmDateRange_aborts_on_failed_page (T TrackObject : Type)
    (formatPlayObj : TrackObject -> JsError + PlayObject)
    (sort : list PlayObject -> list PlayObject)
    (showTrack : TrackObject -> string)
    (parseInt : string -> option Z) (format : Dayjs -> string)
    (pages : Z -> JsError + LastfmSource.Response TrackObject)
    (m fuel : nat) (now from to : Dayjs) (w : World T) :
  (m < fuel)%nat ->
  (forall p, 1 <= p <= Z.of_nat m ->
     exists t n, pageTotal (pages p) = Some t /\ parseInt t = Some n /\ p < n) ->
  pageTotal (pages (Z.of_nat m + 1)) = None ->
  exists e,
    LastfmSource.getLastfmDateRange formatPlayObj sort showTrack parseInt format
      pages fuel now from to w
    = ({| this := this w;
          out := out w
                 ++ [Log info ("Fetching scrobbles from " ++ format from
                               ++ " to " ++ format to)%string;
                     Log error "Error fetching scrobbles:"] |},
       inl e) /\
    (forall e0, pages (Z.of_nat m + 1) = inl e0 -> e = e0).
Proof.
  intros Hf Hp Hk. destruct fuel as [|fuel]; [lia|].
  replace (Z.of_nat m + 1) with (1 + Z.of_nat m) in * by lia.
  destruct (@fetchPages_fails_from T TrackObject parseInt pages m 1 fuel []
              {| this := this w;
                 out := out w ++ [Log info ("Fetching scrobbles from " ++ format from
                                            ++ " to " ++ format to)%string] |})
    as [e [E He]]; [lia | intros p Hr; apply Hp; lia | exact Hk |].
  exists e. split; [|exact He].
  unfold LastfmSource.getLastfmDateRange.
  erewrite bind_ok by reflexivity.
  erewrite bind_err by exact E.
  cbn [this out]. rewrite <- app_assoc. reflexivity.
Qed.

Lemma getLastfmDateRange_abort_example :
  (2 < 5)%nat /\
  (forall p, 1 <= p <= Z.of_nat 2 ->
     exists t n, pageTotal (samplePages p) = Some t /\
                 (fun _ : string => Some 3) t = Some n /\ p < n) /\
  pageTotal (samplePages (Z.of_nat 2 + 1)) = None /\
  exists e,
    LastfmSource.getLastfmDateRange sampleTrackFormat (@id (list PlayObject))
      (fun _ => "track") (fun _ => Some 3) sampleFormat samplePages 5 5000 0 4000
      {| this := tt; out := [] |}
    = ({| this := tt;
          out := [] ++ [Log info ("Fetching scrobbles from " ++ sampleFormat 0
                                  ++ " to " ++ sampleFormat 4000)%string;
                        Log error "Error fetching scrobbles:"] |},
       inl e) /\
    (forall e0, samplePages (Z.of_nat 2 + 1) = inl e0 -> e = e0).
Proof.
  assert (H : forall p, 1 <= p <= Z.of_nat 2 ->
            exists t n, pageTotal (samplePages p) = Some t /\
                        (fun _ : string => Some 3) t = Some n /\ p < n).
  { intros p Hp. assert (C : p = 1 \/ p = 2) by lia.
    destruct C as [-> | ->]; exists "2", 3; (split; [reflexivity|]);
      (split; [reflexivity | lia]). }
  split; [lia|]. split; [exact H|]. split; [reflexivity|].
  apply (@getLastfmDateRange_aborts_on_failed_page unit (option PlayObject)
           sampleTrackFormat (@id (list PlayObject)) (fun _ => "track")
           (fun _ => Some 3) sampleFormat samplePages 2 5 5000 0 4000
           {| this := tt; out := [] |}); [lia | exact H | reflexivity].
Defined.

(** [getLastfmDateRange] over [n] pages that all answer and give [n] as the
    number of pages, with a sort that keeps the elements: the call returns;
    beyond its opening log it only logs; the history holds exactly the dated
    plays, not now playing, that the tracks of all the pages format to, and
    the now-playing list exactly those that are now playing. *)
Theorem getLastfmDateRange_partition (T TrackObject : Type)
    (formatPlayObj : TrackObject -> JsError + PlayObject)
    (sort : list PlayObject -> list PlayObject)
    (showTrack : TrackObject -> string)
    (parseInt : string -> option Z) (format : Dayjs -> string)
    (pages : Z -> JsError + LastfmSource.Response TrackObject)
    (n fuel : nat) (now from to : Dayjs) (w : World T) :
  (forall l p, In p (sort l) <-> In p l) ->
  (1 <= n)%nat -> (n <= fuel)%nat ->
  (forall p, 1 <= p <= Z.of_nat n ->
     exists t, pageTotal (pages p) = Some t /\ parseInt t = Some (Z.of_nat n)) ->
  exists evs history playing,
    LastfmSource.getLastfmDateRange formatPlayObj sort showTrack parseInt format
      pages fuel now from to w
    = ({| this := this w;
          out := out w
                 ++ Log info ("Fetching scrobbles from " ++ format from
                              ++ " to " ++ format to)%string :: evs |},
       inr (Some (history, playing))) /\
    Forall isLog evs /\
    (forall p, In p history <->
       inHistory formatPlayObj
         (flat_map (fun p => pageTracks (pages p)) (pagesFrom 1 n)) p) /\
    (forall q, In q playing <->
       inPlaying formatPlayObj now
         (flat_map (fun p => pageTracks (pages p)) (pagesFrom 1 n)) q).
Proof.
  intros Hsort Hn Hf Hp.
  destruct n as [|m]; [lia|]. destruct fuel as [|fuel]; [lia|].
  set (tracks := flat_map (fun p => pageTracks (pages p)) (pagesFrom 1 (S m))).
  set (w1 := {| this := this w;
                out := out w ++ [Log info ("Fetching scrobbles from " ++ format from
                                           ++ " to " ++ format to)%string] |}).
  assert (E1 : LastfmSource.fetchPages parseInt pages (S fuel) 1 [] w1
               = (w1, inr (Some tracks))).
  { rewrite (@fetchPages_from T TrackObject parseInt pages (Z.of_nat (S m)) m 1 fuel [] w1);
      [reflexivity | lia | lia | exact Hp]. }
  pose proof (collectAll_outcome formatPlayObj showTrack now tracks [] w1) as E2.
  cbn [app] in E2.
  pose proof (omissionLogs_are_logs formatPlayObj showTrack tracks) as F.
  exists (flat_map (omissionLogs formatPlayObj showTrack) tracks).
  exists (fst (LastfmSource.splitPlays sort (flat_map (keptOf formatPlayObj now) tracks))).
  exists (snd (LastfmSource.splitPlays sort (flat_map (keptOf formatPlayObj now) tracks))).
  split.
  { unfold LastfmSource.getLastfmDateRange.
    erewrite bind_ok by reflexivity. fold w1.
    erewrite bind_ok by exact E1. cbn beta iota.
    erewrite bind_ok by exact E2.
    unfold w1. cbn [this out]. rewrite <- app_assoc. reflexivity. }
  split; [exact F|].
  split; [intros p; apply splitPlays_history; exact Hsort|].
  intros q. apply splitPlays_playing. exact Hsort.
Qed.

Lemma getLastfmDateRange_example :
  (forall l p, In p (@id (list PlayObject) l) <-> In p l) /\
  (1 <= 2)%nat /\ (2 <= 5)%nat /\
  (forall p, 1 <= p <= Z.of_nat 2 ->
     exists t, pageTotal (samplePages p) = Some t /\
               sampleParseInt t = Some (Z.of_nat 2)) /\
  exists evs history playing,
    LastfmSource.getLastfmDateRange sampleTrackFormat (@id (list PlayObject))
      (fun _ => "track") sampleParseInt sampleFormat samplePages 5 5000 0 4000
      {| this := tt; out := [] |}
    = ({| this := tt;
          out := [] ++ Log info ("Fetching scrobbles from " ++ sampleFormat 0
                                 ++ " to " ++ sampleFormat 4000)%string :: evs |},
       inr (Some (history, playing))) /\
    Forall isLog evs /\
    (forall p, In p history <->
       inHistory sampleTrackFormat
         (flat_map (fun p => pageTracks (samplePages p)) (pagesFrom 1 2)) p) /\
    (forall q, In q playing <->
       inPlaying sampleTrackFormat 5000
         (flat_map (fun p => pageTracks (samplePages p)) (pagesFrom 1 2)) q).
Proof.
  assert (H : forall p, 1 <= p <= Z.of_nat 2 ->
            exists t, pageTotal (samplePages p) = Some t /\
                      sampleParseInt t = Some (Z.of_nat 2)).
  { intros p Hp. assert (C : p = 1 \/ p = 2) by lia.
    destruct C as [-> | ->]; exists "2"; split; reflexivity. }
  split; [intros l p; reflexivity|].
  split; [lia|]. split; [lia|]. split; [exact H|].
  apply (@getLastfmDateRange_partition unit (option PlayObject)
           sampleTrackFormat (@id (list PlayObject)) (fun _ => "track")
           sampleParseInt sampleFormat samplePages 2 5 5000 0 4000
           {| this := tt; out := [] |});
    [intros l p; reflexivity | lia | lia | exact H].
Defined.

(** What [getRecentlyPlayed] and [getUpstreamRecentlyPlayed] return, when
    they return and the sort keeps the elements: only dated plays, none of
    them now playing. *)
Theorem lastfm_history_is_dated_and_finished (T TrackObject : Type)
    (formatPlayObj : TrackObject -> JsError + PlayObject)
    (sort : list PlayObject -> list PlayObject)
    (showTrack : TrackObject -> string)
    (processRecentPlays : list PlayObject -> M T unit)
    (now : Dayjs) (resp : JsError + LastfmSource.Response TrackObject)
    (w w' : World T) (l : list PlayObject) :
  (forall l p, In p (sort l) <-> In p l) ->
  LastfmSource.getRecentlyPlayed formatPlayObj sort showTrack processRecentPlays
    now resp w = (w', inr l) \/
  LastfmSource.getUpstreamRecentlyPlayed formatPlayObj sort showTrack now resp w
  = (w', inr l) ->
  forall p, In p l ->
    playDate (data p) <> None /\ nowPlaying (meta p) <> Some true.
Proof.
  intros Hsort H p Hin.
  assert (Hl : l = fst (LastfmSource.splitPlays sort
                          (flat_map (keptOf formatPlayObj now) (pageTracks resp)))).
  { destruct (getLastfmRecentTrack_cases formatPlayObj sort showTrack now resp w)
      as [[_ [e E]]|[_ E]]; destruct H as [H|H].
    - unfold LastfmSource.getRecentlyPlayed, tryCatch in H.
      erewrite bind_err in H by exact E. discriminate.
    - unfold LastfmSource.getUpstreamRecentlyPlayed, tryCatch in H.
      erewrite bind_err in H by exact E. discriminate.
    - unfold LastfmSource.getRecentlyPlayed, tryCatch in H.
      erewrite bind_ok in H by exact E.
      unfold bind, ret, throw in H.
      destruct (processRecentPlays _ _) as [w2 [e|[]]]; congruence.
    - unfold LastfmSource.getUpstreamRecentlyPlayed, tryCatch in H.
      erewrite bind_ok in H by exact E.
      unfold ret in H. congruence. }
  subst l. apply splitPlays_history in Hin; [|exact Hsort].
  apply inHistory_dated in Hin. exact Hin.
Qed.

Lemma lastfm_history_example :
  (forall l p, In p (@id (list PlayObject) l) <-> In p l) /\
  (LastfmSource.getRecentlyPlayed sampleTrackFormat (@id (list PlayObject))
     (fun _ => "track") (fun _ => ret tt) 5000
     (inr (samplePage [Some (nowPlayingPlay "B"); Some (play "A" None (Some 1000));
                       Some (play "C" None None); Some (play "D" None (Some 2000))] "1"))
     {| this := tt; out := [] |}
   = ({| this := tt;
         out := [Log warn "Last.fm recently scrobbled track did not contain a timestamp, omitting from time frame check"] |},
      inr [play "A" None (Some 1000); play "D" None (Some 2000)]) \/
   LastfmSource.getUpstreamRecentlyPlayed sampleTrackFormat (@id (list PlayObject))
     (fun _ => "track") 5000
     (inr (samplePage [Some (nowPlayingPlay "B"); Some (play "A" None (Some 1000));
                       Some (play "C" None None); Some (play "D" None (Some 2000))] "1"))
     {| this := tt; out := [] |}
   = ({| this := tt;
         out := [Log warn "Last.fm recently scrobbled track did not contain a timestamp, omitting from time frame check"] |},
      inr [play "A" None (Some 1000); play "D" None (Some 2000)])) /\
  forall p, In p [play "A" None (Some 1000); play "D" None (Some 2000)] ->
    playDate (data p) <> None /\ nowPlaying (meta p) <> Some true.
Proof.
  split; [intros l p; reflexivity|].
  split; [left; reflexivity|].
  apply (@lastfm_history_is_dated_and_finished unit (option PlayObject)
           sampleTrackFormat (@id (list PlayObject)) (fun _ => "track")
           (fun _ => ret tt) 5000
           (inr (samplePage [Some (nowPlayingPlay "B"); Some (play "A" None (Some 1000));
                             Some (play "C" None None);
                             Some (play "D" None (Some 2000))] "1"))
           {| this := tt; out := [] |}
           {| this := tt;
              out := [Log warn "Last.fm recently scrobbled track did not contain a timestamp, omitting from time frame check"] |}
           [play "A" None (Some 1000); play "D" None (Some 2000)]).
  - intros l p. reflexivity.
  - left. reflexivity.
Defined.
